(** * Shared / weak / intrusive reference-counted handles

    A shallow embedding of [shared.h], [weak.h] and [intrusive.h].

    - [size_t] counters are integers modulo [2 ^ 64] (an LP64 target), every
      [++] and [--] written with its wrap-around.
    - Control blocks live in a heap keyed by block identity; [delete this]
      removes the block and any later access to it is a fault.
    - The two externally visible effects of a control block, the virtual hook
      [OnZeroReferences] and [delete this], are recorded in an event log.
    - Handles are plain records of a payload address and an optional block.
      A handle object lives either in the client program, at an address, or
      inside a payload, as one of its data members; the operations that
      touch a handle object after a release take it by reference.
    - The payload type [T] is a template parameter.  Of its destructor, which
      the hook runs, the model keeps what can reach a control block again:
      the destruction of the [SharedPtr] and [WeakPtr] members of the
      payload, which may tear down further payloads. *)

From Stdlib Require Import ZArith Lia List.
From stdpp Require Import base numbers option list gmap fin_maps fin_sets.

Local Open Scope Z_scope.

(** ** Machine integers *)

Definition size_t_bits : Z := 64.
Definition SIZE_MOD : Z := 2 ^ size_t_bits.
Definition SIZE_MAX : Z := SIZE_MOD - 1.

(** Value of a [size_t] expression after reduction modulo [2 ^ 64]. *)
Definition wrap (z : Z) : Z := z mod SIZE_MOD.

(** Addresses; [nullptr] is [0]. *)
Definition nullptr : Z := 0.

(** ** Handles (the data members of [SharedPtr<T>] and [WeakPtr<T>]) *)

Record SharedPtr := mkSharedPtr {
  data_ptr_ : Z;
  control_block_ : option nat
}.

Record WeakPtr := mkWeakPtr {
  observe_data_ptr_ : Z;
  observe_cb_ : option nat
}.

(** A handle object of either kind. *)
Inductive Handle :=
  | HShared (h : SharedPtr)
  | HWeak (w : WeakPtr).

(** ** Control blocks *)

(** The two concrete block classes.  [PtrControlBlock] keeps the address of a
    separately allocated payload, [ObjectControlBlock] the address of its own
    [storage_] member. *)
Inductive BlockKind :=
  | PtrControlBlock (data_ptr : Z)
  | ObjectControlBlock (storage : Z).

(** [ref_count_] and [weak_count_] are the members of [ControlBlockBase].
    [payload_members] lists the [SharedPtr] and [WeakPtr] data members of the
    payload object the block manages, in the order in which the payload's
    destructor, which [OnZeroReferences] runs, destroys them; it is empty
    once the payload has been destroyed. *)
Record ControlBlock := mkControlBlock {
  ref_count_ : Z;
  weak_count_ : Z;
  kind : BlockKind;
  payload_members : list Handle
}.

Definition set_ref_count (r : Z) (cb : ControlBlock) : ControlBlock :=
  mkControlBlock r (weak_count_ cb) (kind cb) (payload_members cb).

Definition set_weak_count (w : Z) (cb : ControlBlock) : ControlBlock :=
  mkControlBlock (ref_count_ cb) w (kind cb) (payload_members cb).

Definition set_payload_members (ms : list Handle) (cb : ControlBlock) : ControlBlock :=
  mkControlBlock (ref_count_ cb) (weak_count_ cb) (kind cb) ms.

(** ** Heap, events, outcomes *)

Inductive event :=
  | EvOnZeroReferences (b : nat)
  | EvDeleteThis (b : nat).

#[global] Instance event_eq_dec : EqDecision event.
Proof. solve_decision. Defined.

Record Heap := mkHeap {
  blocks : gmap nat ControlBlock;
  next_block : nat;
  log : list event
}.

Inductive exn := BadWeakPtr.

(** [UseAfterFree b]: access to the released control block [b].
    [UseAfterDestroy b]: access to a handle member of the payload of block
    [b] that does not exist (any more).  [NoSuchObject]: the program names a
    handle object it never created.  [TooDeep]: the nesting bound of
    [DecrementStrong_within] was reached. *)
Inductive fault :=
  | UseAfterFree (b : nat)
  | UseAfterDestroy (b : nat)
  | NoSuchObject
  | TooDeep.

Inductive outcome (S A : Type) :=
  | Ok (a : A) (s : S)
  | Raise (e : exn) (s : S)
  | Fault (f : fault) (s : S).
Arguments Ok {S A} a s.
Arguments Raise {S A} e s.
Arguments Fault {S A} f s.

(** Computations over the heap. *)
Definition M (A : Type) : Type := Heap → outcome Heap A.

#[global] Instance M_ret : MRet M := λ A a h, Ok a h.

#[global] Instance M_bind : MBind M := λ A B f m h,
  match m h with
  | Ok a h' => f a h'
  | Raise e h' => Raise e h'
  | Fault x h' => Fault x h'
  end.

Definition throw {A} (e : exn) : M A := λ h, Raise e h.

(** Read the members of block [b]; the block must still be allocated. *)
Definition load (b : nat) : M ControlBlock := λ h,
  match blocks h !! b with
  | Some cb => Ok cb h
  | None => Fault (UseAfterFree b) h
  end.

Definition store (b : nat) (cb : ControlBlock) : M unit := λ h,
  match blocks h !! b with
  | Some _ => Ok tt (mkHeap (<[b := cb]> (blocks h)) (next_block h) (log h))
  | None => Fault (UseAfterFree b) h
  end.

Definition emit (e : event) : M unit := λ h,
  Ok tt (mkHeap (blocks h) (next_block h) (log h ++ [e])).

(** [delete this] *)
Definition delete_this (b : nat) : M unit := λ h,
  match blocks h !! b with
  | Some _ => Ok tt (mkHeap (delete b (blocks h)) (next_block h) (log h ++ [EvDeleteThis b]))
  | None => Fault (UseAfterFree b) h
  end.

(** [new PtrControlBlock<T>(ptr)] / [new ObjectControlBlock<T>(args...)]:
    the members start as [ref_count_ = 1], [weak_count_ = 0]. *)
Definition new_block (k : BlockKind) : M nat := λ h,
  let b := next_block h in
  Ok b (mkHeap (<[b := mkControlBlock 1 0 k []]> (blocks h)) (S b) (log h)).

Fixpoint for_each {A} (f : A → M unit) (l : list A) : M unit :=
  match l with
  | [] => mret tt
  | x :: l' => f x ;; for_each f l'
  end.

(** ** [ControlBlockBase]

    Each method takes the identity [b] of the block it is called on. *)

(** [return ref_count_;] *)
Definition GetCount (b : nat) : M Z :=
  cb ← load b; mret (ref_count_ cb).

(** [++ref_count_;] *)
Definition IncrementStrong (b : nat) : M unit :=
  cb ← load b; store b (set_ref_count (wrap (ref_count_ cb + 1)) cb).

(** [++weak_count_;] *)
Definition IncrementWeak (b : nat) : M unit :=
  cb ← load b; store b (set_weak_count (wrap (weak_count_ cb + 1)) cb).

(** [if (--weak_count_ == 0 && ref_count_ == 0) { delete this; }] *)
Definition DecrementWeak (b : nat) : M unit :=
  cb ← load b;
  let w := wrap (weak_count_ cb - 1) in
  store b (set_weak_count w cb) ;;
  if (w =? 0) && (ref_count_ cb =? 0) then delete_this b else mret tt.

(** The idiom [if (cb) { cb->Method(); }] used by every handle operation. *)
Definition if_block (cb : option nat) (method : nat → M unit) : M unit :=
  match cb with
  | Some b => method b
  | None => mret tt
  end.

(** [~WeakPtr()] *)
Definition WeakPtr_dtor (this : WeakPtr) : M unit :=
  if_block (observe_cb_ this) DecrementWeak.

(** The destructor of a handle that is a data member of a payload:
    [~SharedPtr()] calls [DecrementStrong] (here [release]) on its block,
    [~WeakPtr()] calls [DecrementWeak]. *)
Definition destroy_member (release : nat → M unit) (x : Handle) : M unit :=
  match x with
  | HShared s => if_block (control_block_ s) release
  | HWeak w => WeakPtr_dtor w
  end.

(** The hook of both block classes ([delete data_ptr_] and
    [GetDataPtr()->~T()]): the payload's destructor runs, and with it the
    destructors of the payload's handle members, which from then on do not
    exist.  [release] is [DecrementStrong], which the destructor of a
    [SharedPtr] member calls. *)
Definition OnZeroReferences (release : nat → M unit) (b : nat) : M unit :=
  cb ← load b;
  emit (EvOnZeroReferences b) ;;
  store b (set_payload_members [] cb) ;;
  for_each (destroy_member release) (payload_members cb).

(** [if (--ref_count_ == 0) { OnZeroReferences();]
    [  if (weak_count_ == 0) { delete this; } }]
    The second test reads [weak_count_] after the hook has returned.  The
    hook may call [DecrementStrong] on further blocks; [depth] bounds how
    deeply these calls nest. *)
Fixpoint DecrementStrong_within (depth : nat) (b : nat) : M unit :=
  match depth with
  | O => λ h, Fault TooDeep h
  | S depth' =>
      cb ← load b;
      let r := wrap (ref_count_ cb - 1) in
      store b (set_ref_count r cb) ;;
      if r =? 0 then
        OnZeroReferences (DecrementStrong_within depth') b ;;
        cb' ← load b;
        if weak_count_ cb' =? 0 then delete_this b else mret tt
      else mret tt
  end.

Definition has_members (cb : ControlBlock) : bool :=
  match payload_members cb with
  | [] => false
  | _ :: _ => true
  end.

(** Number of payloads that own handles.  A nested call of
    [DecrementStrong] comes from the destructor of a payload that owned
    handles and owns none afterwards, so the calls nest no deeper than this
    number plus one ([DecrementStrong_never_too_deep]). *)
Definition laden (h : Heap) : nat :=
  size (filter (λ kv, Is_true (has_members kv.2)) (blocks h)).

Definition DecrementStrong (b : nat) : M unit := λ h,
  DecrementStrong_within (S (laden h)) b h.

(** ** [SharedPtr<T>] *)

(** [SharedPtr()] and [SharedPtr(std::nullptr_t)] *)
Definition SharedPtr_default : SharedPtr := mkSharedPtr nullptr None.

(** [explicit SharedPtr(T* ptr)] and [SharedPtr(Y* ptr)] *)
Definition SharedPtr_from_ptr (ptr : Z) : M SharedPtr :=
  b ← new_block (PtrControlBlock ptr);
  mret (mkSharedPtr ptr (Some b)).

(** [SharedPtr(const SharedPtr& other)] *)
Definition SharedPtr_copy (other : SharedPtr) : M SharedPtr :=
  if_block (control_block_ other) IncrementStrong ;;
  mret (mkSharedPtr (data_ptr_ other) (control_block_ other)).

(** [SharedPtr(SharedPtr&& other)]: the new handle and [other] afterwards. *)
Definition SharedPtr_move (other : SharedPtr) : SharedPtr * SharedPtr :=
  (mkSharedPtr (data_ptr_ other) (control_block_ other), mkSharedPtr nullptr None).

(** [SharedPtr(T* ptr, ControlBlockBase* block)] *)
Definition SharedPtr_of_block (ptr : Z) (block : option nat) : SharedPtr :=
  mkSharedPtr ptr block.

(** Aliasing constructor [SharedPtr(const SharedPtr<Y>& other, T* ptr)] *)
Definition SharedPtr_alias (other : SharedPtr) (ptr : Z) : M SharedPtr :=
  if_block (control_block_ other) IncrementStrong ;;
  mret (mkSharedPtr ptr (control_block_ other)).

(** Promotion [explicit SharedPtr(const WeakPtr<T>& other)] *)
Definition SharedPtr_promote (other : WeakPtr) : M SharedPtr :=
  match observe_cb_ other with
  | None => throw BadWeakPtr
  | Some b =>
      c ← GetCount b;
      if c =? 0 then throw BadWeakPtr
      else IncrementStrong b ;;
           mret (mkSharedPtr (observe_data_ptr_ other) (Some b))
  end.

(** [~SharedPtr()] *)
Definition SharedPtr_dtor (this : SharedPtr) : M unit :=
  if_block (control_block_ this) DecrementStrong.

(** [void Swap(SharedPtr& other)] *)
Definition SharedPtr_Swap (this other : SharedPtr) : SharedPtr * SharedPtr :=
  (mkSharedPtr (data_ptr_ other) (control_block_ other),
   mkSharedPtr (data_ptr_ this) (control_block_ this)).

(** [T* Get() const] *)
Definition Get (this : SharedPtr) : Z := data_ptr_ this.

(** [return control_block_ ? control_block_->GetCount() : 0;] *)
Definition SharedPtr_UseCount (this : SharedPtr) : M Z :=
  match control_block_ this with
  | Some b => GetCount b
  | None => mret 0
  end.

(** [explicit operator bool()] *)
Definition SharedPtr_bool (this : SharedPtr) : bool :=
  negb (data_ptr_ this =? nullptr).

(** [operator==(const SharedPtr<T>&, const SharedPtr<U>&)] *)
Definition SharedPtr_eq (left right : SharedPtr) : bool :=
  Get left =? Get right.

(** [MakeShared<T>(args...)]; [storage] is the address of the [storage_]
    member of the block the allocator returns. *)
Definition MakeShared (storage : Z) : M SharedPtr :=
  b ← new_block (ObjectControlBlock storage);
  mret (SharedPtr_of_block storage (Some b)).

(** ** [WeakPtr<T>] *)

Definition WeakPtr_default : WeakPtr := mkWeakPtr nullptr None.

(** [WeakPtr(const WeakPtr& other)] *)
Definition WeakPtr_copy (other : WeakPtr) : M WeakPtr :=
  if_block (observe_cb_ other) IncrementWeak ;;
  mret (mkWeakPtr (observe_data_ptr_ other) (observe_cb_ other)).

(** [WeakPtr(WeakPtr&& other)] *)
Definition WeakPtr_move (other : WeakPtr) : WeakPtr * WeakPtr :=
  (mkWeakPtr (observe_data_ptr_ other) (observe_cb_ other), mkWeakPtr nullptr None).

(** Demotion [WeakPtr(const SharedPtr<T>& other)] *)
Definition WeakPtr_from_shared (other : SharedPtr) : M WeakPtr :=
  if_block (control_block_ other) IncrementWeak ;;
  mret (mkWeakPtr (data_ptr_ other) (control_block_ other)).

(** [operator=(const WeakPtr& other)] *)
Definition WeakPtr_copy_assign (same : bool) (this other : WeakPtr) : M WeakPtr :=
  if same then mret this
  else
    if_block (observe_cb_ this) DecrementWeak ;;
    if_block (observe_cb_ other) IncrementWeak ;;
    mret (mkWeakPtr (observe_data_ptr_ other) (observe_cb_ other)).

(** [operator=(WeakPtr&& other)] *)
Definition WeakPtr_move_assign (same : bool) (this other : WeakPtr)
  : M (WeakPtr * WeakPtr) :=
  if same then mret (this, this)
  else
    if_block (observe_cb_ this) DecrementWeak ;;
    mret (mkWeakPtr (observe_data_ptr_ other) (observe_cb_ other),
          mkWeakPtr nullptr None).

(** [void Reset()] *)
Definition WeakPtr_Reset (this : WeakPtr) : M WeakPtr :=
  if_block (observe_cb_ this) DecrementWeak ;;
  mret (mkWeakPtr nullptr None).

(** [void Swap(WeakPtr& other)] *)
Definition WeakPtr_Swap (this other : WeakPtr) : WeakPtr * WeakPtr :=
  (mkWeakPtr (observe_data_ptr_ other) (observe_cb_ other),
   mkWeakPtr (observe_data_ptr_ this) (observe_cb_ this)).

(** [return observe_cb_ ? observe_cb_->GetCount() : 0;] *)
Definition WeakPtr_UseCount (this : WeakPtr) : M Z :=
  match observe_cb_ this with
  | Some b => GetCount b
  | None => mret 0
  end.

(** [return UseCount() == 0;] *)
Definition Expired (this : WeakPtr) : M bool :=
  c ← WeakPtr_UseCount this; mret (c =? 0).

(** [SharedPtr<T> Lock() const] *)
Definition Lock (this : WeakPtr) : M SharedPtr :=
  match observe_cb_ this with
  | Some b =>
      c ← GetCount b;
      if 0 <? c then
        IncrementStrong b ;;
        mret (SharedPtr_of_block (observe_data_ptr_ this) (Some b))
      else mret SharedPtr_default
  | None => mret SharedPtr_default
  end.

(** The payload object managed by block [b] has the handle [x] as one of its
    data members ([payload.member = std::move(x)]). *)
Definition payload_adopt (b : nat) (x : Handle) : M unit :=
  cb ← load b; store b (set_payload_members (x :: payload_members cb) cb).

(** ** The intrusive counter of [intrusive.h] *)

Module Intrusive.

Record SimpleCounter := mkSimpleCounter { count_ : Z }.

(** [size_t count_ = 0;] *)
Definition initial : SimpleCounter := mkSimpleCounter 0.

(** [SimpleCounter::IncRef]: the returned value and the counter afterwards. *)
Definition IncRef (c : SimpleCounter) : Z * SimpleCounter :=
  let v := wrap (count_ c + 1) in (v, mkSimpleCounter v).

(** [SimpleCounter::DecRef] *)
Definition DecRef (c : SimpleCounter) : Z * SimpleCounter :=
  if 0 <? count_ c then
    let v := wrap (count_ c - 1) in (v, mkSimpleCounter v)
  else (0, c).

Definition RefCount (c : SimpleCounter) : Z := count_ c.

(** [RefCounted::IncRef] *)
Definition RefCounted_IncRef (c : SimpleCounter) : SimpleCounter :=
  snd (IncRef c).

(** [RefCounted::DecRef]: the flag tells whether [Deleter::Destroy] ran. *)
Definition RefCounted_DecRef (c : SimpleCounter) : bool * SimpleCounter :=
  let r := DecRef c in (fst r =? 0, snd r).

End Intrusive.

(** ** Handle objects, and the operations that take them by reference

    A state is the heap together with the handle objects of the client
    program, keyed by the address at which each one lives.  An address is a
    non-null value of pointer width, and two objects never share one.  The
    handle objects that are data members of a payload live in the heap, with
    the payload ([payload_members]). *)

Record State := mkState {
  heap : Heap;
  handles : gmap Z Handle
}.

(** Where a handle object lives: in the client program at address [a], or
    in the payload that block [b] manages, as its [i]-th handle member. *)
Inductive place :=
  | Client (a : Z)
  | Member (b : nat) (i : nat).

#[global] Instance place_eq_dec : EqDecision place.
Proof. solve_decision. Defined.

(** Computations over the heap and the client's handle objects. *)
Definition SM (A : Type) : Type := State → outcome State A.

#[global] Instance SM_ret : MRet SM := λ A a s, Ok a s.

#[global] Instance SM_bind : MBind SM := λ A B f m s,
  match m s with
  | Ok a s' => f a s'
  | Raise e s' => Raise e s'
  | Fault x s' => Fault x s'
  end.

(** A heap computation, which leaves the client's handle objects alone. *)
Definition on_heap {A} (m : M A) : SM A := λ s,
  match m (heap s) with
  | Ok a h => Ok a (mkState h (handles s))
  | Raise e h => Raise e (mkState h (handles s))
  | Fault f h => Fault f (mkState h (handles s))
  end.

(** The handle members of the payload of block [b], while that payload
    exists. *)
Definition members_of (b : nat) (h : Heap) : list Handle :=
  match blocks h !! b with
  | Some cb => payload_members cb
  | None => []
  end.

(** Read the data members of the [SharedPtr] object at [p].  A member of a
    payload can be read only while the payload exists. *)
Definition read_shared (p : place) : SM SharedPtr := λ s,
  match p with
  | Client a =>
      match handles s !! a with
      | Some (HShared x) => Ok x s
      | _ => Fault NoSuchObject s
      end
  | Member b i =>
      match members_of b (heap s) !! i with
      | Some (HShared x) => Ok x s
      | Some (HWeak _) => Fault NoSuchObject s
      | None => Fault (UseAfterDestroy b) s
      end
  end.

(** Assign to the data members of the [SharedPtr] object at [p]. *)
Definition write_shared (p : place) (x : SharedPtr) : SM unit := λ s,
  match p with
  | Client a =>
      match handles s !! a with
      | Some (HShared _) => Ok tt (mkState (heap s) (<[a := HShared x]> (handles s)))
      | _ => Fault NoSuchObject s
      end
  | Member b i =>
      match blocks (heap s) !! b with
      | Some cb =>
          match payload_members cb !! i with
          | Some (HShared _) =>
              Ok tt (mkState
                       (mkHeap (<[b := set_payload_members
                                         (<[i := HShared x]> (payload_members cb)) cb]>
                                  (blocks (heap s)))
                               (next_block (heap s)) (log (heap s)))
                       (handles s))
          | Some (HWeak _) => Fault NoSuchObject s
          | None => Fault (UseAfterDestroy b) s
          end
      | None => Fault (UseAfterDestroy b) s
      end
  end.

(** The end of [operator=(const SharedPtr& other)], for the value [y] read
    from [other]: [*this] takes the pair and the block is counted. *)
Definition copy_assign_rest (this : place) (y : SharedPtr) : SM unit :=
  write_shared this (mkSharedPtr (data_ptr_ y) (control_block_ y)) ;;
  on_heap (if_block (control_block_ y) IncrementStrong).

(** [operator=(const SharedPtr& other)].  The block the destination holds is
    released first; [other] is read, and [*this] written, after that. *)
Definition SharedPtr_copy_assign (this other : place) : SM unit :=
  if decide (other = this) then mret tt
  else
    x ← read_shared this;
    on_heap (if_block (control_block_ x) DecrementStrong) ;;
    y ← read_shared other;
    copy_assign_rest this y.

(** [operator=(SharedPtr&& other)] *)
Definition SharedPtr_move_assign (this other : place) : SM unit :=
  if decide (other = this) then mret tt
  else
    x ← read_shared this;
    on_heap (if_block (control_block_ x) DecrementStrong) ;;
    y ← read_shared other;
    write_shared this (mkSharedPtr (data_ptr_ y) (control_block_ y)) ;;
    write_shared other (mkSharedPtr nullptr None).

(** [void Reset()]: [control_block_] is still set while [DecrementStrong]
    runs, and is cleared afterwards. *)
Definition SharedPtr_Reset (this : place) : SM unit :=
  x ← read_shared this;
  on_heap (if_block (control_block_ x) DecrementStrong) ;;
  write_shared this (mkSharedPtr nullptr None).

(** [void Reset(Y* ptr)] *)
Definition SharedPtr_Reset_ptr (this : place) (ptr : Z) : SM unit :=
  x ← read_shared this;
  if data_ptr_ x =? ptr then mret tt
  else
    on_heap (if_block (control_block_ x) DecrementStrong) ;;
    if negb (ptr =? nullptr) then
      x' ← read_shared this;
      write_shared this (mkSharedPtr ptr (control_block_ x')) ;;
      b ← on_heap (new_block (PtrControlBlock ptr));
      write_shared this (mkSharedPtr ptr (Some b))
    else write_shared this (mkSharedPtr nullptr None).

(** ** Programs over named handles

    The programs below operate on the client's handle objects; their
    payloads own no handles. *)

Definition init : State := mkState (mkHeap ∅ 0 []) ∅.

Definition addr_ok (a : Z) : bool := (0 <? a) && (a <? SIZE_MOD).

Definition vacant (a : Z) (s : State) : bool :=
  addr_ok a && bool_decide (handles s !! a = None).

Definition get_shared (a : Z) (s : State) : option SharedPtr :=
  match handles s !! a with
  | Some (HShared h) => Some h
  | _ => None
  end.

Definition get_weak (a : Z) (s : State) : option WeakPtr :=
  match handles s !! a with
  | Some (HWeak w) => Some w
  | _ => None
  end.

(** Run a heap computation and install the resulting handle objects. *)
Definition commit {A} (s : State) (m : M A) (upd : A → gmap Z Handle)
  : outcome State unit :=
  match m (heap s) with
  | Ok a h => Ok tt (mkState h (upd a))
  | Raise e h => Raise e (mkState h (handles s))
  | Fault f h => Fault f (mkState h (handles s))
  end.

Inductive handle_op :=
  (* SharedPtr *)
  | OpDefault (dst : Z)
  | OpFromPtr (dst : Z) (ptr : Z)
  | OpMakeShared (dst : Z) (storage : Z)
  | OpCopy (dst src : Z)
  | OpMove (dst src : Z)
  | OpAlias (dst src : Z) (ptr : Z)
  | OpPromote (dst src : Z)
  | OpCopyAssign (dst src : Z)
  | OpMoveAssign (dst src : Z)
  | OpReset (a : Z)
  | OpResetPtr (a : Z) (ptr : Z)
  | OpSwap (a1 a2 : Z)
  | OpDestroy (a : Z)
  (* WeakPtr *)
  | OpWeakDefault (dst : Z)
  | OpDemote (dst src : Z)
  | OpWeakCopy (dst src : Z)
  | OpWeakMove (dst src : Z)
  | OpWeakCopyAssign (dst src : Z)
  | OpWeakMoveAssign (dst src : Z)
  | OpWeakReset (a : Z)
  | OpWeakSwap (a1 a2 : Z)
  | OpLock (dst src : Z)
  | OpWeakDestroy (a : Z).

Definition ill_formed (s : State) : outcome State unit := Fault NoSuchObject s.

Definition exec (o : handle_op) (s : State) : outcome State unit :=
  let hs := handles s in
  match o with
  | OpDefault dst =>
      if vacant dst s then Ok tt (mkState (heap s) (<[dst := HShared SharedPtr_default]> hs))
      else ill_formed s
  | OpFromPtr dst ptr =>
      if vacant dst s then
        commit s (SharedPtr_from_ptr ptr) (λ r, <[dst := HShared r]> hs)
      else ill_formed s
  | OpMakeShared dst storage =>
      if vacant dst s then
        commit s (MakeShared storage) (λ r, <[dst := HShared r]> hs)
      else ill_formed s
  | OpCopy dst src =>
      match get_shared src s with
      | Some other =>
          if vacant dst s then
            commit s (SharedPtr_copy other) (λ r, <[dst := HShared r]> hs)
          else ill_formed s
      | None => ill_formed s
      end
  | OpMove dst src =>
      match get_shared src s with
      | Some other =>
          if vacant dst s then
            let r := SharedPtr_move other in
            Ok tt (mkState (heap s) (<[dst := HShared r.1]> (<[src := HShared r.2]> hs)))
          else ill_formed s
      | None => ill_formed s
      end
  | OpAlias dst src ptr =>
      match get_shared src s with
      | Some other =>
          if vacant dst s then
            commit s (SharedPtr_alias other ptr) (λ r, <[dst := HShared r]> hs)
          else ill_formed s
      | None => ill_formed s
      end
  | OpPromote dst src =>
      match get_weak src s with
      | Some other =>
          if vacant dst s then
            commit s (SharedPtr_promote other) (λ r, <[dst := HShared r]> hs)
          else ill_formed s
      | None => ill_formed s
      end
  | OpCopyAssign dst src =>
      match get_shared dst s, get_shared src s with
      | Some _, Some _ => SharedPtr_copy_assign (Client dst) (Client src) s
      | _, _ => ill_formed s
      end
  | OpMoveAssign dst src =>
      match get_shared dst s, get_shared src s with
      | Some _, Some _ => SharedPtr_move_assign (Client dst) (Client src) s
      | _, _ => ill_formed s
      end
  | OpReset a =>
      match get_shared a s with
      | Some _ => SharedPtr_Reset (Client a) s
      | None => ill_formed s
      end
  | OpResetPtr a ptr =>
      match get_shared a s with
      | Some _ => SharedPtr_Reset_ptr (Client a) ptr s
      | None => ill_formed s
      end
  | OpSwap a1 a2 =>
      match get_shared a1 s, get_shared a2 s with
      | Some this, Some other =>
          let r := SharedPtr_Swap this other in
          Ok tt (mkState (heap s) (<[a1 := HShared r.1]> (<[a2 := HShared r.2]> hs)))
      | _, _ => ill_formed s
      end
  | OpDestroy a =>
      match get_shared a s with
      | Some this => commit s (SharedPtr_dtor this) (λ _, delete a hs)
      | None => ill_formed s
      end
  | OpWeakDefault dst =>
      if vacant dst s then Ok tt (mkState (heap s) (<[dst := HWeak WeakPtr_default]> hs))
      else ill_formed s
  | OpDemote dst src =>
      match get_shared src s with
      | Some other =>
          if vacant dst s then
            commit s (WeakPtr_from_shared other) (λ r, <[dst := HWeak r]> hs)
          else ill_formed s
      | None => ill_formed s
      end
  | OpWeakCopy dst src =>
      match get_weak src s with
      | Some other =>
          if vacant dst s then
            commit s (WeakPtr_copy other) (λ r, <[dst := HWeak r]> hs)
          else ill_formed s
      | None => ill_formed s
      end
  | OpWeakMove dst src =>
      match get_weak src s with
      | Some other =>
          if vacant dst s then
            let r := WeakPtr_move other in
            Ok tt (mkState (heap s) (<[dst := HWeak r.1]> (<[src := HWeak r.2]> hs)))
          else ill_formed s
      | None => ill_formed s
      end
  | OpWeakCopyAssign dst src =>
      match get_weak dst s, get_weak src s with
      | Some this, Some other =>
          commit s (WeakPtr_copy_assign (bool_decide (src = dst)) this other)
                 (λ r, <[dst := HWeak r]> hs)
      | _, _ => ill_formed s
      end
  | OpWeakMoveAssign dst src =>
      match get_weak dst s, get_weak src s with
      | Some this, Some other =>
          commit s (WeakPtr_move_assign (bool_decide (src = dst)) this other)
                 (λ r, <[dst := HWeak r.1]> (<[src := HWeak r.2]> hs))
      | _, _ => ill_formed s
      end
  | OpWeakReset a =>
      match get_weak a s with
      | Some this => commit s (WeakPtr_Reset this) (λ r, <[a := HWeak r]> hs)
      | None => ill_formed s
      end
  | OpWeakSwap a1 a2 =>
      match get_weak a1 s, get_weak a2 s with
      | Some this, Some other =>
          let r := WeakPtr_Swap this other in
          Ok tt (mkState (heap s) (<[a1 := HWeak r.1]> (<[a2 := HWeak r.2]> hs)))
      | _, _ => ill_formed s
      end
  | OpLock dst src =>
      match get_weak src s with
      | Some this =>
          if vacant dst s then
            commit s (Lock this) (λ r, <[dst := HShared r]> hs)
          else ill_formed s
      | None => ill_formed s
      end
  | OpWeakDestroy a =>
      match get_weak a s with
      | Some this => commit s (WeakPtr_dtor this) (λ _, delete a hs)
      | None => ill_formed s
      end
  end.

(** The state in which the program continues: a raised [BadWeakPtr] is caught
    by the caller, a fault ends the program. *)
Definition continue (r : outcome State unit) : option State :=
  match r with
  | Ok _ s => Some s
  | Raise _ s => Some s
  | Fault _ _ => None
  end.

Fixpoint run (ops : list handle_op) (s : State) : option State :=
  match ops with
  | [] => Some s
  | o :: rest =>
      match continue (exec o s) with
      | Some s' => run rest s'
      | None => None
      end
  end.

Definition reachable (s : State) : Prop := ∃ ops, run ops init = Some s.

(** The heap after [DecrementStrong] on an allocated block whose payload owns
    no handles. *)
Definition heap_after_DecrementStrong (b : nat) (cb : ControlBlock) (h : Heap) : Heap :=
  let r := wrap (ref_count_ cb - 1) in
  let bs := <[b := set_ref_count r cb]> (blocks h) in
  if r =? 0 then
    if weak_count_ cb =? 0
    then mkHeap (delete b bs) (next_block h)
                ((log h ++ [EvOnZeroReferences b]) ++ [EvDeleteThis b])
    else mkHeap bs (next_block h) (log h ++ [EvOnZeroReferences b])
  else mkHeap bs (next_block h) (log h).

(** The heap after [DecrementWeak] on an allocated block. *)
Definition heap_after_DecrementWeak (b : nat) (cb : ControlBlock) (h : Heap) : Heap :=
  let w := wrap (weak_count_ cb - 1) in
  let bs := <[b := set_weak_count w cb]> (blocks h) in
  if (w =? 0) && (ref_count_ cb =? 0)
  then mkHeap (delete b bs) (next_block h) (log h ++ [EvDeleteThis b])
  else mkHeap bs (next_block h) (log h).

(** ** Observations used in the statements *)

Definition occurrences (e : event) (l : list event) : nat :=
  length (filter (λ x, x = e) l).

(** How often the teardown hook of block [b] has run, and how often the block
    has been released. *)
Definition teardowns (b : nat) (h : Heap) : nat :=
  occurrences (EvOnZeroReferences b) (log h).

Definition releases (b : nat) (h : Heap) : nat :=
  occurrences (EvDeleteThis b) (log h).

Definition is_holder (b : nat) (x : Handle) : bool :=
  match x with
  | HShared h => bool_decide (control_block_ h = Some b)
  | HWeak _ => false
  end.

Definition is_observer (b : nat) (x : Handle) : bool :=
  match x with
  | HShared _ => false
  | HWeak w => bool_decide (observe_cb_ w = Some b)
  end.

(** Number of handle objects that satisfy [P]. *)
Definition census (P : Handle → bool) (hs : gmap Z Handle) : nat :=
  size (filter (λ kv, Is_true (P kv.2)) hs).

Definition holders (b : nat) (s : State) : nat := census (is_holder b) (handles s).
Definition observers (b : nat) (s : State) : nat := census (is_observer b) (handles s).

(** The state of block [b] when [n] shared and [m] weak handles refer to it. *)
Definition block_inv (h : Heap) (b : nat) (n m : nat) : Prop :=
  match blocks h !! b with
  | Some cb =>
      (b < next_block h)%nat ∧ (0 < n + m)%nat ∧
      ref_count_ cb = Z.of_nat n ∧ weak_count_ cb = Z.of_nat m ∧
      payload_members cb = [] ∧
      teardowns b h = (if decide (n = 0%nat) then 1%nat else 0%nat) ∧
      releases b h = 0%nat
  | None =>
      n = 0%nat ∧ m = 0%nat ∧
      teardowns b h = (if decide (b < next_block h)%nat then 1%nat else 0%nat) ∧
      releases b h = (if decide (b < next_block h)%nat then 1%nat else 0%nat)
  end.

Definition consistent (s : State) : Prop :=
  (∀ a x, handles s !! a = Some x → addr_ok a = true) ∧
  (∀ b, block_inv (heap s) b (holders b s) (observers b s)).

(** The operation names handle objects of the right kind that exist, and a
    free address for the object it creates. *)
Definition well_formed (o : handle_op) (s : State) : bool :=
  let shared a := match get_shared a s with Some _ => true | None => false end in
  let weak a := match get_weak a s with Some _ => true | None => false end in
  match o with
  | OpDefault dst | OpFromPtr dst _ | OpMakeShared dst _ | OpWeakDefault dst =>
      vacant dst s
  | OpCopy dst src | OpMove dst src | OpAlias dst src _ | OpDemote dst src =>
      shared src && vacant dst s
  | OpPromote dst src | OpWeakCopy dst src | OpWeakMove dst src | OpLock dst src =>
      weak src && vacant dst s
  | OpCopyAssign dst src | OpMoveAssign dst src | OpSwap dst src =>
      shared dst && shared src
  | OpReset a | OpResetPtr a _ | OpDestroy a => shared a
  | OpWeakCopyAssign dst src | OpWeakMoveAssign dst src | OpWeakSwap dst src =>
      weak dst && weak src
  | OpWeakReset a | OpWeakDestroy a => weak a
  end.

(** What [exec] may return from a consistent state: a consistent state, an
    exception that leaves the state as it was, or the refusal of an operation
    that is not well formed; never a use after free. *)
Definition exec_post (o : handle_op) (s : State) (r : outcome State unit) : Prop :=
  match r with
  | Ok _ s' => consistent s'
  | Raise _ s' => s' = s
  | Fault f s' => f = NoSuchObject ∧ s' = s ∧ well_formed o s = false
  end.

(** ** A payload that observes itself

    [struct Node { WeakPtr<Node> self; };]
    [{ SharedPtr<Node> s(new Node); s->self = s; }] *)
Definition self_observing_scope (node : Z) : M unit :=
  s ← SharedPtr_from_ptr node;
  w ← WeakPtr_from_shared s;
  if_block (control_block_ s) (λ b, payload_adopt b (HWeak w)) ;;
  SharedPtr_dtor s.

(** ** Payloads that own shared handles

    [struct Node { SharedPtr<Node> next; };] *)

(** A handle object of the client program comes into existence at [a]. *)
Definition declare (a : Z) (x : Handle) : SM unit := λ s,
  Ok tt (mkState (heap s) (<[a := x]> (handles s))).

(** [SharedPtr<Node> a(new Node);]  The payload has one handle member, which
    the constructor of [Node] leaves empty. *)
Definition new_node (a : Z) (node : Z) : SM unit :=
  x ← on_heap (SharedPtr_from_ptr node);
  on_heap (if_block (control_block_ x)
             (λ b, payload_adopt b (HShared SharedPtr_default))) ;;
  declare a (HShared x).

(** [p->next]: the handle member of the payload that the block of the handle
    object at [p] manages. *)
Definition next_of (p : place) : SM place :=
  x ← read_shared p;
  match control_block_ x with
  | Some b => mret (Member b 0)
  | None => λ s, Fault NoSuchObject s
  end.

(** [SharedPtr<Node> head(new Node);  SharedPtr<Node> tail(new Node);]
    [head->next = std::move(tail);]
    A list of two nodes: [head] is the only owner of the first node, whose
    member [next] is the only owner of the second. *)
Definition two_node_list (head tail : Z) (first second : Z) : SM unit :=
  new_node head first ;;
  new_node tail second ;;
  next ← next_of (Client head);
  SharedPtr_move_assign next (Client tail).

(** The state that program reaches with the handle objects [head] and [tail]
    at the addresses 1 and 2. *)
Definition two_nodes (first second : Z) : State :=
  mkState
    (mkHeap
       (<[1%nat := mkControlBlock 1 0 (PtrControlBlock second)
                     [HShared SharedPtr_default]]>
          {[0%nat := mkControlBlock 1 0 (PtrControlBlock first)
                       [HShared (mkSharedPtr second (Some 1%nat))]]})
       2 [])
    (<[2 := HShared SharedPtr_default]>
       {[1 := HShared (mkSharedPtr first (Some 0%nat))]}).

(** [head = head->next;] *)
Definition list_advance (head : Z) : SM unit :=
  next ← next_of (Client head);
  SharedPtr_copy_assign (Client head) next.

(** The same list when a weak handle [w], at address 3, observes the second
    node: [WeakPtr<Node> w(tail);] before [tail] is moved into the list. *)
Definition observed_two_nodes (first second : Z) : State :=
  mkState
    (mkHeap
       (<[1%nat := mkControlBlock 1 1 (PtrControlBlock second)
                     [HShared SharedPtr_default]]>
          {[0%nat := mkControlBlock 1 0 (PtrControlBlock first)
                       [HShared (mkSharedPtr second (Some 1%nat))]]})
       2 [])
    (<[3 := HWeak (mkWeakPtr second (Some 1%nat))]>
       (<[2 := HShared SharedPtr_default]>
          {[1 := HShared (mkSharedPtr first (Some 0%nat))]})).

(** [head = std::move(head->next);] *)
Definition list_pop (head : Z) : SM unit :=
  next ← next_of (Client head);
  SharedPtr_move_assign (Client head) next.

(** [SharedPtr<Node> a(new Node);  WeakPtr<Node> w(a);  a->next = std::move(a);]
    A node that is kept alive by its own member, observed by [w]. *)
Definition self_owning_node (a w : Z) (node : Z) : SM unit :=
  new_node a node ;;
  x ← read_shared (Client a);
  v ← on_heap (WeakPtr_from_shared x);
  declare w (HWeak v) ;;
  next ← next_of (Client a);
  SharedPtr_move_assign next (Client a).

(** The state that program reaches with the handle objects [a] and [w] at the
    addresses 1 and 2. *)
Definition self_owned (node : Z) : State :=
  mkState
    (mkHeap
       {[0%nat := mkControlBlock 1 1 (PtrControlBlock node)
                    [HShared (mkSharedPtr node (Some 0%nat))]]}
       1 [])
    (<[1 := HShared SharedPtr_default]>
       {[2 := HWeak (mkWeakPtr node (Some 0%nat))]}).

(** ** Counter traces of the two counting schemes *)

Inductive counter_op := Inc | Dec.

(** What a client sees after one counter operation: the counter value, or
    that the operation destroyed the managed object. *)
Inductive observation :=
  | Value (v : Z)
  | Destroyed.

Definition intrusive_step (o : counter_op) (c : Intrusive.SimpleCounter)
  : observation * Intrusive.SimpleCounter :=
  match o with
  | Inc =>
      let c' := Intrusive.RefCounted_IncRef c in
      (Value (Intrusive.RefCount c'), c')
  | Dec =>
      let r := Intrusive.RefCounted_DecRef c in
      (if r.1 then Destroyed else Value (Intrusive.RefCount r.2), r.2)
  end.

Fixpoint intrusive_trace (ops : list counter_op) (c : Intrusive.SimpleCounter)
  : list observation :=
  match ops with
  | [] => []
  | o :: rest =>
      let r := intrusive_step o c in r.1 :: intrusive_trace rest r.2
  end.

Definition core_step (o : counter_op) (b : nat) : M observation :=
  match o with
  | Inc => IncrementStrong b ;; v ← GetCount b; mret (Value v)
  | Dec =>
      λ h,
        match DecrementStrong b h with
        | Ok _ h' =>
            if (teardowns b h <? teardowns b h')%nat then Ok Destroyed h'
            else (v ← GetCount b; mret (Value v)) h'
        | Raise e h' => Raise e h'
        | Fault f h' => Fault f h'
        end
  end.

Fixpoint core_trace (ops : list counter_op) (b : nat) (h : Heap)
  : list observation :=
  match ops with
  | [] => []
  | o :: rest =>
      match core_step o b h with
      | Ok x h' => x :: core_trace rest b h'
      | _ => []
      end
  end.

(** The sequence stays within the lifetime of the counted object: every
    decrement meets a positive counter, and nothing follows the decrement
    that reaches zero. *)
Fixpoint within_lifetime (ops : list counter_op) (c : Z) : bool :=
  match ops with
  | [] => true
  | Inc :: rest => within_lifetime rest (wrap (c + 1))
  | Dec :: rest =>
      (0 <? c) &&
      (if c =? 1 then match rest with [] => true | _ => false end
       else within_lifetime rest (c - 1))
  end.

(** ** Statements about single handle operations *)

(** The handle's block, if it has one, is allocated below the allocation
    counter and manages a payload that owns no handles. *)
Definition owns_plain_block (block : option nat) (h : Heap) : Prop :=
  ∀ b, block = Some b →
       (b < next_block h)%nat ∧
       ∃ cb, blocks h !! b = Some cb ∧ payload_members cb = [].

(** The handle object at [p] exists and is a [SharedPtr] with the data
    members [x]. *)
Definition holds (p : place) (x : SharedPtr) (s : State) : Prop :=
  read_shared p s = Ok x s.

(** What is left of a block after one [DecrementStrong]: the members with the
    strong count decremented, or nothing when the block released itself. *)
Definition block_after_release (cb : ControlBlock) : option ControlBlock :=
  let r := wrap (ref_count_ cb - 1) in
  if (r =? 0) && (weak_count_ cb =? 0) then None
  else Some (set_ref_count r cb).

(** [Reset(ptr)] as the specification describes it: the current block loses
    one strong reference and, for a non-null [ptr], the handle is attached to
    a fresh [PtrControlBlock] around [ptr]. *)
Definition Reset_ptr_releases_and_attaches (this : place) (x : SharedPtr)
    (ptr : Z) (s : State) : Prop :=
  ∃ s', SharedPtr_Reset_ptr this ptr s = Ok tt s' ∧
    (∀ b cb, control_block_ x = Some b → blocks (heap s) !! b = Some cb →
             blocks (heap s') !! b = block_after_release cb) ∧
    (ptr ≠ nullptr →
       holds this (mkSharedPtr ptr (Some (next_block (heap s)))) s' ∧
       blocks (heap s') !! next_block (heap s) =
         Some (mkControlBlock 1 0 (PtrControlBlock ptr) [])).

(** Both counters of every block, as a client can observe them. *)
Definition counts (h : Heap) (b : nat) : option (Z * Z) :=
  (λ cb, (ref_count_ cb, weak_count_ cb)) <$> blocks h !! b.

(** Move assignment as the specification describes it: the pair moves over,
    the source is left empty, and no counter of any block changes. *)
Definition move_assign_touches_no_counter (this other : place) (y : SharedPtr)
    (s : State) : Prop :=
  ∃ s', SharedPtr_move_assign this other s = Ok tt s' ∧
        holds this y s' ∧ holds other SharedPtr_default s' ∧
        ∀ b, counts (heap s') b = counts (heap s) b.

(** The heap right after [new PtrControlBlock<T>(ptr)] in an empty program. *)
Definition heap_with_new_block (ptr : Z) : Heap :=
  mkHeap {[ 0%nat := mkControlBlock 1 0 (PtrControlBlock ptr) [] ]} 1 [].

(** The intrusive counter and the strong counter of a control block, each
    started in its initial state, show the same observations. *)
Definition same_counting_from_initial_states (ops : list counter_op) : Prop :=
  core_trace ops 0 (heap_with_new_block 100) = intrusive_trace ops Intrusive.initial.

(** ** Further observations on heaps *)

(** The heap an outcome leaves behind, whichever way the computation ended. *)
Definition heap_left {A} (r : outcome Heap A) : Heap :=
  match r with
  | Ok _ h => h
  | Raise _ h => h
  | Fault _ h => h
  end.

(** The computation has ended within the nesting bound of
    [DecrementStrong_within], and at most [n] payloads still own handles. *)
Definition settles {A} (n : nat) (r : outcome Heap A) : Prop :=
  (∀ h', r ≠ Fault TooDeep h') ∧ (laden (heap_left r) ≤ n)%nat.

(** Between [h] and [h'] no teardown hook has run and no block that is still
    allocated has a different strong count. *)
Definition strong_side_unchanged (h h' : Heap) : Prop :=
  (∀ b, teardowns b h' = teardowns b h) ∧
  (∀ b cb', blocks h' !! b = Some cb' →
            ∃ cb, blocks h !! b = Some cb ∧ ref_count_ cb' = ref_count_ cb).

(** What is left of a block after one [DecrementWeak]: the members with the
    weak count decremented, or nothing when the block released itself. *)
Definition block_after_weak_release (cb : ControlBlock) : option ControlBlock :=
  let w := wrap (weak_count_ cb - 1) in
  if (w =? 0) && (ref_count_ cb =? 0) then None
  else Some (set_weak_count w cb).

(** The events of the heap only ever get appended to. *)
Definition log_grows (h h' : Heap) : Prop := log h `prefix_of` log h'.

(** The state an outcome of [exec] leaves behind. *)
Definition state_left (r : outcome State unit) : State :=
  match r with
  | Ok _ s => s
  | Raise _ s => s
  | Fault _ s => s
  end.

(** A heap computation that leaves the strong side alone, however it ends. *)
Definition weak_only {A} (m : M A) : Prop :=
  ∀ h, strong_side_unchanged h (heap_left (m h)).

(** A heap computation that only ever appends to the event log. *)
Definition appends_only {A} (m : M A) : Prop :=
  ∀ h, log_grows h (heap_left (m h)).

(** The state an outcome leaves behind, whichever way the computation ended. *)
Definition state_after {A} (r : outcome State A) : State :=
  match r with
  | Ok _ s => s
  | Raise _ s => s
  | Fault _ s => s
  end.

(** The same for an operation that takes handle objects by reference. *)
Definition appends_only_by_ref {A} (m : SM A) : Prop :=
  ∀ s, log_grows (heap s) (heap (state_after (m s))).

(** ** [IntrusivePtr<T>] over objects that embed a [SimpleCounter]

    The pointee type derives from [SimpleRefCounted<T>], that is
    [RefCounted<T, SimpleCounter, DefaultDelete>]; of an object the model
    keeps its counter.  [DefaultDelete::Destroy] deletes the object, and an
    access to a deleted object ends the computation.

    This module has the object store and the operations that look at a
    handle before anything is released: the constructors, the destructor and
    the observers, with the handles as values.  The pointees here own no
    handles; pointees that do, and the assignment operators and [Reset],
    which take the handle objects by reference, follow in [IntrusiveRef]. *)
Module IntrusivePtr.

(** The live objects by address, and the addresses [Destroy] was called on. *)
Record Store := mkStore {
  objects : gmap Z Intrusive.SimpleCounter;
  destroyed : list Z
}.

(** Computations over the store; [None] is an access to a deleted object. *)
Definition IM (A : Type) : Type := Store → option (A * Store).

#[global] Instance IM_ret : MRet IM := λ A a st, Some (a, st).

#[global] Instance IM_bind : MBind IM := λ A B f m st,
  match m st with
  | Some (a, st') => f a st'
  | None => None
  end.

(** Call a method of the counter embedded in the object at [p]. *)
Definition with_counter {A} (p : Z)
    (method : Intrusive.SimpleCounter → A * Intrusive.SimpleCounter) : IM A :=
  λ st,
    match objects st !! p with
    | Some c =>
        let r := method c in
        Some (r.1, mkStore (<[p := r.2]> (objects st)) (destroyed st))
    | None => None
    end.

(** [DefaultDelete::Destroy(object)]: [delete object;] *)
Definition Destroy (p : Z) : IM unit := λ st,
  match objects st !! p with
  | Some _ => Some (tt, mkStore (delete p (objects st)) (destroyed st ++ [p]))
  | None => None
  end.

(** [RefCounted::IncRef] of the object at [p] *)
Definition IncRef (p : Z) : IM unit :=
  with_counter p (λ c, (tt, Intrusive.RefCounted_IncRef c)).

(** [RefCounted::DecRef] of the object at [p] *)
Definition DecRef (p : Z) : IM unit :=
  gone ← with_counter p Intrusive.RefCounted_DecRef;
  if (gone : bool) then Destroy p else mret tt.

(** [RefCounted::RefCount] of the object at [p] *)
Definition RefCount (p : Z) : IM Z :=
  with_counter p (λ c, (Intrusive.RefCount c, c)).

(** [new T(args...)] returning address [p]: a new object, counter at 0. *)
Definition new_object (p : Z) : IM Z := λ st,
  Some (p, mkStore (<[p := Intrusive.initial]> (objects st)) (destroyed st)).

(** The handle: its only member is [T* data_ptr_]. *)
Record t := mk { data_ptr_ : Z }.

(** The idiom [if (ptr) { ptr->Method(); }]. *)
Definition if_object (p : Z) (method : Z → IM unit) : IM unit :=
  if p =? nullptr then mret tt else method p.

(** [IntrusivePtr()] and [IntrusivePtr(std::nullptr_t)] *)
Definition default : t := mk nullptr.

(** [IntrusivePtr(T* data_ptr)] *)
Definition from_ptr (data_ptr : Z) : IM t :=
  if_object data_ptr IncRef ;; mret (mk data_ptr).

(** [IntrusivePtr(const IntrusivePtr& other)] *)
Definition copy (other : t) : IM t :=
  if_object (data_ptr_ other) IncRef ;; mret (mk (data_ptr_ other)).

(** [IntrusivePtr(IntrusivePtr&& other)]: the new handle and [other] afterwards. *)
Definition move (other : t) : t * t := (mk (data_ptr_ other), mk nullptr).

(** [~IntrusivePtr()] *)
Definition dtor (this : t) : IM unit := if_object (data_ptr_ this) DecRef.

(** [void Swap(IntrusivePtr& other)] *)
Definition Swap (this other : t) : t * t :=
  (mk (data_ptr_ other), mk (data_ptr_ this)).

(** [T* Get() const] *)
Definition Get (this : t) : Z := data_ptr_ this.

(** [return data_ptr_ ? data_ptr_->RefCount() : 0;] *)
Definition UseCount (this : t) : IM Z :=
  if data_ptr_ this =? nullptr then mret 0 else RefCount (data_ptr_ this).

(** [explicit operator bool()] *)
Definition to_bool (this : t) : bool := negb (data_ptr_ this =? nullptr).

(** [MakeIntrusive<T>(args...)]; [p] is the address [new] returns. *)
Definition MakeIntrusive (p : Z) : IM t :=
  q ← new_object p; from_ptr q.

(** What is left of an object after one [DecRef]: the counter one lower, or
    nothing when that was the last reference (or the counter was already 0). *)
Definition object_after_DecRef (c : Intrusive.SimpleCounter)
  : option Intrusive.SimpleCounter :=
  if Intrusive.count_ c <=? 1 then None
  else Some (Intrusive.mkSimpleCounter (Intrusive.count_ c - 1)).

End IntrusivePtr.

(** ** Intrusive handle objects by reference, and pointees that own handles

    [struct Node : SimpleRefCounted<Node> { IntrusivePtr<Node> next; };]
    The assignment operators and [Reset] take the handle objects by
    reference: they release the object the destination points to first, and
    read [other], and write [*this], after that.  [delete object] runs the
    destructor of the pointee, which destroys the handle members of the
    pointee, and these release the objects they point to in turn. *)
Module IntrusiveRef.

(** The object store, the handle members of the live objects (by the address
    of the object, in the order in which the destructor destroys them), and
    the handle objects of the client program by their addresses. *)
Record State := mkState {
  store : IntrusivePtr.Store;
  members : gmap Z (list IntrusivePtr.t);
  handles : gmap Z IntrusivePtr.t
}.

(** What ends a computation. *)
Inductive halt :=
  | DeletedObject (p : Z)    (* a method is called on the deleted object at [p] *)
  | DestroyedHandle (p : Z)  (* a handle member of the deleted object at [p] is accessed *)
  | NoHandle                 (* no handle object lives at the address named *)
  | Nesting.                 (* the bound of [DecRef_within] is reached *)

Inductive result (A : Type) :=
  | Done (a : A) (s : State)
  | Halt (f : halt) (s : State).

Arguments Done {A} a s.
Arguments Halt {A} f s.

Definition RM (A : Type) : Type := State → result A.

#[global] Instance RM_ret : MRet RM := λ A a s, Done a s.

#[global] Instance RM_bind : MBind RM := λ A B f m s,
  match m s with
  | Done a s' => f a s'
  | Halt x s' => Halt x s'
  end.

(** A method of the object at [p], which leaves the handle objects alone. *)
Definition on_object {A} (p : Z) (m : IntrusivePtr.IM A) : RM A := λ s,
  match m (store s) with
  | Some (a, st) => Done a (mkState st (members s) (handles s))
  | None => Halt (DeletedObject p) s
  end.

(** The handle members of the object at [p], while that object exists. *)
Definition members_of (p : Z) (s : State) : list IntrusivePtr.t :=
  match members s !! p with
  | Some ms => ms
  | None => []
  end.

(** The destructor of the object at [p] takes its handle members with it. *)
Definition take_members (p : Z) : RM (list IntrusivePtr.t) := λ s,
  Done (members_of p s) (mkState (store s) (delete p (members s)) (handles s)).

Fixpoint for_each {A} (f : A → RM unit) (l : list A) : RM unit :=
  match l with
  | [] => mret tt
  | x :: l' => f x ;; for_each f l'
  end.

(** The idiom [if (ptr) { ptr->Method(); }]. *)
Definition if_object (p : Z) (method : Z → RM unit) : RM unit :=
  if p =? nullptr then mret tt else method p.

(** [~IntrusivePtr()] of a handle member, [release] being [DecRef]. *)
Definition destroy_member (release : Z → RM unit) (x : IntrusivePtr.t) : RM unit :=
  if_object (IntrusivePtr.data_ptr_ x) release.

(** [DefaultDelete::Destroy(object)]: [delete object;] runs the destructor,
    which destroys the handle members of the object, and then frees the
    object; the store records the object as destroyed when it is freed. *)
Definition Destroy (release : Z → RM unit) (p : Z) : RM unit :=
  ms ← take_members p;
  for_each (destroy_member release) ms ;;
  on_object p (IntrusivePtr.Destroy p).

(** [RefCounted::DecRef] of the object at [p], with at most [depth] calls
    nested in one another. *)
Fixpoint DecRef_within (depth : nat) (p : Z) : RM unit :=
  match depth with
  | O => λ s, Halt Nesting s
  | S depth' =>
      gone ← on_object p (IntrusivePtr.with_counter p Intrusive.RefCounted_DecRef);
      if (gone : bool) then Destroy (DecRef_within depth') p else mret tt
  end.

Definition has_members (ms : list IntrusivePtr.t) : bool :=
  match ms with
  | [] => false
  | _ :: _ => true
  end.

(** Number of objects that own handles. *)
Definition laden (s : State) : nat :=
  size (filter (λ kv, Is_true (has_members kv.2)) (members s)).

(** [RefCounted::DecRef] of the object at [p].  A destructor that runs has
    taken the handle members of its object, so a nested call that destroys
    another object finds one object fewer that owns handles: the calls nest
    no deeper than [laden s + 1]. *)
Definition DecRef (p : Z) : RM unit := λ s, DecRef_within (S (laden s)) p s.

(** [RefCounted::IncRef] of the object at [p] *)
Definition IncRef (p : Z) : RM unit := on_object p (IntrusivePtr.IncRef p).

(** Where a handle object lives: in the client program at address [a], or in
    the object at [p], as its [i]-th handle member. *)
Inductive place :=
  | Client (a : Z)
  | Member (p : Z) (i : nat).

#[global] Instance intrusive_place_eq_dec : EqDecision place.
Proof. solve_decision. Defined.

(** Read [data_ptr_] of the handle object at [pl].  A member of an object
    can be read only while the object exists. *)
Definition read (pl : place) : RM IntrusivePtr.t := λ s,
  match pl with
  | Client a =>
      match handles s !! a with
      | Some x => Done x s
      | None => Halt NoHandle s
      end
  | Member p i =>
      match members_of p s !! i with
      | Some x => Done x s
      | None => Halt (DestroyedHandle p) s
      end
  end.

(** Assign to [data_ptr_] of the handle object at [pl]. *)
Definition write (pl : place) (x : IntrusivePtr.t) : RM unit := λ s,
  match pl with
  | Client a =>
      match handles s !! a with
      | Some _ => Done tt (mkState (store s) (members s) (<[a := x]> (handles s)))
      | None => Halt NoHandle s
      end
  | Member p i =>
      match members_of p s !! i with
      | Some _ =>
          Done tt (mkState (store s)
                           (<[p := <[i := x]> (members_of p s)]> (members s))
                           (handles s))
      | None => Halt (DestroyedHandle p) s
      end
  end.

(** [operator=(const IntrusivePtr& other)] *)
Definition copy_assign (this other : place) : RM unit :=
  if decide (other = this) then mret tt
  else
    x ← read this;
    if_object (IntrusivePtr.data_ptr_ x) DecRef ;;
    y ← read other;
    write this (IntrusivePtr.mk (IntrusivePtr.data_ptr_ y)) ;;
    x' ← read this;
    if_object (IntrusivePtr.data_ptr_ x') IncRef.

(** [operator=(IntrusivePtr&& other)] *)
Definition move_assign (this other : place) : RM unit :=
  if decide (other = this) then mret tt
  else
    x ← read this;
    if_object (IntrusivePtr.data_ptr_ x) DecRef ;;
    y ← read other;
    write this (IntrusivePtr.mk (IntrusivePtr.data_ptr_ y)) ;;
    write other (IntrusivePtr.mk nullptr).

(** [void Reset()] *)
Definition Reset (this : place) : RM unit :=
  x ← read this;
  if IntrusivePtr.data_ptr_ x =? nullptr then mret tt
  else
    DecRef (IntrusivePtr.data_ptr_ x) ;;
    write this (IntrusivePtr.mk nullptr).

(** [void Reset(T* new_ptr)] *)
Definition Reset_ptr (this : place) (new_ptr : Z) : RM unit :=
  x ← read this;
  if IntrusivePtr.data_ptr_ x =? new_ptr then mret tt
  else
    if_object (IntrusivePtr.data_ptr_ x) DecRef ;;
    write this (IntrusivePtr.mk new_ptr) ;;
    x' ← read this;
    if_object (IntrusivePtr.data_ptr_ x') IncRef.

(** A handle object of the client program comes into existence at [a], and
    goes out of existence. *)
Definition declare (a : Z) (x : IntrusivePtr.t) : RM unit := λ s,
  Done tt (mkState (store s) (members s) (<[a := x]> (handles s))).

Definition forget (a : Z) : RM unit := λ s,
  Done tt (mkState (store s) (members s) (delete a (handles s))).

(** [IntrusivePtr(T* data_ptr)], for the new handle object at [dst] *)
Definition from_ptr (dst : Z) (data_ptr : Z) : RM unit :=
  declare dst (IntrusivePtr.mk data_ptr) ;;
  if_object data_ptr IncRef.

(** [IntrusivePtr(const IntrusivePtr& other)], for the new handle object at
    [dst] *)
Definition copy (dst : Z) (other : place) : RM unit :=
  y ← read other;
  declare dst (IntrusivePtr.mk (IntrusivePtr.data_ptr_ y)) ;;
  if_object (IntrusivePtr.data_ptr_ y) IncRef.

(** [IntrusivePtr(IntrusivePtr&& other)], for the new handle object at [dst] *)
Definition move (dst : Z) (other : place) : RM unit :=
  y ← read other;
  declare dst (IntrusivePtr.mk (IntrusivePtr.data_ptr_ y)) ;;
  write other (IntrusivePtr.mk nullptr).

(** [~IntrusivePtr()] of the client's handle object at [a] *)
Definition dtor (a : Z) : RM unit :=
  x ← read (Client a);
  if_object (IntrusivePtr.data_ptr_ x) DecRef ;;
  forget a.

(** [void Swap(IntrusivePtr& other)] *)
Definition Swap (this other : place) : RM unit :=
  x ← read this;
  y ← read other;
  write this (IntrusivePtr.mk (IntrusivePtr.data_ptr_ y)) ;;
  write other (IntrusivePtr.mk (IntrusivePtr.data_ptr_ x)).

(** [auto a = MakeIntrusive<T>();] for a pointee type without handle
    members, the object being at [p] *)
Definition MakeIntrusive (a : Z) (p : Z) : RM unit :=
  q ← on_object p (IntrusivePtr.new_object p);
  from_ptr a q.

(** [new Node] at address [p]: a new object, counter at 0, whose one handle
    member the constructor leaves null. *)
Definition new_node (p : Z) : RM unit := λ s,
  Done tt (mkState (IntrusivePtr.mkStore
                      (<[p := Intrusive.initial]> (IntrusivePtr.objects (store s)))
                      (IntrusivePtr.destroyed (store s)))
                   (<[p := [IntrusivePtr.default]]> (members s))
                   (handles s)).

(** [auto a = MakeIntrusive<Node>();], the object being at [p] *)
Definition MakeIntrusive_node (a : Z) (p : Z) : RM unit :=
  new_node p ;; from_ptr a p.

(** [x->next], for the handle object at [pl] *)
Definition next_of (pl : place) : RM place :=
  x ← read pl;
  if negb (IntrusivePtr.data_ptr_ x =? nullptr)
  then mret (Member (IntrusivePtr.data_ptr_ x) 0)
  else λ s, Halt NoHandle s.

(** [auto head = MakeIntrusive<Node>();  auto tail = MakeIntrusive<Node>();]
    [head->next = std::move(tail);]
    A list of two nodes, with the handle objects [head] and [tail] at the
    addresses 1 and 2: [head] is the only handle on the first node, whose
    member [next] is the only handle on the second. *)
Definition two_node_list (first second : Z) : RM unit :=
  MakeIntrusive_node 1 first ;;
  MakeIntrusive_node 2 second ;;
  next ← next_of (Client 1);
  move_assign next (Client 2).

(** The state that program reaches from the empty one. *)
Definition two_nodes (first second : Z) : State :=
  mkState
    (IntrusivePtr.mkStore
       (<[second := Intrusive.mkSimpleCounter 1]>
          {[first := Intrusive.mkSimpleCounter 1]})
       [])
    (<[second := [IntrusivePtr.default]]>
       {[first := [IntrusivePtr.mk second]]})
    (<[2 := IntrusivePtr.default]> {[1 := IntrusivePtr.mk first]}).

(** The handle object at [pl] holds [x]. *)
Definition holds (pl : place) (x : IntrusivePtr.t) (s : State) : Prop :=
  read pl s = Done x s.

(** The state a computation leaves behind, whichever way it ended. *)
Definition state_after {A} (r : result A) : State :=
  match r with
  | Done _ s => s
  | Halt _ s => s
  end.

(** The computation has ended within the nesting bound of [DecRef_within],
    and at most [n] objects still own handles. *)
Definition settles {A} (n : nat) (r : result A) : Prop :=
  (∀ s', r ≠ Halt Nesting s') ∧ (laden (state_after r) ≤ n)%nat.

End IntrusiveRef.

(** ** Programs over named intrusive handles

    As for the shared handles: programs of operations on the handle objects
    of the client program, which are named by their addresses.  The pointees
    of these programs own no handles. *)
Module IntrusiveProgram.

Definition init : IntrusiveRef.State :=
  IntrusiveRef.mkState (IntrusivePtr.mkStore ∅ []) ∅ ∅.

Inductive op :=
  | OpDefault (dst : Z)             (* IntrusivePtr<T> dst; *)
  | OpMake (dst : Z) (p : Z)        (* auto dst = MakeIntrusive<T>(); the object is at p *)
  | OpCopy (dst src : Z)            (* IntrusivePtr<T> dst(src); *)
  | OpFromGet (dst src : Z)         (* IntrusivePtr<T> dst(src.Get()); *)
  | OpMove (dst src : Z)            (* IntrusivePtr<T> dst(std::move(src)); *)
  | OpCopyAssign (dst src : Z)      (* dst = src; *)
  | OpMoveAssign (dst src : Z)      (* dst = std::move(src); *)
  | OpReset (a : Z)                 (* a.Reset(); *)
  | OpResetGet (a src : Z)          (* a.Reset(src.Get()); *)
  | OpSwap (a b : Z)                (* a.Swap(b); *)
  | OpDestroy (a : Z).              (* a goes out of scope *)

(** A handle object can be created at [a]: a non-null address of pointer
    width at which no handle object lives. *)
Definition vacant (a : Z) (s : IntrusiveRef.State) : bool :=
  addr_ok a && bool_decide (IntrusiveRef.handles s !! a = None).

(** A handle object lives at [a]. *)
Definition named (a : Z) (s : IntrusiveRef.State) : bool :=
  bool_decide (is_Some (IntrusiveRef.handles s !! a)).

(** [new] can return [p]: non-null, and no live object is there. *)
Definition fresh (p : Z) (s : IntrusiveRef.State) : bool :=
  negb (p =? nullptr) &&
  bool_decide (IntrusivePtr.objects (IntrusiveRef.store s) !! p = None).

(** The operation names a handle object that does not exist, or an address
    that is taken. *)
Definition ill_formed : IntrusiveRef.RM unit :=
  λ s, IntrusiveRef.Halt IntrusiveRef.NoHandle s.

(** One operation. *)
Definition exec (o : op) : IntrusiveRef.RM unit := λ s,
  match o with
  | OpDefault dst =>
      if vacant dst s then IntrusiveRef.declare dst IntrusivePtr.default s
      else ill_formed s
  | OpMake dst p =>
      if vacant dst s && fresh p s then IntrusiveRef.MakeIntrusive dst p s
      else ill_formed s
  | OpCopy dst src =>
      if vacant dst s && named src s
      then IntrusiveRef.copy dst (IntrusiveRef.Client src) s
      else ill_formed s
  | OpFromGet dst src =>
      if vacant dst s && named src s
      then (other ← IntrusiveRef.read (IntrusiveRef.Client src);
            IntrusiveRef.from_ptr dst (IntrusivePtr.Get other)) s
      else ill_formed s
  | OpMove dst src =>
      if vacant dst s && named src s
      then IntrusiveRef.move dst (IntrusiveRef.Client src) s
      else ill_formed s
  | OpCopyAssign dst src =>
      if named dst s && named src s
      then IntrusiveRef.copy_assign (IntrusiveRef.Client dst) (IntrusiveRef.Client src) s
      else ill_formed s
  | OpMoveAssign dst src =>
      if named dst s && named src s
      then IntrusiveRef.move_assign (IntrusiveRef.Client dst) (IntrusiveRef.Client src) s
      else ill_formed s
  | OpReset a =>
      if named a s then IntrusiveRef.Reset (IntrusiveRef.Client a) s
      else ill_formed s
  | OpResetGet a src =>
      if named a s && named src s
      then (other ← IntrusiveRef.read (IntrusiveRef.Client src);
            IntrusiveRef.Reset_ptr (IntrusiveRef.Client a) (IntrusivePtr.Get other)) s
      else ill_formed s
  | OpSwap a b =>
      if named a s && named b s
      then IntrusiveRef.Swap (IntrusiveRef.Client a) (IntrusiveRef.Client b) s
      else ill_formed s
  | OpDestroy a =>
      if named a s then IntrusiveRef.dtor a s
      else ill_formed s
  end.

Fixpoint run (ops : list op) (s : IntrusiveRef.State) : option IntrusiveRef.State :=
  match ops with
  | [] => Some s
  | o :: rest =>
      match exec o s with
      | IntrusiveRef.Done _ s' => run rest s'
      | IntrusiveRef.Halt _ _ => None
      end
  end.

(** The operation names handle objects that exist, a free address for the
    handle object it creates, and for [OpMake] an address [new] can return. *)
Definition well_formed (o : op) (s : IntrusiveRef.State) : bool :=
  match o with
  | OpDefault dst => vacant dst s
  | OpMake dst p => vacant dst s && fresh p s
  | OpCopy dst src | OpFromGet dst src | OpMove dst src => vacant dst s && named src s
  | OpCopyAssign dst src | OpMoveAssign dst src | OpResetGet dst src | OpSwap dst src =>
      named dst s && named src s
  | OpReset a | OpDestroy a => named a s
  end.

(** Number of handle objects that point to the object at [p]. *)
Definition sharers (p : Z) (hs : gmap Z IntrusivePtr.t) : nat :=
  size (filter (λ kv, IntrusivePtr.data_ptr_ kv.2 = p) hs).

(** How often the object at address [p] has been destroyed, and how often a
    program allocates an object there. *)
Definition destroys (p : Z) (st : IntrusivePtr.Store) : nat :=
  length (filter (λ q, q = p) (IntrusivePtr.destroyed st)).

Definition allocates (p : Z) (o : op) : nat :=
  match o with
  | OpMake _ q => if decide (q = p) then 1 else 0
  | _ => 0
  end.

Definition allocations (p : Z) (ops : list op) : nat :=
  sum_list_with (allocates p) ops.

(** The object at [p] when [n] handles point to it and [m] objects have been
    allocated there. *)
Definition object_inv (st : IntrusivePtr.Store) (p : Z) (n m : nat) : Prop :=
  match IntrusivePtr.objects st !! p with
  | Some c => Intrusive.count_ c = Z.of_nat n ∧ (0 < n)%nat ∧ S (destroys p st) = m
  | None => n = 0%nat ∧ destroys p st = m
  end.

Definition consistent (ops : list op) (s : IntrusiveRef.State) : Prop :=
  (∀ a x, IntrusiveRef.handles s !! a = Some x → addr_ok a = true) ∧
  IntrusivePtr.objects (IntrusiveRef.store s) !! nullptr = None ∧
  IntrusiveRef.members s = ∅ ∧
  (∀ p, p ≠ nullptr →
     object_inv (IntrusiveRef.store s) p (sharers p (IntrusiveRef.handles s))
                (allocations p ops)).

End IntrusiveProgram.

(** * Proofs *)

(** ** Arithmetic of [size_t] *)

Lemma SIZE_MOD_eq : SIZE_MOD = 18446744073709551616.
Proof. reflexivity. Qed.

Lemma SIZE_MOD_gt_1 : 1 < SIZE_MOD.
Proof. rewrite SIZE_MOD_eq. lia. Qed.

Lemma wrap_small z : 0 ≤ z < SIZE_MOD → wrap z = z.
Proof. intros H. unfold wrap. apply Z.mod_small. exact H. Qed.

Lemma wrap_range z : 0 ≤ wrap z < SIZE_MOD.
Proof. unfold wrap. apply Z.mod_pos_bound. pose proof SIZE_MOD_gt_1. lia. Qed.

Lemma wrap_pred_zero : wrap (0 - 1) = SIZE_MAX.
Proof. reflexivity. Qed.

Lemma wrap_succ_max : wrap (SIZE_MAX + 1) = 0.
Proof. reflexivity. Qed.

Lemma wrap_pred_eq_0 z : 0 ≤ z < SIZE_MOD → (wrap (z - 1) =? 0) = (z =? 1).
Proof.
  intros Hz. destruct (Z.eq_dec z 0) as [->|Hnz].
  - reflexivity.
  - rewrite wrap_small by lia.
    destruct (Z.eqb_spec (z - 1) 0), (Z.eqb_spec z 1); lia || reflexivity.
Qed.

Global Opaque SIZE_MOD.

(** ** Equations of the heap monad *)

Lemma bind_Ok {A B} (m : M A) (f : A → M B) h a h' :
  m h = Ok a h' → (m ≫= f) h = f a h'.
Proof. intros H. unfold mbind, M_bind. rewrite H. reflexivity. Qed.

Lemma load_Some b h cb : blocks h !! b = Some cb → load b h = Ok cb h.
Proof. intros H. unfold load. rewrite H. reflexivity. Qed.

Lemma store_Some b h cb cb' :
  blocks h !! b = Some cb →
  store b cb' h = Ok tt (mkHeap (<[b := cb']> (blocks h)) (next_block h) (log h)).
Proof. intros H. unfold store. rewrite H. reflexivity. Qed.

Lemma delete_this_Some b h cb :
  blocks h !! b = Some cb →
  delete_this b h =
    Ok tt (mkHeap (delete b (blocks h)) (next_block h) (log h ++ [EvDeleteThis b])).
Proof. intros H. unfold delete_this. rewrite H. reflexivity. Qed.

Lemma GetCount_Some b h cb :
  blocks h !! b = Some cb → GetCount b h = Ok (ref_count_ cb) h.
Proof.
  intros H. unfold GetCount. rewrite (bind_Ok _ _ _ _ _ (load_Some _ _ _ H)).
  reflexivity.
Qed.

Lemma IncrementStrong_Some b h cb :
  blocks h !! b = Some cb →
  IncrementStrong b h =
    Ok tt (mkHeap (<[b := set_ref_count (wrap (ref_count_ cb + 1)) cb]> (blocks h))
                  (next_block h) (log h)).
Proof.
  intros H. unfold IncrementStrong.
  rewrite (bind_Ok _ _ _ _ _ (load_Some _ _ _ H)).
  apply (store_Some _ _ _ _ H).
Qed.

Lemma IncrementWeak_Some b h cb :
  blocks h !! b = Some cb →
  IncrementWeak b h =
    Ok tt (mkHeap (<[b := set_weak_count (wrap (weak_count_ cb + 1)) cb]> (blocks h))
                  (next_block h) (log h)).
Proof.
  intros H. unfold IncrementWeak.
  rewrite (bind_Ok _ _ _ _ _ (load_Some _ _ _ H)).
  apply (store_Some _ _ _ _ H).
Qed.

Lemma DecrementWeak_Some b h cb :
  blocks h !! b = Some cb →
  DecrementWeak b h = Ok tt (heap_after_DecrementWeak b cb h).
Proof.
  intros H. unfold DecrementWeak, heap_after_DecrementWeak.
  rewrite (bind_Ok _ _ _ _ _ (load_Some _ _ _ H)). cbv zeta.
  rewrite (bind_Ok _ _ _ _ _ (store_Some _ _ _ _ H)).
  destruct ((wrap (weak_count_ cb - 1) =? 0) && (ref_count_ cb =? 0)).
  - unfold delete_this; cbn. rewrite lookup_insert_eq. reflexivity.
  - reflexivity.
Qed.

Lemma set_payload_members_same cb :
  set_payload_members (payload_members cb) cb = cb.
Proof. destruct cb; reflexivity. Qed.

Lemma DecrementStrong_within_plain depth b h cb :
  blocks h !! b = Some cb → payload_members cb = [] →
  DecrementStrong_within (S depth) b h = Ok tt (heap_after_DecrementStrong b cb h).
Proof.
  intros H Hp. unfold heap_after_DecrementStrong. cbn [DecrementStrong_within].
  rewrite (bind_Ok _ _ _ _ _ (load_Some _ _ _ H)). cbv zeta.
  rewrite (bind_Ok _ _ _ _ _ (store_Some _ _ _ _ H)).
  destruct (wrap (ref_count_ cb - 1) =? 0); [|reflexivity].
  unfold OnZeroReferences, mbind, M_bind, load, store, emit, delete_this; cbn.
  rewrite lookup_insert_eq; cbn. rewrite lookup_insert_eq; cbn.
  rewrite Hp; cbn. rewrite lookup_insert_eq; cbn.
  rewrite !insert_insert_eq.
  replace (set_payload_members [] (set_ref_count (wrap (ref_count_ cb - 1)) cb))
    with (set_ref_count (wrap (ref_count_ cb - 1)) cb)
    by (destruct cb; cbn in Hp; subst; reflexivity).
  destruct (weak_count_ cb =? 0); cbn; [|reflexivity].
  rewrite lookup_insert_eq. reflexivity.
Qed.

Lemma DecrementStrong_Some b h cb :
  blocks h !! b = Some cb → payload_members cb = [] →
  DecrementStrong b h = Ok tt (heap_after_DecrementStrong b cb h).
Proof. intros H Hp. apply (DecrementStrong_within_plain _ _ _ _ H Hp). Qed.

(** ** The chain of destructor calls ends *)

Lemma laden_store b cb cb' h n l :
  blocks h !! b = Some cb →
  (has_members cb' = true → has_members cb = true) →
  (laden (mkHeap (<[b := cb']> (blocks h)) n l) ≤ laden h)%nat.
Proof.
  intros Hcb Himp. unfold laden; cbn [blocks].
  destruct (has_members cb') eqn:E.
  - rewrite map_filter_insert_True by (cbn; rewrite E; exact I).
    rewrite map_size_insert_Some; [reflexivity|].
    exists cb. apply map_lookup_filter_Some. split; [exact Hcb|].
    cbn. rewrite (Himp eq_refl). exact I.
  - rewrite map_filter_insert_False by (cbn; rewrite E; intros []).
    rewrite map_filter_delete.
    apply map_subseteq_size, delete_subseteq.
Qed.

Lemma laden_clear b cb cb' h n l :
  blocks h !! b = Some cb → has_members cb = true → has_members cb' = false →
  (laden (mkHeap (<[b := cb']> (blocks h)) n l) < laden h)%nat.
Proof.
  intros Hcb Hold Hnew. unfold laden; cbn [blocks].
  rewrite map_filter_insert_False by (cbn; rewrite Hnew; intros []).
  rewrite map_filter_delete.
  set (m := filter _ (blocks h)).
  assert (Hm : m !! b = Some cb).
  { apply map_lookup_filter_Some. split; [exact Hcb|]. cbn. rewrite Hold. exact I. }
  rewrite <- (insert_id m b cb Hm) at 2. rewrite <- insert_delete_eq.
  rewrite map_size_insert_None by apply lookup_delete_eq. lia.
Qed.

Lemma laden_delete b h n l :
  (laden (mkHeap (delete b (blocks h)) n l) ≤ laden h)%nat.
Proof.
  unfold laden; cbn [blocks]. rewrite map_filter_delete.
  apply map_subseteq_size, delete_subseteq.
Qed.

Lemma settles_mono {A} n n' (r : outcome Heap A) :
  (n ≤ n')%nat → settles n r → settles n' r.
Proof. intros Hle [H1 H2]. split; [exact H1|lia]. Qed.

Lemma settles_bind {A B} n (m : M A) (f : A → M B) h :
  settles n (m h) → (∀ a h1, m h = Ok a h1 → settles n (f a h1)) →
  settles n ((m ≫= f) h).
Proof.
  intros [Hm1 Hm2] Hf. unfold mbind, M_bind.
  destruct (m h) as [a h1|e h1|x h1] eqn:E.
  - apply (Hf a h1 eq_refl).
  - split; [discriminate|exact Hm2].
  - split; [|exact Hm2].
    intros h' [= -> ->]. apply (Hm1 h'). reflexivity.
Qed.

Lemma settles_Ok {A} n (a : A) h : (laden h ≤ n)%nat → settles n (Ok a h).
Proof. intros H. split; [discriminate|exact H]. Qed.

Lemma DecrementWeak_settles b h : settles (laden h) (DecrementWeak b h).
Proof.
  destruct (blocks h !! b) as [cb|] eqn:Hcb.
  - rewrite (DecrementWeak_Some _ _ _ Hcb). apply settles_Ok.
    unfold heap_after_DecrementWeak.
    destruct ((wrap (weak_count_ cb - 1) =? 0) && (ref_count_ cb =? 0)).
    + rewrite delete_insert_eq. apply laden_delete.
    + apply (laden_store _ _ _ _ _ _ Hcb). intros H. exact H.
  - unfold DecrementWeak, mbind, M_bind, load. rewrite Hcb.
    split; [discriminate|reflexivity].
Qed.

(** One level of [DecrementStrong] on an allocated block. *)
Lemma DecrementStrong_within_unfold depth b h cb :
  blocks h !! b = Some cb →
  DecrementStrong_within (S depth) b h =
    if wrap (ref_count_ cb - 1) =? 0 then
      match for_each (destroy_member (DecrementStrong_within depth))
                     (payload_members cb)
                     (mkHeap (<[b := set_payload_members []
                                       (set_ref_count (wrap (ref_count_ cb - 1)) cb)]>
                                (blocks h))
                             (next_block h) (log h ++ [EvOnZeroReferences b])) with
      | Ok _ h3 =>
          (cb' ← load b;
           if weak_count_ cb' =? 0 then delete_this b else mret tt) h3
      | Raise e h3 => Raise e h3
      | Fault f h3 => Fault f h3
      end
    else
      Ok tt (mkHeap (<[b := set_ref_count (wrap (ref_count_ cb - 1)) cb]> (blocks h))
                    (next_block h) (log h)).
Proof.
  intros Hcb. cbn [DecrementStrong_within].
  rewrite (bind_Ok _ _ _ _ _ (load_Some _ _ _ Hcb)). cbv zeta.
  rewrite (bind_Ok _ _ _ _ _ (store_Some _ _ _ _ Hcb)).
  destruct (wrap (ref_count_ cb - 1) =? 0); [|reflexivity].
  unfold OnZeroReferences.
  unfold mbind at 1, M_bind at 1. unfold mbind at 1, M_bind at 1.
  unfold load at 1; cbn [blocks]. rewrite lookup_insert_eq.
  unfold mbind at 1, M_bind at 1. unfold emit; cbn [blocks next_block log].
  unfold mbind at 1, M_bind at 1. unfold store at 1; cbn [blocks next_block log].
  rewrite lookup_insert_eq, insert_insert_eq.
  reflexivity.
Qed.

Lemma release_tail_settles n b h :
  (laden h ≤ n)%nat →
  settles n ((cb' ← load b;
              if weak_count_ cb' =? 0 then delete_this b else mret tt) h).
Proof.
  intros Hle. unfold mbind, M_bind, load.
  destruct (blocks h !! b) as [cb'|] eqn:Hcb; [|split; [discriminate|exact Hle]].
  destruct (weak_count_ cb' =? 0); [|apply settles_Ok, Hle].
  rewrite (delete_this_Some _ _ _ Hcb). apply settles_Ok.
  etransitivity; [apply laden_delete|exact Hle].
Qed.

Section NestingBound.
Context (depth : nat).
Hypothesis IH : ∀ b h, (laden h < depth)%nat →
  settles (laden h) (DecrementStrong_within depth b h).

Lemma destroy_member_settles x h :
  (laden h < depth)%nat →
  settles (laden h) (destroy_member (DecrementStrong_within depth) x h).
Proof.
  intros Hd. destruct x as [[p [b|]]|[p [b|]]]; cbn.
  - apply IH, Hd.
  - apply settles_Ok. reflexivity.
  - apply DecrementWeak_settles.
  - apply settles_Ok. reflexivity.
Qed.

Lemma for_each_settles ms : ∀ h,
  (laden h < depth)%nat →
  settles (laden h) (for_each (destroy_member (DecrementStrong_within depth)) ms h).
Proof.
  induction ms as [|x ms IHms]; intros h Hd; cbn [for_each].
  - apply settles_Ok. reflexivity.
  - apply settles_bind; [apply destroy_member_settles, Hd|].
    intros [] h1 Hrun.
    pose proof (destroy_member_settles x h Hd) as [_ Hle].
    rewrite Hrun in Hle. cbn in Hle.
    eapply settles_mono; [exact Hle|]. apply IHms. lia.
Qed.

Lemma DecrementStrong_within_step b h :
  (laden h < S depth)%nat →
  settles (laden h) (DecrementStrong_within (S depth) b h).
Proof.
  intros Hd. destruct (blocks h !! b) as [cb|] eqn:Hcb.
  2:{ cbn [DecrementStrong_within]. unfold mbind, M_bind, load. rewrite Hcb.
      split; [discriminate|reflexivity]. }
  rewrite (DecrementStrong_within_unfold _ _ _ _ Hcb).
  destruct (wrap (ref_count_ cb - 1) =? 0).
  - set (h2 := mkHeap _ _ _).
    assert (Hh2 : (laden h2 ≤ laden h)%nat).
    { apply (laden_store _ _ _ _ _ _ Hcb). cbn. discriminate. }
    assert (Hrun : settles (laden h)
              (for_each (destroy_member (DecrementStrong_within depth))
                        (payload_members cb) h2)).
    { destruct (payload_members cb) as [|x ms] eqn:Hms.
      - apply settles_Ok, Hh2.
      - eapply settles_mono; [exact Hh2|].
        rewrite <- Hms. apply for_each_settles.
        assert ((laden h2 < laden h)%nat); [|lia].
        apply (laden_clear _ _ _ _ _ _ Hcb); [|reflexivity].
        unfold has_members. rewrite Hms. reflexivity. }
    destruct (for_each _ _ h2) as [[] h3|e h3|f h3].
    + apply release_tail_settles. apply Hrun.
    + exact Hrun.
    + exact Hrun.
  - apply settles_Ok. apply (laden_store _ _ _ _ _ _ Hcb). intros H. exact H.
Qed.
End NestingBound.

Lemma DecrementStrong_within_settles depth : ∀ b h,
  (laden h < depth)%nat → settles (laden h) (DecrementStrong_within depth b h).
Proof.
  induction depth as [|depth IH]; intros b h Hd; [lia|].
  apply (DecrementStrong_within_step depth IH b h Hd).
Qed.

Section NestingBoundIndependent.
Context (depth : nat).
Hypothesis IH : ∀ b h, (laden h < depth)%nat →
  DecrementStrong_within (S depth) b h = DecrementStrong_within depth b h.

Lemma for_each_deeper ms : ∀ h,
  (laden h < depth)%nat →
  for_each (destroy_member (DecrementStrong_within (S depth))) ms h =
  for_each (destroy_member (DecrementStrong_within depth)) ms h.
Proof.
  induction ms as [|x ms IHms]; intros h Hd; [reflexivity|].
  cbn [for_each]. unfold mbind, M_bind.
  assert (Hx : destroy_member (DecrementStrong_within (S depth)) x h =
               destroy_member (DecrementStrong_within depth) x h).
  { destruct x as [[p [b|]]|w]; cbn [destroy_member if_block control_block_];
      [apply IH, Hd|reflexivity|reflexivity]. }
  rewrite Hx.
  pose proof (destroy_member_settles depth
                (DecrementStrong_within_settles depth) x h Hd) as [_ Hle].
  destruct (destroy_member (DecrementStrong_within depth) x h) as [[] h1|e h1|f h1];
    [|reflexivity|reflexivity].
  cbn in Hle. apply IHms. lia.
Qed.

Lemma DecrementStrong_within_deeper b h :
  (laden h < S depth)%nat →
  DecrementStrong_within (S (S depth)) b h = DecrementStrong_within (S depth) b h.
Proof.
  intros Hd. destruct (blocks h !! b) as [cb|] eqn:Hcb.
  2:{ cbn [DecrementStrong_within]. unfold mbind, M_bind, load. rewrite Hcb.
      reflexivity. }
  rewrite !(DecrementStrong_within_unfold _ _ _ _ Hcb).
  destruct (wrap (ref_count_ cb - 1) =? 0); [|reflexivity].
  destruct (payload_members cb) as [|x ms] eqn:Hms; [reflexivity|].
  rewrite for_each_deeper; [reflexivity|].
  assert ((laden (mkHeap (<[b := set_payload_members []
                                   (set_ref_count (wrap (ref_count_ cb - 1)) cb)]>
                            (blocks h))
                         (next_block h) (log h ++ [EvOnZeroReferences b]))
           < laden h)%nat); [|lia].
  apply (laden_clear _ _ _ _ _ _ Hcb); [|reflexivity].
  unfold has_members. rewrite Hms. reflexivity.
Qed.
End NestingBoundIndependent.

Lemma DecrementStrong_within_S depth : ∀ b h,
  (laden h < depth)%nat →
  DecrementStrong_within (S depth) b h = DecrementStrong_within depth b h.
Proof.
  induction depth as [|depth IH]; intros b h Hd; [lia|].
  apply (DecrementStrong_within_deeper depth IH b h Hd).
Qed.

(** X23.  The chain of destructor calls that one [DecrementStrong] starts
    ends.  A teardown destroys the handles the payload owns, which may tear
    down further payloads; every payload that is torn down owned handles
    before and owns none afterwards, so on a heap where [laden h] payloads
    own handles the calls nest at most [laden h + 1] deep: with any larger
    bound the outcome is the same, the bound is never reached, and no more
    payloads own handles afterwards than before. *)
Theorem teardown_chain_ends b h depth :
  (laden h < depth)%nat →
  DecrementStrong_within depth b h = DecrementStrong b h ∧
  (∀ h', DecrementStrong b h ≠ Fault TooDeep h') ∧
  (laden (heap_left (DecrementStrong b h)) ≤ laden h)%nat.
Proof.
  intros Hd. split.
  - unfold DecrementStrong.
    replace depth with ((depth - S (laden h)) + S (laden h))%nat by lia.
    generalize (depth - S (laden h))%nat. intros k.
    induction k as [|k IH]; [reflexivity|].
    rewrite <- IH. change (S k + S (laden h))%nat with (S (k + S (laden h))).
    apply DecrementStrong_within_S. lia.
  - apply (DecrementStrong_within_settles (S (laden h)) b h). lia.
Qed.

Lemma teardown_chain_ends_witness :
  DecrementStrong_within 5 0 (heap (two_nodes 100 200))
  = DecrementStrong 0 (heap (two_nodes 100 200)).
Proof.
  apply (teardown_chain_ends 0 (heap (two_nodes 100 200)) 5).
  vm_compute. lia.
Defined.

(** ** Counting handle objects *)

Section Census.
Context (P : Handle → bool).
Implicit Types hs : gmap Z Handle.

Lemma census_empty : census P ∅ = 0%nat.
Proof. unfold census. rewrite map_filter_empty. apply map_size_empty. Qed.

Lemma census_insert_fresh hs a x :
  hs !! a = None →
  census P (<[a := x]> hs) = (if P x then S (census P hs) else census P hs).
Proof.
  intros Hnone. unfold census.
  destruct (P x) eqn:HP.
  - rewrite map_filter_insert_True by (apply Is_true_true; exact HP).
    apply map_size_insert_None.
    apply map_lookup_filter_None. left. exact Hnone.
  - assert (Hx : ¬ Is_true (P x)) by (rewrite HP; intros []).
    rewrite map_filter_insert_not'; [reflexivity | exact Hx | congruence].
Qed.

Lemma census_delete hs a x :
  hs !! a = Some x →
  census P hs =
    (if P x then S (census P (delete a hs)) else census P (delete a hs)).
Proof.
  intros Hsome.
  rewrite <- (census_insert_fresh (delete a hs) a x) by apply lookup_delete_eq.
  rewrite insert_delete_eq, insert_id by exact Hsome. reflexivity.
Qed.

Lemma census_replace hs a x y :
  hs !! a = Some x → P x = P y → census P (<[a := y]> hs) = census P hs.
Proof.
  intros Hsome Heq.
  rewrite <- insert_delete_eq.
  rewrite census_insert_fresh by apply lookup_delete_eq.
  rewrite (census_delete hs a x Hsome), Heq. reflexivity.
Qed.

Lemma census_delete_idle hs a x :
  hs !! a = Some x → P x = false → census P (delete a hs) = census P hs.
Proof. intros Hsome HP. rewrite (census_delete hs a x Hsome), HP. reflexivity. Qed.

Lemma census_insert_idle hs a x :
  hs !! a = None → P x = false → census P (<[a := x]> hs) = census P hs.
Proof. intros Hnone HP. rewrite census_insert_fresh, HP by exact Hnone. reflexivity. Qed.

Lemma census_le_size hs : (census P hs ≤ size hs)%nat.
Proof. unfold census. apply map_subseteq_size, map_filter_subseteq. Qed.

Lemma census_pos hs a x :
  hs !! a = Some x → P x = true → (0 < census P hs)%nat.
Proof. intros Hsome HP. rewrite (census_delete hs a x Hsome), HP. lia. Qed.
End Census.

(** Objects live at distinct non-null addresses of pointer width, so fewer
    than [2 ^ 64] of them exist at any time. *)
Lemma keys_in_range_size (hs : gmap Z Handle) (n : Z) :
  (∀ a, is_Some (hs !! a) → 1 ≤ a ≤ n) → Z.of_nat (size hs) ≤ Z.max 0 n.
Proof.
  intros Hrange.
  assert (Hsub : dom hs ⊆ (list_to_set (seqZ 1 n) : gset Z)).
  { intros a Ha. apply elem_of_dom in Ha. apply Hrange in Ha.
    apply elem_of_list_to_set, elem_of_seqZ. lia. }
  apply subseteq_size in Hsub.
  rewrite size_dom in Hsub.
  rewrite size_list_to_set in Hsub by apply NoDup_seqZ.
  rewrite length_seqZ in Hsub. lia.
Qed.

Lemma addr_ok_range a : addr_ok a = true ↔ 1 ≤ a ≤ SIZE_MAX.
Proof.
  unfold addr_ok, SIZE_MAX. rewrite andb_true_iff, !Z.ltb_lt. lia.
Qed.

Lemma handles_size_bound (hs : gmap Z Handle) :
  (∀ a x, hs !! a = Some x → addr_ok a = true) → Z.of_nat (size hs) ≤ SIZE_MAX.
Proof.
  intros Hok.
  assert (H := keys_in_range_size hs SIZE_MAX).
  pose proof SIZE_MOD_gt_1. unfold SIZE_MAX in *.
  rewrite Z.max_r in H by lia. apply H.
  intros a [x Hx]. specialize (Hok a x Hx). apply addr_ok_range in Hok.
  unfold SIZE_MAX in Hok. exact Hok.
Qed.

Lemma handles_size_bound_vacant (hs : gmap Z Handle) a :
  (∀ a x, hs !! a = Some x → addr_ok a = true) →
  addr_ok a = true → hs !! a = None →
  Z.of_nat (size hs) < SIZE_MAX.
Proof.
  intros Hok Ha Hnone.
  assert (H : Z.of_nat (size (<[a := HShared SharedPtr_default]> hs)) ≤ SIZE_MAX).
  { apply handles_size_bound. intros a' x Hx.
    destruct (decide (a = a')) as [<-|Hne]; [exact Ha|].
    rewrite lookup_insert_ne in Hx by exact Hne. eapply Hok, Hx. }
  rewrite map_size_insert_None in H by exact Hnone. lia.
Qed.

(** ** Events *)

Arguments occurrences : simpl never.

Lemma occurrences_snoc e e' l :
  occurrences e (l ++ [e']) =
    (occurrences e l + (if decide (e' = e) then 1 else 0))%nat.
Proof.
  unfold occurrences. rewrite filter_app, length_app. f_equal.
  rewrite filter_cons, filter_nil. destruct (decide (e' = e)); reflexivity.
Qed.

Lemma teardowns_snoc b e h bs n :
  teardowns b (mkHeap bs n (log h ++ [e])) =
    (teardowns b h + (if decide (e = EvOnZeroReferences b) then 1 else 0))%nat.
Proof. unfold teardowns; cbn. apply occurrences_snoc. Qed.

Lemma releases_snoc b e h bs n :
  releases b (mkHeap bs n (log h ++ [e])) =
    (releases b h + (if decide (e = EvDeleteThis b) then 1 else 0))%nat.
Proof. unfold releases; cbn. apply occurrences_snoc. Qed.

(** ** The block invariant under the counter operations *)

Lemma block_inv_frame h h' b n m :
  blocks h' !! b = blocks h !! b →
  next_block h' = next_block h →
  teardowns b h' = teardowns b h →
  releases b h' = releases b h →
  block_inv h b n m → block_inv h' b n m.
Proof.
  unfold block_inv. intros -> -> -> ->. trivial.
Qed.

Lemma block_inv_allocated h b n m :
  block_inv h b n m → (0 < n + m)%nat →
  ∃ cb, blocks h !! b = Some cb ∧ (b < next_block h)%nat ∧
        ref_count_ cb = Z.of_nat n ∧ weak_count_ cb = Z.of_nat m ∧
        payload_members cb = [] ∧
        teardowns b h = (if decide (n = 0%nat) then 1%nat else 0%nat) ∧
        releases b h = 0%nat.
Proof.
  unfold block_inv. intros H Hpos.
  destruct (blocks h !! b) as [cb|].
  - exists cb. intuition.
  - lia.
Qed.

Section HeapInvariant.
Context (h : Heap) (N W N' W' : nat → nat) (b0 : nat).
Hypothesis Hinv : ∀ b, block_inv h b (N b) (W b).

Lemma inv_new_block k :
  b0 = next_block h →
  (∀ b, N' b = if decide (b = b0) then 1%nat else N b) →
  (∀ b, W' b = W b) →
  ∀ b, block_inv
         (mkHeap (<[b0 := mkControlBlock 1 0 k []]> (blocks h)) (S b0) (log h))
         b (N' b) (W' b).
Proof.
  intros -> HN HW b. rewrite HN, HW.
  pose proof (Hinv b) as Hb. unfold block_inv in *; cbn.
  destruct (decide (b = next_block h)) as [->|Hne].
  - rewrite lookup_insert_eq.
    destruct (blocks h !! next_block h) as [cb|]; [lia|].
    destruct Hb as (_ & Hm & Ht & Hr). rewrite Hm.
    unfold teardowns, releases in *; cbn.
    rewrite decide_False in Ht, Hr by lia.
    rewrite Ht, Hr. repeat split; lia.
  - rewrite lookup_insert_ne by congruence.
    unfold teardowns, releases in *; cbn.
    destruct (blocks h !! b) as [cb|].
    + intuition lia.
    + destruct Hb as (Hn & Hm & Ht & Hr). repeat split; try assumption.
      * rewrite Ht. repeat case_decide; lia.
      * rewrite Hr. repeat case_decide; lia.
Qed.

Lemma inv_IncrementStrong :
  (0 < N b0)%nat → Z.of_nat (N b0) + 1 < SIZE_MOD →
  (∀ b, N' b = if decide (b = b0) then S (N b) else N b) →
  (∀ b, W' b = W b) →
  ∃ h', IncrementStrong b0 h = Ok tt h' ∧ ∀ b, block_inv h' b (N' b) (W' b).
Proof.
  intros Hpos Hlt HN HW.
  destruct (block_inv_allocated _ _ _ _ (Hinv b0)) as (cb & Hcb & Hnx & Hr & Hw & Hp & Ht & Hrel);
    [lia|].
  eexists. split; [apply (IncrementStrong_Some _ _ _ Hcb)|].
  intros b. rewrite HN, HW. destruct (decide (b = b0)) as [->|Hne].
  - unfold block_inv; cbn. rewrite lookup_insert_eq; cbn.
    rewrite Hr, wrap_small by lia.
    unfold teardowns, releases in *; cbn. rewrite Ht, Hrel.
    rewrite decide_False by lia. rewrite decide_False by lia.
    repeat split; try assumption; lia.
  - eapply block_inv_frame; [| | | |apply Hinv]; cbn; try reflexivity.
    rewrite lookup_insert_ne by congruence. reflexivity.
Qed.

Lemma inv_IncrementWeak :
  (0 < N b0 + W b0)%nat → Z.of_nat (W b0) + 1 < SIZE_MOD →
  (∀ b, N' b = N b) →
  (∀ b, W' b = if decide (b = b0) then S (W b) else W b) →
  ∃ h', IncrementWeak b0 h = Ok tt h' ∧ ∀ b, block_inv h' b (N' b) (W' b).
Proof.
  intros Hpos Hlt HN HW.
  destruct (block_inv_allocated _ _ _ _ (Hinv b0)) as (cb & Hcb & Hnx & Hr & Hw & Hp & Ht & Hrel);
    [lia|].
  eexists. split; [apply (IncrementWeak_Some _ _ _ Hcb)|].
  intros b. rewrite HN, HW. destruct (decide (b = b0)) as [->|Hne].
  - unfold block_inv; cbn. rewrite lookup_insert_eq; cbn.
    rewrite Hw, wrap_small by lia.
    unfold teardowns, releases in *; cbn. rewrite Ht, Hrel.
    repeat split; try assumption; lia.
  - eapply block_inv_frame; [| | | |apply Hinv]; cbn; try reflexivity.
    rewrite lookup_insert_ne by congruence. reflexivity.
Qed.
End HeapInvariant.

Section HeapInvariantDecrement.
Context (h : Heap) (N W N' W' : nat → nat) (b0 : nat).
Hypothesis Hinv : ∀ b, block_inv h b (N b) (W b).

Local Ltac events :=
  unfold teardowns, releases in *; cbn [log blocks next_block];
  rewrite ?occurrences_snoc.

Lemma inv_DecrementStrong :
  (0 < N b0)%nat → Z.of_nat (N b0) < SIZE_MOD →
  (∀ b, N' b = if decide (b = b0) then pred (N b) else N b) →
  (∀ b, W' b = W b) →
  ∃ h', DecrementStrong b0 h = Ok tt h' ∧ ∀ b, block_inv h' b (N' b) (W' b).
Proof.
  intros Hpos Hlt HN HW.
  destruct (block_inv_allocated _ _ _ _ (Hinv b0))
    as (cb & Hcb & Hnx & Hr & Hw & Hp & Ht & Hrel); [lia|].
  eexists. split; [apply (DecrementStrong_Some _ _ _ Hcb Hp)|].
  intros b. rewrite HN, HW. unfold heap_after_DecrementStrong.
  rewrite wrap_pred_eq_0, Hr, wrap_small by lia.
  rewrite decide_False in Ht by lia.
  destruct (decide (b = b0)) as [->|Hne].
  - destruct (Z.eqb_spec (Z.of_nat (N b0)) 1) as [H1|H1].
    + assert (HN1 : N b0 = 1%nat) by lia. rewrite HN1; cbn [pred].
      destruct (Z.eqb_spec (weak_count_ cb) 0) as [H0|H0].
      * unfold block_inv; events.
        rewrite lookup_delete_eq, Ht, Hrel.
        repeat case_decide; repeat split; congruence || lia.
      * unfold block_inv; events.
        rewrite lookup_insert_eq; cbn.
        rewrite Ht, Hrel.
        repeat case_decide; repeat split; try assumption; congruence || lia.
    + unfold block_inv; events.
      rewrite lookup_insert_eq; cbn.
      rewrite Ht, Hrel. rewrite decide_False by lia.
      repeat split; try assumption; lia.
  - eapply block_inv_frame; [| | | |apply Hinv];
      (destruct (_ =? 1); [destruct (_ =? 0)|]); events;
      rewrite ?lookup_delete_ne, ?lookup_insert_ne, ?decide_False by congruence;
      try reflexivity; lia.
Qed.

Lemma inv_DecrementWeak :
  (0 < W b0)%nat → Z.of_nat (W b0) < SIZE_MOD →
  (∀ b, N' b = N b) →
  (∀ b, W' b = if decide (b = b0) then pred (W b) else W b) →
  ∃ h', DecrementWeak b0 h = Ok tt h' ∧ ∀ b, block_inv h' b (N' b) (W' b).
Proof.
  intros Hpos Hlt HN HW.
  destruct (block_inv_allocated _ _ _ _ (Hinv b0))
    as (cb & Hcb & Hnx & Hr & Hw & Hp & Ht & Hrel); [lia|].
  eexists. split; [apply (DecrementWeak_Some _ _ _ Hcb)|].
  intros b. rewrite HN, HW. unfold heap_after_DecrementWeak.
  rewrite wrap_pred_eq_0, Hw, Hr, wrap_small by lia.
  destruct (decide (b = b0)) as [->|Hne].
  - destruct (Z.eqb_spec (Z.of_nat (W b0)) 1) as [H1|H1];
      [destruct (Z.eqb_spec (Z.of_nat (N b0)) 0) as [H0|H0]|]; cbn [andb].
    + assert (HW1 : W b0 = 1%nat) by lia. rewrite HW1; cbn [pred].
      assert (HN0 : N b0 = 0%nat) by lia. rewrite HN0 in *.
      unfold block_inv; events.
      rewrite lookup_delete_eq, Ht, Hrel.
      repeat case_decide; repeat split; congruence || lia.
    + unfold block_inv; events.
      rewrite lookup_insert_eq; cbn.
      rewrite Ht, Hrel.
      repeat split; try assumption; lia.
    + unfold block_inv; events.
      rewrite lookup_insert_eq; cbn.
      rewrite Ht, Hrel.
      repeat split; try assumption; lia.
  - eapply block_inv_frame; [| | | |apply Hinv];
      destruct (_ && _); events;
      rewrite ?lookup_delete_ne, ?lookup_insert_ne, ?decide_False by congruence;
      try reflexivity; lia.
Qed.
End HeapInvariantDecrement.

(** ** The program invariant under changes of the handle objects *)

Lemma census_move (P : Handle → bool) (hs : gmap Z Handle) src dst x e :
  hs !! src = Some x → hs !! dst = None → P e = false →
  census P (<[dst := x]> (<[src := e]> hs)) = census P hs.
Proof.
  intros Hsrc Hdst He.
  assert (src ≠ dst) by congruence.
  rewrite census_insert_fresh by (rewrite lookup_insert_ne by done; exact Hdst).
  rewrite <- (insert_delete_eq hs).
  rewrite census_insert_fresh by apply lookup_delete_eq.
  rewrite (census_delete P hs src x Hsrc), He. reflexivity.
Qed.

Lemma census_swap (P : Handle → bool) (hs : gmap Z Handle) a1 a2 x1 x2 :
  hs !! a1 = Some x1 → hs !! a2 = Some x2 →
  census P (<[a1 := x2]> (<[a2 := x1]> hs)) = census P hs.
Proof.
  intros H1 H2. destruct (decide (a1 = a2)) as [->|Hne].
  - assert (x1 = x2) by congruence. subst x2.
    rewrite insert_insert_eq. apply (census_replace P hs a2 x1 x1 H1 eq_refl).
  - rewrite <- (insert_delete_eq (<[a2 := x1]> hs)).
    rewrite census_insert_fresh by apply lookup_delete_eq.
    rewrite delete_insert_ne by congruence.
    rewrite <- (insert_delete_eq (delete a1 hs)).
    rewrite census_insert_fresh by apply lookup_delete_eq.
    rewrite (census_delete P hs a1 x1 H1).
    rewrite (census_delete P (delete a1 hs) a2 x2)
      by (rewrite lookup_delete_ne by congruence; exact H2).
    destruct (P x1), (P x2); reflexivity.
Qed.

Lemma consistent_init : consistent init.
Proof.
  split.
  - intros a x Hx. cbn in Hx. rewrite lookup_empty in Hx. discriminate.
  - intros b. unfold holders, observers; cbn. rewrite !census_empty.
    unfold block_inv; cbn. rewrite lookup_empty.
    rewrite !decide_False by lia. repeat split; reflexivity.
Qed.

Section Transitions.
Context (h : Heap) (hs : gmap Z Handle).
Hypothesis Hcons : consistent (mkState h hs).

Lemma census_bound (P : Handle → bool) : Z.of_nat (census P hs) < SIZE_MOD.
Proof.
  pose proof (census_le_size P hs).
  pose proof (handles_size_bound hs (proj1 Hcons)).
  unfold SIZE_MAX in *. lia.
Qed.

Lemma census_bound_vacant (P : Handle → bool) a :
  addr_ok a = true → hs !! a = None → Z.of_nat (census P hs) + 1 < SIZE_MOD.
Proof.
  intros Ha Hnone.
  pose proof (census_le_size P hs).
  pose proof (handles_size_bound_vacant hs a (proj1 Hcons) Ha Hnone).
  unfold SIZE_MAX in *. lia.
Qed.

Lemma addr_ok_delete a :
  ∀ a' x, delete a hs !! a' = Some x → addr_ok a' = true.
Proof.
  intros a' x Hx. apply lookup_delete_Some in Hx as [_ Hx].
  eapply (proj1 Hcons), Hx.
Qed.

Lemma addr_ok_insert a y :
  addr_ok a = true → ∀ a' x, <[a := y]> hs !! a' = Some x → addr_ok a' = true.
Proof.
  intros Ha a' x Hx. apply lookup_insert_Some in Hx as [[<- _]|[_ Hx]].
  - exact Ha.
  - eapply (proj1 Hcons), Hx.
Qed.

Lemma consistent_recount hs' h' :
  (∀ a x, hs' !! a = Some x → addr_ok a = true) →
  (∀ b, block_inv h' b (census (is_holder b) hs') (census (is_observer b) hs')) →
  consistent (mkState h' hs').
Proof. intros Ha Hb. split; assumption. Qed.

Lemma consistent_same_census hs' :
  (∀ a x, hs' !! a = Some x → addr_ok a = true) →
  (∀ b, census (is_holder b) hs' = census (is_holder b) hs) →
  (∀ b, census (is_observer b) hs' = census (is_observer b) hs) →
  consistent (mkState h hs').
Proof.
  intros Ha HN HW. split; [exact Ha|].
  intros b. unfold holders, observers; cbn. rewrite HN, HW. apply (proj2 Hcons).
Qed.

Lemma addr_ok_insert2 a1 a2 y1 y2 :
  addr_ok a1 = true → addr_ok a2 = true →
  ∀ a' x, <[a1 := y1]> (<[a2 := y2]> hs) !! a' = Some x → addr_ok a' = true.
Proof.
  intros H1 H2 a' x Hx.
  apply lookup_insert_Some in Hx as [[<- _]|[_ Hx]]; [exact H1|].
  apply lookup_insert_Some in Hx as [[<- _]|[_ Hx]]; [exact H2|].
  eapply (proj1 Hcons), Hx.
Qed.

Lemma consistent_detach_shared a t :
  hs !! a = Some (HShared t) →
  ∃ h', if_block (control_block_ t) DecrementStrong h = Ok tt h' ∧
        consistent (mkState h' (delete a hs)).
Proof.
  intros Ha. destruct t as [p [b0|]]; cbn [control_block_ if_block].
  - destruct (inv_DecrementStrong h
                (λ b, census (is_holder b) hs) (λ b, census (is_observer b) hs)
                (λ b, census (is_holder b) (delete a hs))
                (λ b, census (is_observer b) (delete a hs)) b0 (proj2 Hcons))
      as (h' & Hrun & Hinv).
    + eapply census_pos; [exact Ha|]. cbn. apply bool_decide_eq_true. reflexivity.
    + apply census_bound.
    + intros b; cbv beta. rewrite (census_delete _ hs a _ Ha). cbn.
      destruct (decide (b = b0)) as [->|Hne].
      * rewrite bool_decide_eq_true_2 by reflexivity. reflexivity.
      * rewrite bool_decide_eq_false_2 by congruence. reflexivity.
    + intros b; cbv beta. rewrite (census_delete _ hs a _ Ha). reflexivity.
    + exists h'. split; [exact Hrun|].
      apply consistent_recount; [apply addr_ok_delete|exact Hinv].
  - exists h. split; [reflexivity|].
    apply consistent_recount; [apply addr_ok_delete|].
    intros b. rewrite !(census_delete_idle _ hs a _ Ha) by reflexivity.
    apply (proj2 Hcons).
Qed.

Lemma consistent_detach_weak a t :
  hs !! a = Some (HWeak t) →
  ∃ h', if_block (observe_cb_ t) DecrementWeak h = Ok tt h' ∧
        consistent (mkState h' (delete a hs)).
Proof.
  intros Ha. destruct t as [p [b0|]]; cbn [observe_cb_ if_block].
  - destruct (inv_DecrementWeak h
                (λ b, census (is_holder b) hs) (λ b, census (is_observer b) hs)
                (λ b, census (is_holder b) (delete a hs))
                (λ b, census (is_observer b) (delete a hs)) b0 (proj2 Hcons))
      as (h' & Hrun & Hinv).
    + eapply census_pos; [exact Ha|]. cbn. apply bool_decide_eq_true. reflexivity.
    + apply census_bound.
    + intros b; cbv beta. rewrite (census_delete _ hs a _ Ha). reflexivity.
    + intros b; cbv beta. rewrite (census_delete _ hs a _ Ha). cbn.
      destruct (decide (b = b0)) as [->|Hne].
      * rewrite bool_decide_eq_true_2 by reflexivity. reflexivity.
      * rewrite bool_decide_eq_false_2 by congruence. reflexivity.
    + exists h'. split; [exact Hrun|].
      apply consistent_recount; [apply addr_ok_delete|exact Hinv].
  - exists h. split; [reflexivity|].
    apply consistent_recount; [apply addr_ok_delete|].
    intros b. rewrite !(census_delete_idle _ hs a _ Ha) by reflexivity.
    apply (proj2 Hcons).
Qed.

Lemma consistent_attach_shared a p cb :
  hs !! a = None → addr_ok a = true →
  (∀ b, cb = Some b → (0 < census (is_holder b) hs)%nat) →
  ∃ h', if_block cb IncrementStrong h = Ok tt h' ∧
        consistent (mkState h' (<[a := HShared (mkSharedPtr p cb)]> hs)).
Proof.
  intros Hnone Ha Hheld. destruct cb as [b0|]; cbn [if_block].
  - destruct (inv_IncrementStrong h
                (λ b, census (is_holder b) hs) (λ b, census (is_observer b) hs)
                (λ b, census (is_holder b) (<[a := HShared (mkSharedPtr p (Some b0))]> hs))
                (λ b, census (is_observer b) (<[a := HShared (mkSharedPtr p (Some b0))]> hs))
                b0 (proj2 Hcons))
      as (h' & Hrun & Hinv).
    + apply Hheld. reflexivity.
    + apply (census_bound_vacant _ a Ha Hnone).
    + intros b; cbv beta. rewrite census_insert_fresh by exact Hnone. cbn.
      destruct (decide (b = b0)) as [->|Hne].
      * rewrite bool_decide_eq_true_2 by reflexivity. reflexivity.
      * rewrite bool_decide_eq_false_2 by congruence. reflexivity.
    + intros b; cbv beta. rewrite census_insert_fresh by exact Hnone. reflexivity.
    + exists h'. split; [exact Hrun|].
      apply consistent_recount; [apply addr_ok_insert, Ha|exact Hinv].
  - exists h. split; [reflexivity|].
    apply consistent_recount; [apply addr_ok_insert, Ha|].
    intros b. rewrite !census_insert_idle by (exact Hnone || reflexivity).
    apply (proj2 Hcons).
Qed.

Lemma consistent_attach_weak a p cb :
  hs !! a = None → addr_ok a = true →
  (∀ b, cb = Some b →
        (0 < census (is_holder b) hs + census (is_observer b) hs)%nat) →
  ∃ h', if_block cb IncrementWeak h = Ok tt h' ∧
        consistent (mkState h' (<[a := HWeak (mkWeakPtr p cb)]> hs)).
Proof.
  intros Hnone Ha Hheld. destruct cb as [b0|]; cbn [if_block].
  - destruct (inv_IncrementWeak h
                (λ b, census (is_holder b) hs) (λ b, census (is_observer b) hs)
                (λ b, census (is_holder b) (<[a := HWeak (mkWeakPtr p (Some b0))]> hs))
                (λ b, census (is_observer b) (<[a := HWeak (mkWeakPtr p (Some b0))]> hs))
                b0 (proj2 Hcons))
      as (h' & Hrun & Hinv).
    + apply Hheld. reflexivity.
    + apply (census_bound_vacant _ a Ha Hnone).
    + intros b; cbv beta. rewrite census_insert_fresh by exact Hnone. reflexivity.
    + intros b; cbv beta. rewrite census_insert_fresh by exact Hnone. cbn.
      destruct (decide (b = b0)) as [->|Hne].
      * rewrite bool_decide_eq_true_2 by reflexivity. reflexivity.
      * rewrite bool_decide_eq_false_2 by congruence. reflexivity.
    + exists h'. split; [exact Hrun|].
      apply consistent_recount; [apply addr_ok_insert, Ha|exact Hinv].
  - exists h. split; [reflexivity|].
    apply consistent_recount; [apply addr_ok_insert, Ha|].
    intros b. rewrite !census_insert_idle by (exact Hnone || reflexivity).
    apply (proj2 Hcons).
Qed.

Lemma consistent_place_shared a p k :
  hs !! a = None → addr_ok a = true →
  consistent
    (mkState (mkHeap (<[next_block h := mkControlBlock 1 0 k []]> (blocks h))
                     (S (next_block h)) (log h))
             (<[a := HShared (mkSharedPtr p (Some (next_block h)))]> hs)).
Proof.
  intros Hnone Ha.
  apply consistent_recount; [apply addr_ok_insert, Ha|].
  apply (inv_new_block h (λ b, census (is_holder b) hs)
           (λ b, census (is_observer b) hs) _ _ (next_block h) (proj2 Hcons) k eq_refl).
  - intros b; cbv beta. rewrite census_insert_fresh by exact Hnone. cbn.
    destruct (decide (b = next_block h)) as [->|Hne].
    + rewrite bool_decide_eq_true_2 by reflexivity.
      pose proof (proj2 Hcons (next_block h)) as Hb.
      unfold block_inv, holders in Hb; cbn in Hb.
      destruct (blocks h !! next_block h); [lia|].
      destruct Hb as (-> & _). reflexivity.
    + rewrite bool_decide_eq_false_2 by congruence. reflexivity.
  - intros b; cbv beta. rewrite census_insert_fresh by exact Hnone. reflexivity.
Qed.
End Transitions.

(** ** Every handle operation preserves the invariant *)

Lemma get_shared_Some a s t :
  get_shared a s = Some t → handles s !! a = Some (HShared t).
Proof.
  unfold get_shared. destruct (handles s !! a) as [[?|?]|]; congruence.
Qed.

Lemma get_weak_Some a s t :
  get_weak a s = Some t → handles s !! a = Some (HWeak t).
Proof.
  unfold get_weak. destruct (handles s !! a) as [[?|?]|]; congruence.
Qed.

Lemma vacant_true a s :
  vacant a s = true → addr_ok a = true ∧ handles s !! a = None.
Proof.
  unfold vacant. rewrite andb_true_iff, bool_decide_eq_true. trivial.
Qed.


(** ** Equations of the operations that take handle objects by reference *)

Lemma sm_bind_Ok {A B} (m : SM A) (f : A → SM B) s a s' :
  m s = Ok a s' → (m ≫= f) s = f a s'.
Proof. intros H. unfold mbind, SM_bind. rewrite H. reflexivity. Qed.

Lemma on_heap_Ok {A} (m : M A) h hs a h' :
  m h = Ok a h' → on_heap m (mkState h hs) = Ok a (mkState h' hs).
Proof. intros H. unfold on_heap; cbn. rewrite H. reflexivity. Qed.

Lemma read_client a h hs t :
  hs !! a = Some (HShared t) →
  read_shared (Client a) (mkState h hs) = Ok t (mkState h hs).
Proof. intros H. unfold read_shared; cbn. rewrite H. reflexivity. Qed.

Lemma write_client a h hs t x :
  hs !! a = Some (HShared t) →
  write_shared (Client a) x (mkState h hs) = Ok tt (mkState h (<[a := HShared x]> hs)).
Proof. intros H. unfold write_shared; cbn. rewrite H. reflexivity. Qed.

(** Closes the branch in which [exec] refuses the operation. *)
Ltac refuse :=
  repeat split; try reflexivity; unfold well_formed; cbv beta zeta iota;
  repeat match goal with
         | H : ?x = _ |- context [?x] => rewrite H
         end;
  rewrite ?andb_false_r; reflexivity.

Section ExecShared.
Context (h : Heap) (hs : gmap Z Handle).
Hypothesis Hcons : consistent (mkState h hs).
Let s := mkState h hs.

Lemma holder_pos a p b :
  hs !! a = Some (HShared (mkSharedPtr p (Some b))) →
  (0 < census (is_holder b) hs)%nat.
Proof.
  intros Ha. eapply census_pos; [exact Ha|].
  cbn. apply bool_decide_eq_true. reflexivity.
Qed.

Lemma observer_pos a p b :
  hs !! a = Some (HWeak (mkWeakPtr p (Some b))) →
  (0 < census (is_observer b) hs)%nat.
Proof.
  intros Ha. eapply census_pos; [exact Ha|].
  cbn. apply bool_decide_eq_true. reflexivity.
Qed.

Lemma exec_OpDefault dst : exec_post (OpDefault dst) s (exec (OpDefault dst) s).
Proof.
  cbn. destruct (vacant dst s) eqn:Hv; [|refuse].
  apply vacant_true in Hv as [Ha Hnone]. cbn in Hnone.
  destruct (consistent_attach_shared h hs Hcons dst nullptr None Hnone Ha)
    as (h' & Hrun & Hc); [discriminate|].
  cbn in Hrun. injection Hrun as <-. exact Hc.
Qed.

Lemma exec_OpFromPtr dst ptr : exec_post (OpFromPtr dst ptr) s (exec (OpFromPtr dst ptr) s).
Proof.
  cbn. destruct (vacant dst s) eqn:Hv; [|refuse].
  apply vacant_true in Hv as [Ha Hnone]. cbn in Hnone.
  apply (consistent_place_shared h hs Hcons dst ptr _ Hnone Ha).
Qed.

Lemma exec_OpMakeShared dst storage : exec_post (OpMakeShared dst storage) s (exec (OpMakeShared dst storage) s).
Proof.
  cbn. destruct (vacant dst s) eqn:Hv; [|refuse].
  apply vacant_true in Hv as [Ha Hnone]. cbn in Hnone.
  apply (consistent_place_shared h hs Hcons dst storage _ Hnone Ha).
Qed.

Lemma exec_OpCopy dst src : exec_post (OpCopy dst src) s (exec (OpCopy dst src) s).
Proof.
  cbn. destruct (get_shared src s) as [[p cb]|] eqn:Hsrc; [|refuse].
  apply get_shared_Some in Hsrc. cbn in Hsrc.
  destruct (vacant dst s) eqn:Hv; [|refuse].
  apply vacant_true in Hv as [Ha Hnone]. cbn in Hnone.
  destruct (consistent_attach_shared h hs Hcons dst p cb Hnone Ha)
    as (h' & Hrun & Hc).
  { intros b ->. eapply holder_pos, Hsrc. }
  unfold commit, SharedPtr_copy, mbind, M_bind; cbn. rewrite Hrun. exact Hc.
Qed.

Lemma exec_OpAlias dst src ptr : exec_post (OpAlias dst src ptr) s (exec (OpAlias dst src ptr) s).
Proof.
  cbn. destruct (get_shared src s) as [[p cb]|] eqn:Hsrc; [|refuse].
  apply get_shared_Some in Hsrc. cbn in Hsrc.
  destruct (vacant dst s) eqn:Hv; [|refuse].
  apply vacant_true in Hv as [Ha Hnone]. cbn in Hnone.
  destruct (consistent_attach_shared h hs Hcons dst ptr cb Hnone Ha)
    as (h' & Hrun & Hc).
  { intros b ->. eapply holder_pos, Hsrc. }
  unfold commit, SharedPtr_alias, mbind, M_bind; cbn. rewrite Hrun. exact Hc.
Qed.

Lemma exec_OpMove dst src : exec_post (OpMove dst src) s (exec (OpMove dst src) s).
Proof.
  cbn. destruct (get_shared src s) as [[p cb]|] eqn:Hsrc; [|refuse].
  apply get_shared_Some in Hsrc. cbn in Hsrc.
  destruct (vacant dst s) eqn:Hv; [|refuse].
  apply vacant_true in Hv as [Ha Hnone]. cbn in Hnone. cbn.
  apply (consistent_same_census h hs Hcons).
  - apply (addr_ok_insert2 h hs Hcons); [exact Ha|]. eapply (proj1 Hcons), Hsrc.
  - intros b. apply census_move; try assumption. reflexivity.
  - intros b. apply census_move; try assumption. reflexivity.
Qed.

Lemma exec_OpSwap a1 a2 : exec_post (OpSwap a1 a2) s (exec (OpSwap a1 a2) s).
Proof.
  cbn. destruct (get_shared a1 s) as [[p1 cb1]|] eqn:H1; [|refuse].
  destruct (get_shared a2 s) as [[p2 cb2]|] eqn:H2; [|refuse].
  apply get_shared_Some in H1, H2. cbn in H1, H2. cbn.
  apply (consistent_same_census h hs Hcons).
  - apply (addr_ok_insert2 h hs Hcons); eapply (proj1 Hcons); eassumption.
  - intros b. apply census_swap; assumption.
  - intros b. apply census_swap; assumption.
Qed.

Lemma exec_OpDestroy a : exec_post (OpDestroy a) s (exec (OpDestroy a) s).
Proof.
  cbn. destruct (get_shared a s) as [t|] eqn:Ht; [|refuse].
  apply get_shared_Some in Ht. cbn in Ht.
  destruct (consistent_detach_shared h hs Hcons a t Ht) as (h' & Hrun & Hc).
  unfold commit, SharedPtr_dtor; cbn. rewrite Hrun. exact Hc.
Qed.

Lemma exec_OpReset a : exec_post (OpReset a) s (exec (OpReset a) s).
Proof.
  cbn. destruct (get_shared a s) as [t|] eqn:Ht; [|refuse].
  apply get_shared_Some in Ht. cbn in Ht.
  destruct (consistent_detach_shared h hs Hcons a t Ht) as (h' & Hrun & Hc).
  unfold SharedPtr_Reset.
  rewrite (sm_bind_Ok _ _ _ _ _ (read_client a h hs t Ht)).
  rewrite (sm_bind_Ok _ _ _ _ _ (on_heap_Ok _ _ _ _ _ Hrun)).
  rewrite (write_client a h' hs t _ Ht). cbn.
  destruct (consistent_attach_shared h' (delete a hs) Hc a nullptr None)
    as (h'' & Hrun' & Hc'); [apply lookup_delete_eq|eapply (proj1 Hcons), Ht|discriminate|].
  cbn in Hrun'. injection Hrun' as <-.
  rewrite insert_delete_eq in Hc'. exact Hc'.
Qed.

Lemma exec_OpResetPtr a ptr : exec_post (OpResetPtr a ptr) s (exec (OpResetPtr a ptr) s).
Proof.
  cbn. destruct (get_shared a s) as [t|] eqn:Ht; [|refuse].
  apply get_shared_Some in Ht. cbn in Ht.
  unfold SharedPtr_Reset_ptr.
  rewrite (sm_bind_Ok _ _ _ _ _ (read_client a h hs t Ht)).
  destruct (data_ptr_ t =? ptr).
  - cbn. exact Hcons.
  - destruct (consistent_detach_shared h hs Hcons a t Ht) as (h' & Hrun & Hc).
    rewrite (sm_bind_Ok _ _ _ _ _ (on_heap_Ok _ _ _ _ _ Hrun)).
    assert (Haok : addr_ok a = true) by (eapply (proj1 Hcons), Ht).
    destruct (negb (ptr =? nullptr)).
    + rewrite (sm_bind_Ok _ _ _ _ _ (read_client a h' hs t Ht)).
      rewrite (sm_bind_Ok _ _ _ _ _ (write_client a h' hs t _ Ht)).
      pose proof (consistent_place_shared h' (delete a hs) Hc a ptr
                    (PtrControlBlock ptr) (lookup_delete_eq _ _) Haok) as Hplace.
      unfold exec_post, commit, SharedPtr_from_ptr in Hplace.
      unfold mbind at 1, SM_bind at 1, on_heap; cbn [heap handles].
      unfold mbind, M_bind in Hplace. cbn in Hplace.
      unfold new_block; cbn.
      unfold write_shared; cbn. rewrite lookup_insert_eq.
      rewrite insert_insert_eq.
      rewrite insert_delete_eq in Hplace. exact Hplace.
    + rewrite (write_client a h' hs t _ Ht). cbn.
      destruct (consistent_attach_shared h' (delete a hs) Hc a nullptr None)
        as (h'' & Hrun' & Hc'); [apply lookup_delete_eq|exact Haok|discriminate|].
      cbn in Hrun'. injection Hrun' as <-.
      rewrite insert_delete_eq in Hc'. exact Hc'.
Qed.

Lemma exec_OpCopyAssign dst src : exec_post (OpCopyAssign dst src) s (exec (OpCopyAssign dst src) s).
Proof.
  cbn. destruct (get_shared dst s) as [t|] eqn:Ht; [|refuse].
  destruct (get_shared src s) as [[p cb]|] eqn:Hsrc; [|refuse].
  apply get_shared_Some in Ht, Hsrc. cbn in Ht, Hsrc.
  unfold SharedPtr_copy_assign, copy_assign_rest.
  case_decide as Hsame; cbn.
  - exact Hcons.
  - assert (Hne : src ≠ dst) by congruence.
    destruct (consistent_detach_shared h hs Hcons dst t Ht) as (h' & Hrun & Hc).
    rewrite (sm_bind_Ok _ _ _ _ _ (read_client dst h hs t Ht)).
    rewrite (sm_bind_Ok _ _ _ _ _ (on_heap_Ok _ _ _ _ _ Hrun)).
    rewrite (sm_bind_Ok _ _ _ _ _ (read_client src h' hs _ Hsrc)).
    rewrite (sm_bind_Ok _ _ _ _ _ (write_client dst h' hs t _ Ht)).
    destruct (consistent_attach_shared h' (delete dst hs) Hc dst p cb)
      as (h'' & Hrun' & Hc').
    { apply lookup_delete_eq. }
    { eapply (proj1 Hcons), Ht. }
    { intros b ->. eapply census_pos with (a := src).
      - rewrite lookup_delete_ne by congruence. exact Hsrc.
      - cbn. apply bool_decide_eq_true. reflexivity. }
    cbn [data_ptr_ control_block_].
    rewrite (on_heap_Ok _ _ _ _ _ Hrun'). cbn.
    rewrite insert_delete_eq in Hc'. exact Hc'.
Qed.

Lemma exec_OpMoveAssign dst src : exec_post (OpMoveAssign dst src) s (exec (OpMoveAssign dst src) s).
Proof.
  cbn. destruct (get_shared dst s) as [t|] eqn:Ht; [|refuse].
  destruct (get_shared src s) as [[p cb]|] eqn:Hsrc; [|refuse].
  apply get_shared_Some in Ht, Hsrc. cbn in Ht, Hsrc.
  unfold SharedPtr_move_assign.
  case_decide as Hsame; cbn.
  - exact Hcons.
  - assert (Hne : src ≠ dst) by congruence.
    destruct (consistent_detach_shared h hs Hcons dst t Ht) as (h' & Hrun & Hc).
    rewrite (sm_bind_Ok _ _ _ _ _ (read_client dst h hs t Ht)).
    rewrite (sm_bind_Ok _ _ _ _ _ (on_heap_Ok _ _ _ _ _ Hrun)).
    rewrite (sm_bind_Ok _ _ _ _ _ (read_client src h' hs _ Hsrc)).
    rewrite (sm_bind_Ok _ _ _ _ _ (write_client dst h' hs t _ Ht)).
    cbn [data_ptr_ control_block_].
    erewrite write_client
      by (rewrite lookup_insert_ne by congruence; exact Hsrc).
    cbn.
    assert (Hsrc' : delete dst hs !! src = Some (HShared (mkSharedPtr p cb)))
      by (rewrite lookup_delete_ne by congruence; exact Hsrc).
    replace (<[src := HShared (mkSharedPtr nullptr None)]>
               (<[dst := HShared (mkSharedPtr p cb)]> hs))
      with (<[dst := HShared (mkSharedPtr p cb)]>
              (<[src := HShared (mkSharedPtr nullptr None)]> (delete dst hs))).
    2:{ rewrite <- delete_insert_ne by congruence. rewrite insert_delete_eq.
        apply insert_insert_ne. congruence. }
    apply (consistent_same_census h' (delete dst hs) Hc).
    + apply (addr_ok_insert2 h' (delete dst hs) Hc);
        eapply (proj1 Hcons); eassumption.
    + intros b. apply census_move; [exact Hsrc'|apply lookup_delete_eq|reflexivity].
    + intros b. apply census_move; [exact Hsrc'|apply lookup_delete_eq|reflexivity].
Qed.

End ExecShared.

Section ExecWeak.
Context (h : Heap) (hs : gmap Z Handle).
Hypothesis Hcons : consistent (mkState h hs).
Let s := mkState h hs.

Lemma observed_block a p b :
  hs !! a = Some (HWeak (mkWeakPtr p (Some b))) →
  ∃ cb, blocks h !! b = Some cb ∧
        ref_count_ cb = Z.of_nat (census (is_holder b) hs).
Proof.
  intros Ha. pose proof (observer_pos hs a p b Ha) as Hpos.
  destruct (block_inv_allocated _ _ _ _ (proj2 Hcons b)) as (cb & Hcb & _ & Hr & _).
  { unfold holders, observers; cbn. lia. }
  exists cb. split; [exact Hcb|exact Hr].
Qed.

Lemma exec_OpPromote dst src : exec_post (OpPromote dst src) s (exec (OpPromote dst src) s).
Proof.
  cbn. destruct (get_weak src s) as [[p cb]|] eqn:Hsrc; [|refuse].
  apply get_weak_Some in Hsrc. cbn in Hsrc.
  destruct (vacant dst s) eqn:Hv; [|refuse].
  apply vacant_true in Hv as [Ha Hnone]. cbn in Hnone.
  unfold commit, SharedPtr_promote; cbn.
  destruct cb as [b|]; [|reflexivity].
  destruct (observed_block src p b Hsrc) as (cb & Hcb & Hr).
  unfold mbind at 1, M_bind at 1. rewrite (GetCount_Some _ _ _ Hcb).
  destruct (Z.eqb_spec (ref_count_ cb) 0) as [H0|H0]; [reflexivity|].
  destruct (consistent_attach_shared h hs Hcons dst p (Some b) Hnone Ha)
    as (h' & Hrun & Hc).
  { intros b' [= <-]. lia. }
  cbn in Hrun. unfold mbind, M_bind. rewrite Hrun. exact Hc.
Qed.

Lemma exec_OpLock dst src : exec_post (OpLock dst src) s (exec (OpLock dst src) s).
Proof.
  cbn. destruct (get_weak src s) as [[p cb]|] eqn:Hsrc; [|refuse].
  apply get_weak_Some in Hsrc. cbn in Hsrc.
  destruct (vacant dst s) eqn:Hv; [|refuse].
  apply vacant_true in Hv as [Ha Hnone]. cbn in Hnone.
  assert (Hempty : consistent (mkState h (<[dst := HShared SharedPtr_default]> hs))).
  { destruct (consistent_attach_shared h hs Hcons dst nullptr None Hnone Ha)
      as (h' & Hrun & Hc); [discriminate|].
    cbn in Hrun. injection Hrun as <-. exact Hc. }
  unfold commit, Lock; cbn.
  destruct cb as [b|]; [|exact Hempty].
  destruct (observed_block src p b Hsrc) as (cb & Hcb & Hr).
  unfold mbind at 1, M_bind at 1. rewrite (GetCount_Some _ _ _ Hcb).
  destruct (Z.ltb_spec 0 (ref_count_ cb)) as [H0|H0]; [|exact Hempty].
  destruct (consistent_attach_shared h hs Hcons dst p (Some b) Hnone Ha)
    as (h' & Hrun & Hc).
  { intros b' [= <-]. lia. }
  cbn in Hrun. unfold mbind, M_bind. rewrite Hrun. exact Hc.
Qed.

Lemma exec_OpWeakDefault dst : exec_post (OpWeakDefault dst) s (exec (OpWeakDefault dst) s).
Proof.
  cbn. destruct (vacant dst s) eqn:Hv; [|refuse].
  apply vacant_true in Hv as [Ha Hnone]. cbn in Hnone.
  destruct (consistent_attach_weak h hs Hcons dst nullptr None Hnone Ha)
    as (h' & Hrun & Hc); [discriminate|].
  cbn in Hrun. injection Hrun as <-. exact Hc.
Qed.

Lemma exec_OpDemote dst src : exec_post (OpDemote dst src) s (exec (OpDemote dst src) s).
Proof.
  cbn. destruct (get_shared src s) as [[p cb]|] eqn:Hsrc; [|refuse].
  apply get_shared_Some in Hsrc. cbn in Hsrc.
  destruct (vacant dst s) eqn:Hv; [|refuse].
  apply vacant_true in Hv as [Ha Hnone]. cbn in Hnone.
  destruct (consistent_attach_weak h hs Hcons dst p cb Hnone Ha)
    as (h' & Hrun & Hc).
  { intros b ->. pose proof (holder_pos hs src p b Hsrc). lia. }
  unfold commit, WeakPtr_from_shared, mbind, M_bind; cbn. rewrite Hrun. exact Hc.
Qed.

Lemma exec_OpWeakCopy dst src : exec_post (OpWeakCopy dst src) s (exec (OpWeakCopy dst src) s).
Proof.
  cbn. destruct (get_weak src s) as [[p cb]|] eqn:Hsrc; [|refuse].
  apply get_weak_Some in Hsrc. cbn in Hsrc.
  destruct (vacant dst s) eqn:Hv; [|refuse].
  apply vacant_true in Hv as [Ha Hnone]. cbn in Hnone.
  destruct (consistent_attach_weak h hs Hcons dst p cb Hnone Ha)
    as (h' & Hrun & Hc).
  { intros b ->. pose proof (observer_pos hs src p b Hsrc). lia. }
  unfold commit, WeakPtr_copy, mbind, M_bind; cbn. rewrite Hrun. exact Hc.
Qed.

Lemma exec_OpWeakMove dst src : exec_post (OpWeakMove dst src) s (exec (OpWeakMove dst src) s).
Proof.
  cbn. destruct (get_weak src s) as [[p cb]|] eqn:Hsrc; [|refuse].
  apply get_weak_Some in Hsrc. cbn in Hsrc.
  destruct (vacant dst s) eqn:Hv; [|refuse].
  apply vacant_true in Hv as [Ha Hnone]. cbn in Hnone. cbn.
  apply (consistent_same_census h hs Hcons).
  - apply (addr_ok_insert2 h hs Hcons); [exact Ha|]. eapply (proj1 Hcons), Hsrc.
  - intros b. apply census_move; try assumption. reflexivity.
  - intros b. apply census_move; try assumption. reflexivity.
Qed.

Lemma exec_OpWeakSwap a1 a2 : exec_post (OpWeakSwap a1 a2) s (exec (OpWeakSwap a1 a2) s).
Proof.
  cbn. destruct (get_weak a1 s) as [[p1 cb1]|] eqn:H1; [|refuse].
  destruct (get_weak a2 s) as [[p2 cb2]|] eqn:H2; [|refuse].
  apply get_weak_Some in H1, H2. cbn in H1, H2. cbn.
  apply (consistent_same_census h hs Hcons).
  - apply (addr_ok_insert2 h hs Hcons); eapply (proj1 Hcons); eassumption.
  - intros b. apply census_swap; assumption.
  - intros b. apply census_swap; assumption.
Qed.

Lemma exec_OpWeakDestroy a : exec_post (OpWeakDestroy a) s (exec (OpWeakDestroy a) s).
Proof.
  cbn. destruct (get_weak a s) as [t|] eqn:Ht; [|refuse].
  apply get_weak_Some in Ht. cbn in Ht.
  destruct (consistent_detach_weak h hs Hcons a t Ht) as (h' & Hrun & Hc).
  unfold commit, WeakPtr_dtor; cbn. rewrite Hrun. exact Hc.
Qed.

Lemma exec_OpWeakReset a : exec_post (OpWeakReset a) s (exec (OpWeakReset a) s).
Proof.
  cbn. destruct (get_weak a s) as [t|] eqn:Ht; [|refuse].
  apply get_weak_Some in Ht. cbn in Ht.
  destruct (consistent_detach_weak h hs Hcons a t Ht) as (h' & Hrun & Hc).
  unfold commit, WeakPtr_Reset, mbind, M_bind; cbn. rewrite Hrun; cbn.
  destruct (consistent_attach_weak h' (delete a hs) Hc a nullptr None)
    as (h'' & Hrun' & Hc'); [apply lookup_delete_eq|eapply (proj1 Hcons), Ht|discriminate|].
  cbn in Hrun'. injection Hrun' as <-.
  rewrite insert_delete_eq in Hc'. exact Hc'.
Qed.

Lemma exec_OpWeakCopyAssign dst src : exec_post (OpWeakCopyAssign dst src) s (exec (OpWeakCopyAssign dst src) s).
Proof.
  cbn. destruct (get_weak dst s) as [t|] eqn:Ht; [|refuse].
  destruct (get_weak src s) as [[p cb]|] eqn:Hsrc; [|refuse].
  apply get_weak_Some in Ht, Hsrc. cbn in Ht, Hsrc.
  unfold commit, WeakPtr_copy_assign; cbn.
  case_bool_decide as Hsame; cbn.
  - rewrite insert_id by exact Ht. exact Hcons.
  - destruct (consistent_detach_weak h hs Hcons dst t Ht) as (h' & Hrun & Hc).
    unfold mbind, M_bind. rewrite Hrun.
    destruct (consistent_attach_weak h' (delete dst hs) Hc dst p cb)
      as (h'' & Hrun' & Hc').
    { apply lookup_delete_eq. }
    { eapply (proj1 Hcons), Ht. }
    { intros b ->.
      assert (0 < census (is_observer b) (delete dst hs))%nat; [|lia].
      eapply census_pos with (a := src).
      - rewrite lookup_delete_ne by congruence. exact Hsrc.
      - cbn. apply bool_decide_eq_true. reflexivity. }
    rewrite Hrun'. cbn. rewrite insert_delete_eq in Hc'. exact Hc'.
Qed.

Lemma exec_OpWeakMoveAssign dst src : exec_post (OpWeakMoveAssign dst src) s (exec (OpWeakMoveAssign dst src) s).
Proof.
  cbn. destruct (get_weak dst s) as [t|] eqn:Ht; [|refuse].
  destruct (get_weak src s) as [[p cb]|] eqn:Hsrc; [|refuse].
  apply get_weak_Some in Ht, Hsrc. cbn in Ht, Hsrc.
  unfold commit, WeakPtr_move_assign; cbn.
  case_bool_decide as Hsame; cbn.
  - subst src. rewrite insert_insert_eq, insert_id by exact Ht. exact Hcons.
  - destruct (consistent_detach_weak h hs Hcons dst t Ht) as (h' & Hrun & Hc).
    unfold mbind, M_bind. rewrite Hrun. cbn.
    assert (Hsrc' : delete dst hs !! src = Some (HWeak (mkWeakPtr p cb)))
      by (rewrite lookup_delete_ne by congruence; exact Hsrc).
    replace (<[dst := HWeak (mkWeakPtr p cb)]>
               (<[src := HWeak (mkWeakPtr nullptr None)]> hs))
      with (<[dst := HWeak (mkWeakPtr p cb)]>
              (<[src := HWeak (mkWeakPtr nullptr None)]> (delete dst hs))).
    2:{ rewrite <- delete_insert_ne by congruence. apply insert_delete_eq. }
    apply (consistent_same_census h' (delete dst hs) Hc).
    + apply (addr_ok_insert2 h' (delete dst hs) Hc);
        eapply (proj1 Hcons); eassumption.
    + intros b. apply census_move; [exact Hsrc'|apply lookup_delete_eq|reflexivity].
    + intros b. apply census_move; [exact Hsrc'|apply lookup_delete_eq|reflexivity].
Qed.
End ExecWeak.

Lemma exec_consistent o s : consistent s → exec_post o s (exec o s).
Proof.
  destruct s as [h hs]. intros Hc.
  destruct o.
  - apply exec_OpDefault, Hc.
  - apply exec_OpFromPtr, Hc.
  - apply exec_OpMakeShared, Hc.
  - apply exec_OpCopy, Hc.
  - apply exec_OpMove, Hc.
  - apply exec_OpAlias, Hc.
  - apply exec_OpPromote, Hc.
  - apply exec_OpCopyAssign, Hc.
  - apply exec_OpMoveAssign, Hc.
  - apply exec_OpReset, Hc.
  - apply exec_OpResetPtr, Hc.
  - apply exec_OpSwap, Hc.
  - apply exec_OpDestroy, Hc.
  - apply exec_OpWeakDefault, Hc.
  - apply exec_OpDemote, Hc.
  - apply exec_OpWeakCopy, Hc.
  - apply exec_OpWeakMove, Hc.
  - apply exec_OpWeakCopyAssign, Hc.
  - apply exec_OpWeakMoveAssign, Hc.
  - apply exec_OpWeakReset, Hc.
  - apply exec_OpWeakSwap, Hc.
  - apply exec_OpLock, Hc.
  - apply exec_OpWeakDestroy, Hc.
Qed.

Lemma run_consistent ops : ∀ s s', consistent s → run ops s = Some s' → consistent s'.
Proof.
  induction ops as [|o ops IH]; intros s s' Hc Hrun; cbn in Hrun.
  - injection Hrun as <-. exact Hc.
  - pose proof (exec_consistent o s Hc) as Hpost.
    destruct (exec o s) as [[] s1|e s1|f s1]; cbn in Hrun, Hpost.
    + eapply IH; eassumption.
    + subst s1. eapply IH; eassumption.
    + discriminate.
Qed.

Lemma run_app ops1 ops2 s :
  run (ops1 ++ ops2) s =
    match run ops1 s with Some s' => run ops2 s' | None => None end.
Proof.
  revert s. induction ops1 as [|o ops1 IH]; intros s; cbn; [reflexivity|].
  destruct (continue (exec o s)); [apply IH|reflexivity].
Qed.

Lemma reachable_consistent s : reachable s → consistent s.
Proof. intros [ops Hrun]. eapply run_consistent; [apply consistent_init|exact Hrun]. Qed.

(** A handle operation on a reachable state never touches a released block. *)
Lemma exec_no_use_after_free o s b s' :
  reachable s → exec o s ≠ Fault (UseAfterFree b) s'.
Proof.
  intros Hr Hex. pose proof (exec_consistent o s (reachable_consistent s Hr)) as Hp.
  rewrite Hex in Hp. destruct Hp as [Hp _]. discriminate.
Qed.

(** A well-formed handle operation on a reachable state always completes,
    normally or by raising [BadWeakPtr]. *)
Lemma exec_progress o s :
  reachable s → well_formed o s = true →
  ∃ s', continue (exec o s) = Some s' ∧ reachable s'.
Proof.
  intros [ops Hrun] Hwf.
  pose proof (exec_consistent o s (reachable_consistent s (ex_intro _ ops Hrun))) as Hp.
  destruct (exec o s) as [[] s1|e s1|f s1] eqn:Hex; cbn in Hp.
  - exists s1. split; [reflexivity|]. exists (ops ++ [o]).
    rewrite run_app, Hrun. cbn. rewrite Hex. reflexivity.
  - exists s1. split; [reflexivity|]. exists (ops ++ [o]).
    rewrite run_app, Hrun. cbn. rewrite Hex. reflexivity.
  - destruct Hp as (_ & _ & Hp). congruence.
Qed.

(** In programs whose payloads own no handles, the block is released exactly
    once, when the last handle of either kind is gone. *)
Lemma release_exactly_once s b :
  reachable s → (b < next_block (heap s))%nat →
  releases b (heap s) =
    (if decide (holders b s = 0%nat ∧ observers b s = 0%nat) then 1%nat else 0%nat) ∧
  (blocks (heap s) !! b = None ↔ holders b s = 0%nat ∧ observers b s = 0%nat).
Proof.
  intros Hr Hb. pose proof (proj2 (reachable_consistent s Hr) b) as Hinv.
  unfold block_inv in Hinv.
  destruct (blocks (heap s) !! b) as [cb|].
  - destruct Hinv as (_ & Hpos & _ & _ & _ & _ & Hrel).
    rewrite Hrel, decide_False by lia. split; [reflexivity|].
    split; [discriminate|lia].
  - destruct Hinv as (HN & HW & _ & Hrel).
    rewrite Hrel, !decide_True by (assumption || split; assumption).
    split; [reflexivity|]. split; [intros _; split; assumption|reflexivity].
Qed.

(** [DecrementStrong] on a block of a reachable state runs the hook exactly
    when the count is 1. *)
Lemma DecrementStrong_reachable s b cb :
  reachable s → blocks (heap s) !! b = Some cb →
  ref_count_ cb = Z.of_nat (holders b s) ∧
  ∃ h', DecrementStrong b (heap s) = Ok tt h' ∧
        teardowns b h' =
          (teardowns b (heap s) + (if (ref_count_ cb =? 1)%Z then 1 else 0))%nat.
Proof.
  intros Hr Hcb. pose proof (reachable_consistent s Hr) as Hc.
  pose proof (proj2 Hc b) as Hinv. unfold block_inv in Hinv. rewrite Hcb in Hinv.
  destruct Hinv as (_ & Hpos & Href & Hweak & Hp & Ht & _).
  split; [exact Href|].
  eexists. split; [apply (DecrementStrong_Some _ _ _ Hcb Hp)|].
  unfold heap_after_DecrementStrong.
  assert (Hrange : 0 ≤ ref_count_ cb < SIZE_MOD).
  { rewrite Href. destruct s as [h hs].
    pose proof (census_bound h hs Hc (is_holder b)). unfold holders. cbn. lia. }
  rewrite wrap_pred_eq_0 by exact Hrange.
  destruct (ref_count_ cb =? 1); [destruct (weak_count_ cb =? 0)|];
    unfold teardowns; cbn [log]; rewrite ?occurrences_snoc;
    repeat case_decide; congruence || lia.
Qed.

(** X22.  Programs whose payloads own no handles: in every state reached by
    handle operations on the client's handle objects, and for every block [b]
    allocated so far: while the block exists its strong count is the number of
    shared handles holding it; the teardown hook of [b] has run exactly once
    if no shared handle holds [b] any more and has not run at all while one
    does; a [DecrementStrong] on [b] runs the hook exactly when it takes the
    count from 1 to 0; and so the destruction of a shared handle that holds
    [b] runs the hook exactly when that handle is the last one. *)
Theorem teardown_exactly_once s b :
  reachable s → (b < next_block (heap s))%nat →
  (∀ cb, blocks (heap s) !! b = Some cb →
         ref_count_ cb = Z.of_nat (holders b s)) ∧
  teardowns b (heap s) = (if decide (holders b s = 0%nat) then 1%nat else 0%nat) ∧
  (∀ cb, blocks (heap s) !! b = Some cb →
         ∃ h', DecrementStrong b (heap s) = Ok tt h' ∧
               teardowns b h' =
                 (teardowns b (heap s) + (if (ref_count_ cb =? 1)%Z then 1 else 0))%nat) ∧
  (∀ a this, handles s !! a = Some (HShared this) → control_block_ this = Some b →
         ∃ s', exec (OpDestroy a) s = Ok tt s' ∧
               teardowns b (heap s') =
                 (teardowns b (heap s) +
                  (if decide (holders b s = 1%nat) then 1 else 0))%nat).
Proof.
  intros Hr Hb. pose proof (reachable_consistent s Hr) as Hc.
  pose proof (proj2 Hc b) as Hinv. unfold block_inv in Hinv.
  split; [|split; [|split]].
  - intros cb Hcb. apply (DecrementStrong_reachable s b cb Hr Hcb).
  - destruct (blocks (heap s) !! b) as [cb|].
    + apply Hinv.
    + destruct Hinv as (HN & _ & Ht & _).
      rewrite Ht, HN, decide_True by exact Hb. reflexivity.
  - intros cb Hcb. apply (DecrementStrong_reachable s b cb Hr Hcb).
  - intros a this Ha Hthis.
    assert (Hheld : (0 < holders b s)%nat).
    { eapply census_pos; [exact Ha|]. cbn. rewrite Hthis.
      apply bool_decide_eq_true. reflexivity. }
    destruct (blocks (heap s) !! b) as [cb|] eqn:Hcb; [|lia].
    destruct (DecrementStrong_reachable s b cb Hr Hcb) as (Href & h' & Hrun & Ht).
    exists (mkState h' (delete a (handles s))). split.
    + unfold exec, get_shared. rewrite Ha.
      unfold commit, SharedPtr_dtor. rewrite Hthis. cbn [if_block].
      rewrite Hrun. reflexivity.
    + cbn [heap]. rewrite Ht, Href.
      destruct (Z.eqb_spec (Z.of_nat (holders b s)) 1);
        destruct (decide (holders b s = 1%nat)); lia.
Qed.

Lemma teardown_exactly_once_witness :
  ∃ s, run [OpFromPtr 1 100; OpCopy 2 1; OpDestroy 1; OpDestroy 2] init = Some s ∧
       teardowns 0 (heap s) = 1%nat.
Proof.
  eexists. split; [vm_compute; reflexivity|].
  assert (Hr : reachable
                 (mkState (mkHeap ∅ 1 [EvOnZeroReferences 0%nat; EvDeleteThis 0%nat]) ∅)).
  { exists [OpFromPtr 1 100; OpCopy 2 1; OpDestroy 1; OpDestroy 2].
    vm_compute. reflexivity. }
  exact (proj1 (proj2 (teardown_exactly_once _ 0%nat Hr ltac:(cbn; lia)))).
Defined.

Lemma SIZE_MAX_pos : 0 < SIZE_MAX.
Proof. unfold SIZE_MAX. pose proof SIZE_MOD_gt_1. lia. Qed.

(** C10.  [DecrementStrong] on a block whose strong count is already 0 leaves
    the count at [SIZE_MAX = 2 ^ 64 - 1], runs neither the teardown hook nor
    [delete this] (the log is unchanged and the block stays allocated);
    [DecrementWeak] on a weak count of 0 likewise wraps to [SIZE_MAX] and
    does not release the block. *)
Theorem decrement_at_zero_wraps h b cb :
  blocks h !! b = Some cb →
  (ref_count_ cb = 0 →
     DecrementStrong b h =
       Ok tt (mkHeap (<[b := set_ref_count SIZE_MAX cb]> (blocks h))
                     (next_block h) (log h))) ∧
  (weak_count_ cb = 0 →
     DecrementWeak b h =
       Ok tt (mkHeap (<[b := set_weak_count SIZE_MAX cb]> (blocks h))
                     (next_block h) (log h))).
Proof.
  intros Hcb. pose proof SIZE_MAX_pos as Hmax. split; intros H0.
  - unfold DecrementStrong. cbn [DecrementStrong_within].
    rewrite (bind_Ok _ _ _ _ _ (load_Some _ _ _ Hcb)). cbv zeta.
    rewrite (bind_Ok _ _ _ _ _ (store_Some _ _ _ _ Hcb)).
    rewrite H0, wrap_pred_zero.
    destruct (Z.eqb_spec SIZE_MAX 0); [lia|reflexivity].
  - rewrite (DecrementWeak_Some _ _ _ Hcb). unfold heap_after_DecrementWeak.
    rewrite H0, wrap_pred_zero.
    destruct (Z.eqb_spec SIZE_MAX 0); [lia|reflexivity].
Qed.

Lemma decrement_at_zero_wraps_witness :
  DecrementStrong 0
    (mkHeap {[ 0%nat := mkControlBlock 0 0 (PtrControlBlock 100) [] ]} 1 []) =
    Ok tt (mkHeap {[ 0%nat := mkControlBlock SIZE_MAX 0 (PtrControlBlock 100) [] ]} 1 []) ∧
  DecrementWeak 0
    (mkHeap {[ 0%nat := mkControlBlock 0 0 (PtrControlBlock 100) [] ]} 1 []) =
    Ok tt (mkHeap {[ 0%nat := mkControlBlock 0 SIZE_MAX (PtrControlBlock 100) [] ]} 1 []).
Proof.
  destruct (decrement_at_zero_wraps
              (mkHeap {[ 0%nat := mkControlBlock 0 0 (PtrControlBlock 100) [] ]} 1 [])
              0%nat (mkControlBlock 0 0 (PtrControlBlock 100) []))
    as [Hs Hw]; [reflexivity|].
  split.
  - rewrite (Hs eq_refl). cbn. rewrite insert_singleton_eq. reflexivity.
  - rewrite (Hw eq_refl). cbn. rewrite insert_singleton_eq. reflexivity.
Defined.

(** C9.  [SharedPtr(T* ptr)] called with a null [ptr] still allocates a
    [PtrControlBlock] with strong count 1: the handle converts to [false]
    although [UseCount] returns 1. *)
Theorem null_pointer_handle_owns_block h :
  ∃ r h', SharedPtr_from_ptr nullptr h = Ok r h' ∧
          control_block_ r = Some (next_block h) ∧
          blocks h' !! next_block h =
            Some (mkControlBlock 1 0 (PtrControlBlock nullptr) []) ∧
          SharedPtr_bool r = false ∧
          SharedPtr_UseCount r h' = Ok 1 h'.
Proof.
  eexists. eexists. split; [reflexivity|]. cbn.
  split; [reflexivity|]. split; [apply lookup_insert_eq|]. split; [reflexivity|].
  unfold GetCount, mbind, M_bind, load; cbn. rewrite lookup_insert_eq. reflexivity.
Qed.

(** C7.  [operator==] on two handles is true exactly when their payload
    pointers are equal; the control blocks play no part in it. *)
Theorem equality_is_pointer_identity left right :
  (SharedPtr_eq left right = true ↔ data_ptr_ left = data_ptr_ right) ∧
  (∀ b1 b2, SharedPtr_eq (mkSharedPtr (data_ptr_ left) b1)
                         (mkSharedPtr (data_ptr_ right) b2)
            = SharedPtr_eq left right).
Proof.
  split.
  - unfold SharedPtr_eq, Get. apply Z.eqb_eq.
  - intros b1 b2. reflexivity.
Qed.

(** C3.  For a weak handle of a reachable program state (with room left for
    the handle object that is returned): when the observed strong count is 0,
    or no block is observed, [Lock] returns an empty handle and changes
    nothing, and the promoting constructor raises [BadWeakPtr]; when the
    observed strong count is positive, [Lock] returns the handle made of the
    observed payload pointer and block, the strong count afterwards is
    exactly one more than before, and the promoting constructor does the
    same as [Lock]. *)
Theorem Lock_and_promotion s src dst this :
  reachable s → handles s !! src = Some (HWeak this) → vacant dst s = true →
  ∃ c, WeakPtr_UseCount this (heap s) = Ok c (heap s) ∧ 0 ≤ c ∧
    (c = 0 →
       Lock this (heap s) = Ok SharedPtr_default (heap s) ∧
       SharedPtr_promote this (heap s) = Raise BadWeakPtr (heap s)) ∧
    (0 < c →
       ∃ b h', observe_cb_ this = Some b ∧
         Lock this (heap s) =
           Ok (mkSharedPtr (observe_data_ptr_ this) (Some b)) h' ∧
         GetCount b h' = Ok (c + 1) h' ∧
         SharedPtr_promote this (heap s) = Lock this (heap s)).
Proof.
  intros Hr Hsrc Hv. destruct s as [h hs]. cbn [heap handles] in *.
  pose proof (reachable_consistent _ Hr) as Hc.
  apply vacant_true in Hv as [Ha Hnone]. cbn in Hnone.
  destruct this as [p [b|]]; cbn [WeakPtr_UseCount observe_cb_ observe_data_ptr_].
  - destruct (observed_block h hs Hc src p b Hsrc) as (cb & Hcb & Href).
    exists (ref_count_ cb). split; [apply (GetCount_Some _ _ _ Hcb)|].
    split; [lia|].
    unfold Lock, SharedPtr_promote; cbn [observe_cb_ observe_data_ptr_].
    rewrite !(bind_Ok _ _ _ _ _ (GetCount_Some _ _ _ Hcb)).
    split.
    + intros H0. rewrite H0. split; reflexivity.
    + intros Hpos.
      destruct (Z.ltb_spec 0 (ref_count_ cb)); [|lia].
      destruct (Z.eqb_spec (ref_count_ cb) 0); [lia|].
      exists b. eexists. split; [reflexivity|].
      rewrite !(bind_Ok _ _ _ _ _ (IncrementStrong_Some _ _ _ Hcb)).
      split; [reflexivity|]. split; [|reflexivity].
      erewrite GetCount_Some by (cbn; apply lookup_insert_eq). cbn.
      rewrite wrap_small; [reflexivity|].
      pose proof (census_bound_vacant h hs Hc (is_holder b) dst Ha Hnone). lia.
  - exists 0. split; [reflexivity|]. split; [lia|]. split.
    + intros _. split; reflexivity.
    + lia.
Qed.

Lemma Lock_and_promotion_witness :
  ∃ s this,
    run [OpMakeShared 1 500; OpDemote 2 1] init = Some s ∧
    handles s !! 2 = Some (HWeak this) ∧
    ∃ h', Lock this (heap s) = Ok (mkSharedPtr 500 (Some 0%nat)) h' ∧
          GetCount 0 h' = Ok 2 h'.
Proof.
  eexists. exists (mkWeakPtr 500 (Some 0%nat)).
  split; [vm_compute; reflexivity|]. split; [vm_compute; reflexivity|].
  edestruct (Lock_and_promotion
               (mkState (mkHeap {[ 0%nat := mkControlBlock 1 1 (ObjectControlBlock 500) [] ]} 1 [])
                        (<[2 := HWeak (mkWeakPtr 500 (Some 0%nat))]>
                           (<[1 := HShared (mkSharedPtr 500 (Some 0%nat))]> ∅)))
               2 3 (mkWeakPtr 500 (Some 0%nat)))
    as (c & Hc & _ & _ & Hpos).
  - exists [OpMakeShared 1 500; OpDemote 2 1]. vm_compute. reflexivity.
  - vm_compute. reflexivity.
  - vm_compute. reflexivity.
  - assert (c = 1) as -> by (vm_compute in Hc; congruence).
    destruct (Hpos ltac:(lia)) as (b & h' & Hb & HL & HG & _).
    cbn in Hb. injection Hb as <-. exists h'. split; [exact HL|exact HG].
Defined.

(** C6.  Demoting a shared handle [x] whose block (if any) is allocated gives
    a weak handle [w] such that, in any later heap in which [w] still
    observes a positive strong count, [Lock] succeeds and returns a handle
    whose [Get] is the payload pointer of [x]. *)
Theorem demote_lock_roundtrip (x : SharedPtr) h :
  (∀ b, control_block_ x = Some b → is_Some (blocks h !! b)) →
  ∃ w h1, WeakPtr_from_shared x h = Ok w h1 ∧
    ∀ h2 c, WeakPtr_UseCount w h2 = Ok c h2 → 0 < c →
      ∃ r h3, Lock w h2 = Ok r h3 ∧ Get r = Get x.
Proof.
  intros Halloc. destruct x as [p [b|]]; cbn in *.
  - destruct (Halloc b eq_refl) as [cb Hcb].
    unfold WeakPtr_from_shared; cbn.
    rewrite (bind_Ok _ _ _ _ _ (IncrementWeak_Some _ _ _ Hcb)).
    eexists. eexists. split; [reflexivity|].
    intros h2 c Hcount Hpos. cbn in Hcount.
    unfold GetCount, mbind, M_bind, load in Hcount.
    destruct (blocks h2 !! b) as [cb2|] eqn:Hcb2; [|discriminate].
    cbn in Hcount. injection Hcount as Hc.
    unfold Lock; cbn.
    rewrite (bind_Ok _ _ _ _ _ (GetCount_Some _ _ _ Hcb2)).
    rewrite Hc. destruct (Z.ltb_spec 0 c); [|lia].
    rewrite (bind_Ok _ _ _ _ _ (IncrementStrong_Some _ _ _ Hcb2)).
    eexists. eexists. split; reflexivity.
  - eexists. eexists. split; [reflexivity|].
    intros h2 c Hcount Hpos. cbn in Hcount. injection Hcount as <-. lia.
Qed.

Lemma demote_lock_roundtrip_witness :
  ∃ w h1, WeakPtr_from_shared (mkSharedPtr 100 (Some 0%nat))
                              (heap_with_new_block 100) = Ok w h1 ∧
    ∃ r h3, Lock w h1 = Ok r h3 ∧ Get r = 100.
Proof.
  destruct (demote_lock_roundtrip (mkSharedPtr 100 (Some 0%nat))
              (heap_with_new_block 100))
    as (w & h1 & Hw & HL).
  { intros b [= <-]. vm_compute. eexists. reflexivity. }
  exists w, h1. split; [exact Hw|].
  vm_compute in Hw. injection Hw as <- <-.
  apply (HL _ 1); [vm_compute; reflexivity|lia].
Defined.

(** ** The two scenarios of the specification *)

(** Factory, copy, destroy both: the count goes 2, 1, then the payload is
    torn down and the block released. *)
Example scenario_factory_copy_destroy :
  (λ s, counts (heap s) 0%nat) <$> run [OpMakeShared 1 500; OpCopy 2 1] init
    = Some (Some (2, 0)) ∧
  (λ s, counts (heap s) 0%nat) <$> run [OpMakeShared 1 500; OpCopy 2 1; OpDestroy 1] init
    = Some (Some (1, 0)) ∧
  (λ s, (counts (heap s) 0%nat, log (heap s)))
    <$> run [OpMakeShared 1 500; OpCopy 2 1; OpDestroy 1; OpDestroy 2] init
    = Some (None, [EvOnZeroReferences 0%nat; EvDeleteThis 0%nat]).
Proof. repeat split; vm_compute; reflexivity. Qed.

(** Construct, demote, destroy the shared handle: the payload is torn down,
    the block stays; the weak handle is expired and locks to an empty
    handle; destroying the weak handle releases the block. *)
Example scenario_demote_expire :
  (λ s, (counts (heap s) 0%nat, log (heap s)))
    <$> run [OpFromPtr 1 100; OpDemote 2 1; OpDestroy 1] init
    = Some (Some (0, 1), [EvOnZeroReferences 0%nat]) ∧
  (λ s, handles s !! 3)
    <$> run [OpFromPtr 1 100; OpDemote 2 1; OpDestroy 1; OpLock 3 2] init
    = Some (Some (HShared SharedPtr_default)) ∧
  (λ s, (counts (heap s) 0%nat, log (heap s)))
    <$> run [OpFromPtr 1 100; OpDemote 2 1; OpDestroy 1; OpLock 3 2; OpWeakDestroy 2] init
    = Some (None, [EvOnZeroReferences 0%nat; EvDeleteThis 0%nat]).
Proof. repeat split; vm_compute; reflexivity. Qed.

(** ** [Reset] and move assignment *)

Lemma release_plain_block block h :
  owns_plain_block block h →
  ∃ h', if_block block DecrementStrong h = Ok tt h' ∧
        next_block h' = next_block h ∧
        (∀ b, block ≠ Some b → blocks h' !! b = blocks h !! b) ∧
        (∀ b cb, block = Some b → blocks h !! b = Some cb →
                 blocks h' !! b = block_after_release cb).
Proof.
  intros Hown. destruct block as [b0|]; cbn [if_block].
  - destruct (Hown b0 eq_refl) as (Hlt & cb & Hcb & Hp).
    exists (heap_after_DecrementStrong b0 cb h).
    split; [apply (DecrementStrong_Some _ _ _ Hcb Hp)|].
    unfold heap_after_DecrementStrong, block_after_release.
    split; [|split].
    + destruct (_ =? 0); [destruct (_ =? 0)|]; reflexivity.
    + intros b Hne. assert (b0 ≠ b) by congruence.
      destruct (_ =? 0); [destruct (_ =? 0)|]; cbn [blocks];
        rewrite ?lookup_delete_ne, ?lookup_insert_ne by assumption; reflexivity.
    + intros b cb' [= <-] Hcb'. assert (cb' = cb) as -> by congruence.
      destruct (wrap (ref_count_ cb - 1) =? 0); [destruct (weak_count_ cb =? 0)|];
        cbn [blocks andb];
        rewrite ?lookup_delete_eq, ?lookup_insert_eq; reflexivity.
  - exists h. split; [reflexivity|]. split; [reflexivity|].
    split; [reflexivity|]. intros b cb [=].
Qed.

(** *** Handle objects read and written by reference *)

Lemma holds_Client a y s :
  holds (Client a) y s ↔ handles s !! a = Some (HShared y).
Proof.
  unfold holds, read_shared. split.
  - destruct (handles s !! a) as [[?|?]|]; congruence.
  - intros ->. reflexivity.
Qed.

Lemma holds_Member b i y s :
  holds (Member b i) y s ↔
  ∃ cb, blocks (heap s) !! b = Some cb ∧ payload_members cb !! i = Some (HShared y).
Proof.
  unfold holds, read_shared, members_of. split.
  - destruct (blocks (heap s) !! b) as [cb|]; cbn.
    + destruct (payload_members cb !! i) as [[?|?]|] eqn:E; try discriminate.
      intros [= ->]. eauto.
    + discriminate.
  - intros (cb & -> & ->). reflexivity.
Qed.

(** A handle object keeps its value when the members of the payload it
    belongs to stay as they are. *)
Lemma holds_frame_members p y s h' :
  holds p y s →
  (∀ b i, p = Member b i → members_of b h' = members_of b (heap s)) →
  holds p y (mkState h' (handles s)).
Proof.
  intros Hp Hsame. destruct p as [a|b i]; unfold holds, read_shared in *; cbn.
  - destruct (handles s !! a) as [[?|?]|]; congruence.
  - rewrite (Hsame b i eq_refl).
    destruct (members_of b (heap s) !! i) as [[?|?]|]; congruence.
Qed.

Lemma holds_frame p y s h' :
  holds p y s →
  (∀ b i, p = Member b i → blocks h' !! b = blocks (heap s) !! b) →
  holds p y (mkState h' (handles s)).
Proof.
  intros Hp Hsame. apply holds_frame_members; [exact Hp|].
  intros b i Hbi. unfold members_of. rewrite (Hsame b i Hbi). reflexivity.
Qed.

(** A member of a payload is no member of a payload that owns no handles. *)
Lemma holds_not_in_plain p y s block b i :
  holds p y s → owns_plain_block block (heap s) → block = Some b → p ≠ Member b i.
Proof.
  intros Hp Hown Hb ->. destruct (Hown b Hb) as (_ & cb & Hcb & Hplain).
  apply holds_Member in Hp as (cb' & Hcb' & Hi).
  assert (cb' = cb) as -> by congruence. rewrite Hplain in Hi. discriminate.
Qed.

Lemma write_shared_holds p v x s :
  holds p x s →
  ∃ s', write_shared p v s = Ok tt s' ∧ holds p v s' ∧
        next_block (heap s') = next_block (heap s) ∧
        log (heap s') = log (heap s) ∧
        (∀ b, counts (heap s') b = counts (heap s) b) ∧
        (∀ b, (∀ i, p ≠ Member b i) → blocks (heap s') !! b = blocks (heap s) !! b) ∧
        (∀ q y, q ≠ p → holds q y s → holds q y s').
Proof.
  intros Hp. destruct p as [a|b i].
  - apply holds_Client in Hp. eexists. split.
    { unfold write_shared. rewrite Hp. reflexivity. }
    split; [apply holds_Client; cbn; apply lookup_insert_eq|].
    do 4 (split; [reflexivity|]).
    intros [a'|b' i'] y Hq Hy.
    + apply holds_Client. apply holds_Client in Hy. cbn.
      rewrite lookup_insert_ne by congruence. exact Hy.
    + apply holds_Member. apply holds_Member in Hy. exact Hy.
  - apply holds_Member in Hp as (cb & Hcb & Hi). eexists. split.
    { unfold write_shared. rewrite Hcb, Hi. reflexivity. }
    assert (Hlt : (i < length (payload_members cb))%nat)
      by (eapply lookup_lt_Some; exact Hi).
    split.
    { apply holds_Member. eexists. cbn. rewrite lookup_insert_eq.
      split; [reflexivity|]. cbn. apply list_lookup_insert_eq. exact Hlt. }
    do 2 (split; [reflexivity|]).
    split.
    { intros b'. unfold counts; cbn. destruct (decide (b' = b)) as [->|Hne].
      - rewrite lookup_insert_eq, Hcb. reflexivity.
      - rewrite lookup_insert_ne by congruence. reflexivity. }
    split.
    { intros b' Hb'. cbn. rewrite lookup_insert_ne; [reflexivity|].
      intros <-. apply (Hb' i). reflexivity. }
    intros [a'|b' i'] y Hq Hy.
    + apply holds_Client. apply holds_Client in Hy. exact Hy.
    + apply holds_Member. apply holds_Member in Hy as (cb' & Hcb' & Hi'). cbn.
      destruct (decide (b' = b)) as [->|Hne].
      * assert (cb' = cb) as -> by congruence.
        rewrite lookup_insert_eq. eexists. split; [reflexivity|]. cbn.
        rewrite list_lookup_insert_ne by congruence. exact Hi'.
      * rewrite lookup_insert_ne by congruence. eauto.
Qed.

Lemma SharedPtr_eta (y : SharedPtr) : mkSharedPtr (data_ptr_ y) (control_block_ y) = y.
Proof. destruct y; reflexivity. Qed.

(** The release with which assignment and [Reset] begin, for a destination
    whose block manages a payload that owns no handles: every handle object
    is still there afterwards. *)
Lemma release_keeps_handles x s :
  owns_plain_block (control_block_ x) (heap s) →
  ∃ h1, on_heap (if_block (control_block_ x) DecrementStrong) s
          = Ok tt (mkState h1 (handles s)) ∧
        next_block h1 = next_block (heap s) ∧
        (∀ b, control_block_ x ≠ Some b → blocks h1 !! b = blocks (heap s) !! b) ∧
        (∀ b cb, control_block_ x = Some b → blocks (heap s) !! b = Some cb →
                 blocks h1 !! b = block_after_release cb) ∧
        (∀ p y, holds p y s → holds p y (mkState h1 (handles s))).
Proof.
  intros Hown.
  destruct (release_plain_block _ _ Hown) as (h1 & Hrun & Hnext & Hother & Hdec).
  exists h1. split; [destruct s; apply (on_heap_Ok _ _ _ _ _ Hrun)|].
  split; [exact Hnext|]. split; [exact Hother|]. split; [exact Hdec|].
  intros p y Hp. apply holds_frame; [exact Hp|].
  intros b i ->. apply Hother. intros Hb.
  exact (holds_not_in_plain _ _ _ _ b i Hp Hown Hb eq_refl).
Qed.

Lemma new_block_state k s :
  on_heap (new_block k) s =
    Ok (next_block (heap s))
       (mkState (mkHeap (<[next_block (heap s) := mkControlBlock 1 0 k []]>
                           (blocks (heap s)))
                        (S (next_block (heap s))) (log (heap s)))
                (handles s)).
Proof. reflexivity. Qed.

(** C4 fails as stated: [Reset(ptr)] with the pointer the handle already
    holds returns at once; the block keeps its strong count and no block is
    allocated. *)
Lemma Reset_ptr_same_pointer_is_noop :
  SharedPtr_Reset_ptr (Client 1) 100
    (mkState (heap_with_new_block 100) {[ 1 := HShared (mkSharedPtr 100 (Some 0%nat)) ]})
    = Ok tt (mkState (heap_with_new_block 100)
                     {[ 1 := HShared (mkSharedPtr 100 (Some 0%nat)) ]}) ∧
  ¬ Reset_ptr_releases_and_attaches (Client 1) (mkSharedPtr 100 (Some 0%nat)) 100
      (mkState (heap_with_new_block 100) {[ 1 := HShared (mkSharedPtr 100 (Some 0%nat)) ]}).
Proof.
  split.
  - reflexivity.
  - intros (s' & Hrun & Hdec & _).
    cbn in Hrun. injection Hrun as <-.
    specialize (Hdec 0%nat _ eq_refl (lookup_singleton_eq _ _)).
    vm_compute in Hdec. discriminate.
Qed.

(** C4 (amended).  For a [SharedPtr] object, in the client program or inside
    a payload, whose block, if any, is allocated and manages a payload that
    owns no handles: [Reset(ptr)] with [ptr] equal to the handle's current
    payload pointer changes nothing; with any other [ptr] it applies one
    [DecrementStrong] to the current block and then, for a non-null [ptr],
    attaches a fresh [PtrControlBlock] (strong count 1, weak count 0) with
    the payload pointer set to [ptr], and for a null [ptr] leaves the handle
    empty; [Reset()] applies one [DecrementStrong] to the current block and
    leaves the handle empty. *)
Theorem Reset_behaviour this x ptr s :
  holds this x s →
  owns_plain_block (control_block_ x) (heap s) →
  blocks (heap s) !! next_block (heap s) = None →
  (data_ptr_ x = ptr → SharedPtr_Reset_ptr this ptr s = Ok tt s) ∧
  (data_ptr_ x ≠ ptr →
     Reset_ptr_releases_and_attaches this x ptr s ∧
     (ptr = nullptr →
        ∃ s', SharedPtr_Reset_ptr this ptr s = Ok tt s' ∧
              holds this SharedPtr_default s')) ∧
  (∃ s', SharedPtr_Reset this s = Ok tt s' ∧
         holds this SharedPtr_default s' ∧
         ∀ b cb, control_block_ x = Some b → blocks (heap s) !! b = Some cb →
                 blocks (heap s') !! b = block_after_release cb).
Proof.
  intros Hx Hown Hfresh.
  destruct (release_keeps_handles x s Hown)
    as (h1 & Hrun & Hnext & Hother & Hdec & Hkeep).
  pose proof (Hkeep _ _ Hx) as Hx1.
  assert (Hnotin : ∀ b, control_block_ x = Some b → ∀ i, this ≠ Member b i)
    by (intros b Hb i; exact (holds_not_in_plain _ _ _ _ b i Hx Hown Hb)).
  destruct (write_shared_holds this SharedPtr_default x _ Hx1)
    as (s0 & Hw0 & Hh0 & _ & _ & _ & Hb0 & _).
  assert (Hempty : ∀ b cb, control_block_ x = Some b → blocks (heap s) !! b = Some cb →
                    blocks (heap s0) !! b = block_after_release cb).
  { intros b cb Hb Hcb. rewrite (Hb0 b (Hnotin b Hb)). apply (Hdec b cb Hb Hcb). }
  split; [|split].
  - intros Heq. unfold SharedPtr_Reset_ptr.
    rewrite (sm_bind_Ok _ _ _ _ _ Hx).
    rewrite (proj2 (Z.eqb_eq _ _) Heq). reflexivity.
  - intros Hne.
    assert (Hstart : SharedPtr_Reset_ptr this ptr s =
              (if negb (ptr =? nullptr) then
                 x' ← read_shared this;
                 write_shared this (mkSharedPtr ptr (control_block_ x')) ;;
                 b ← on_heap (new_block (PtrControlBlock ptr));
                 write_shared this (mkSharedPtr ptr (Some b))
               else write_shared this (mkSharedPtr nullptr None))
              (mkState h1 (handles s))).
    { unfold SharedPtr_Reset_ptr.
      rewrite (sm_bind_Ok _ _ _ _ _ Hx).
      rewrite (proj2 (Z.eqb_neq _ _) Hne).
      rewrite (sm_bind_Ok _ _ _ _ _ Hrun). reflexivity. }
    unfold Reset_ptr_releases_and_attaches. rewrite Hstart.
    destruct (Z.eqb_spec ptr nullptr) as [Hnull|Hnull]; cbn [negb].
    + split.
      * exists s0. split; [exact Hw0|]. split; [exact Hempty|]. intros; contradiction.
      * intros _. exists s0. split; [exact Hw0 | exact Hh0].
    + split; [|intros; contradiction].
      rewrite (sm_bind_Ok _ _ _ _ _ Hx1).
      destruct (write_shared_holds this (mkSharedPtr ptr (control_block_ x)) x _ Hx1)
        as (s2 & Hw2 & Hh2 & Hn2 & _ & _ & Hb2 & _).
      rewrite (sm_bind_Ok _ _ _ _ _ Hw2).
      rewrite (sm_bind_Ok _ _ _ _ _ (new_block_state _ s2)).
      cbn in Hn2. rewrite Hn2, Hnext.
      assert (Hthis_old : ∀ b i, this = Member b i → b ≠ next_block (heap s)).
      { intros b i -> ->. apply holds_Member in Hx as (cb & Hcb & _). congruence. }
      assert (Hh3 : holds this (mkSharedPtr ptr (control_block_ x))
                (mkState (mkHeap (<[next_block (heap s) :=
                                      mkControlBlock 1 0 (PtrControlBlock ptr) []]>
                                    (blocks (heap s2)))
                                 (S (next_block (heap s))) (log (heap s2)))
                         (handles s2))).
      { apply (holds_frame _ _ s2); [exact Hh2|].
        intros b i Hbi. cbn. apply lookup_insert_ne.
        intros Heq. apply (Hthis_old b i Hbi). congruence. }
      destruct (write_shared_holds this (mkSharedPtr ptr (Some (next_block (heap s))))
                  _ _ Hh3) as (s4 & Hw4 & Hh4 & _ & _ & _ & Hb4 & _).
      exists s4. split; [exact Hw4|]. split.
      * intros b cb Hb Hcb. rewrite (Hb4 b (Hnotin b Hb)). cbn.
        destruct (Hown b Hb) as (Hlt & _).
        rewrite lookup_insert_ne by lia.
        rewrite (Hb2 b (Hnotin b Hb)). apply (Hdec b cb Hb Hcb).
      * intros _. split; [exact Hh4|].
        rewrite Hb4.
        -- cbn. apply lookup_insert_eq.
        -- intros i Hbi. exact (Hthis_old _ i Hbi eq_refl).
  - exists s0. split; [|split; [exact Hh0 | exact Hempty]].
    unfold SharedPtr_Reset.
    rewrite (sm_bind_Ok _ _ _ _ _ Hx).
    rewrite (sm_bind_Ok _ _ _ _ _ Hrun). exact Hw0.
Qed.

Lemma Reset_behaviour_witness :
  Reset_ptr_releases_and_attaches (Client 1) (mkSharedPtr 100 (Some 0%nat)) 200
    (mkState (heap_with_new_block 100) {[ 1 := HShared (mkSharedPtr 100 (Some 0%nat)) ]}).
Proof.
  assert (Hown : owns_plain_block (control_block_ (mkSharedPtr 100 (Some 0%nat)))
                                  (heap_with_new_block 100)).
  { intros b [= <-]. split; [cbn; lia|].
    eexists. split; [apply lookup_singleton_eq|reflexivity]. }
  assert (Hx : holds (Client 1) (mkSharedPtr 100 (Some 0%nat))
                 (mkState (heap_with_new_block 100)
                          {[ 1 := HShared (mkSharedPtr 100 (Some 0%nat)) ]}))
    by reflexivity.
  assert (Hfresh : blocks (heap_with_new_block 100)
                     !! next_block (heap_with_new_block 100) = None)
    by reflexivity.
  apply (proj1 (proj2 (Reset_behaviour (Client 1) (mkSharedPtr 100 (Some 0%nat)) 200
                         (mkState (heap_with_new_block 100)
                                  {[ 1 := HShared (mkSharedPtr 100 (Some 0%nat)) ]})
                         Hx Hown Hfresh))).
  cbn. lia.
Defined.

(** C8 fails as stated: move assignment into a handle that holds a block
    takes one strong reference from that block (here 2 becomes 1). *)
Lemma move_assign_decrements_destination :
  SharedPtr_move_assign (Client 1) (Client 2)
    (mkState
       (mkHeap (<[1%nat := mkControlBlock 1 0 (PtrControlBlock 200) []]>
                  {[ 0%nat := mkControlBlock 2 0 (PtrControlBlock 100) [] ]}) 2 [])
       (<[2 := HShared (mkSharedPtr 200 (Some 1%nat))]>
          {[ 1 := HShared (mkSharedPtr 100 (Some 0%nat)) ]}))
  = Ok tt
      (mkState
         (mkHeap (<[1%nat := mkControlBlock 1 0 (PtrControlBlock 200) []]>
                    {[ 0%nat := mkControlBlock 1 0 (PtrControlBlock 100) [] ]}) 2 [])
         (<[2 := HShared SharedPtr_default]>
            {[ 1 := HShared (mkSharedPtr 200 (Some 1%nat)) ]})) ∧
  ¬ move_assign_touches_no_counter (Client 1) (Client 2) (mkSharedPtr 200 (Some 1%nat))
      (mkState
         (mkHeap (<[1%nat := mkControlBlock 1 0 (PtrControlBlock 200) []]>
                    {[ 0%nat := mkControlBlock 2 0 (PtrControlBlock 100) [] ]}) 2 [])
         (<[2 := HShared (mkSharedPtr 200 (Some 1%nat))]>
            {[ 1 := HShared (mkSharedPtr 100 (Some 0%nat)) ]})).
Proof.
  split.
  - vm_compute. reflexivity.
  - intros (s' & Hrun & _ & _ & Hsame).
    vm_compute in Hrun. injection Hrun as <-.
    specialize (Hsame 0%nat). vm_compute in Hsame. discriminate.
Qed.

(** C8 (amended).  Move construction hands the (payload pointer, block) pair
    to the new handle and leaves the source empty; it does not touch the
    heap.  Move assignment from another handle object, when the block the
    destination held before (if any) manages a payload that owns no handles,
    does the same after applying one [DecrementStrong] to that block: the
    block loses one strong reference, or is released, the counts of every
    other block are unchanged, the destination holds the source's pair, the
    source is empty and every other handle object is as before.  Self move
    assignment leaves the handle as it was. *)
Theorem move_transfers_ownership this other x y s :
  other ≠ this → holds this x s → holds other y s →
  owns_plain_block (control_block_ x) (heap s) →
  SharedPtr_move y = (y, SharedPtr_default) ∧
  SharedPtr_move_assign this this s = Ok tt s ∧
  ∃ s', SharedPtr_move_assign this other s = Ok tt s' ∧
        holds this y s' ∧ holds other SharedPtr_default s' ∧
        (∀ q z, q ≠ this → q ≠ other → holds q z s → holds q z s') ∧
        (∀ b, control_block_ x ≠ Some b → counts (heap s') b = counts (heap s) b) ∧
        (∀ b cb, control_block_ x = Some b → blocks (heap s) !! b = Some cb →
                 blocks (heap s') !! b = block_after_release cb).
Proof.
  intros Hne Hx Hy Hown.
  destruct (release_keeps_handles x s Hown)
    as (h1 & Hrun & Hnext & Hother & Hdec & Hkeep).
  split; [destruct y; reflexivity|]. split.
  { unfold SharedPtr_move_assign. rewrite decide_True by reflexivity. reflexivity. }
  destruct (write_shared_holds this y x _ (Hkeep _ _ Hx))
    as (s2 & Hw2 & Hh2 & _ & _ & Hc2 & Hb2 & Hq2).
  destruct (write_shared_holds other SharedPtr_default y s2
              (Hq2 _ _ Hne (Hkeep _ _ Hy)))
    as (s3 & Hw3 & Hh3 & _ & _ & Hc3 & Hb3 & Hq3).
  exists s3. split; [|split; [|split; [|split; [|split]]]].
  - unfold SharedPtr_move_assign. rewrite decide_False by exact Hne.
    rewrite (sm_bind_Ok _ _ _ _ _ Hx).
    rewrite (sm_bind_Ok _ _ _ _ _ Hrun).
    rewrite (sm_bind_Ok _ _ _ _ _ (Hkeep _ _ Hy)).
    rewrite SharedPtr_eta.
    rewrite (sm_bind_Ok _ _ _ _ _ Hw2). exact Hw3.
  - apply Hq3; [congruence | exact Hh2].
  - exact Hh3.
  - intros q z Hq1 Hq2' Hz. apply Hq3; [exact Hq2'|].
    apply Hq2; [exact Hq1|]. apply Hkeep, Hz.
  - intros b Hb. rewrite Hc3, Hc2. unfold counts; cbn. rewrite (Hother b Hb).
    reflexivity.
  - intros b cb Hb Hcb.
    rewrite Hb3 by (intros i; exact (holds_not_in_plain _ _ _ _ b i Hy Hown Hb)).
    rewrite Hb2 by (intros i; exact (holds_not_in_plain _ _ _ _ b i Hx Hown Hb)).
    apply (Hdec b cb Hb Hcb).
Qed.

Lemma move_transfers_ownership_witness :
  ∃ s', SharedPtr_move_assign (Client 1) (Client 2)
          (mkState
             (mkHeap (<[1%nat := mkControlBlock 1 0 (PtrControlBlock 200) []]>
                        {[ 0%nat := mkControlBlock 1 0 (PtrControlBlock 100) [] ]}) 2 [])
             (<[2 := HShared (mkSharedPtr 200 (Some 1%nat))]>
                {[ 1 := HShared (mkSharedPtr 100 (Some 0%nat)) ]}))
        = Ok tt s' ∧
        holds (Client 1) (mkSharedPtr 200 (Some 1%nat)) s' ∧
        holds (Client 2) SharedPtr_default s' ∧
        blocks (heap s') !! 0%nat = None ∧
        counts (heap s') 1 = Some (1, 0).
Proof.
  destruct (move_transfers_ownership (Client 1) (Client 2)
              (mkSharedPtr 100 (Some 0%nat)) (mkSharedPtr 200 (Some 1%nat))
              (mkState
                 (mkHeap (<[1%nat := mkControlBlock 1 0 (PtrControlBlock 200) []]>
                            {[ 0%nat := mkControlBlock 1 0 (PtrControlBlock 100) [] ]}) 2 [])
                 (<[2 := HShared (mkSharedPtr 200 (Some 1%nat))]>
                    {[ 1 := HShared (mkSharedPtr 100 (Some 0%nat)) ]})))
    as (_ & _ & s' & Hrun & Hthis & Hother & _ & Hrest & Hdec).
  - discriminate.
  - reflexivity.
  - reflexivity.
  - intros b [= <-]. split; [cbn; lia|].
    eexists. split; [reflexivity|reflexivity].
  - exists s'. split; [exact Hrun|]. split; [exact Hthis|]. split; [exact Hother|].
    split.
    + rewrite (Hdec 0%nat (mkControlBlock 1 0 (PtrControlBlock 100) []) eq_refl eq_refl).
      vm_compute. reflexivity.
    + rewrite Hrest by discriminate. reflexivity.
Defined.

(** ** The intrusive counter against the control block *)

(** C5 fails as stated: the intrusive counter starts at 0, the control block
    at 1, so after one increment the two show 1 and 2. *)
Lemma counting_differs_after_one_increment :
  core_trace [Inc] 0 (heap_with_new_block 100) = [Value 2] ∧
  intrusive_trace [Inc] Intrusive.initial = [Value 1] ∧
  ¬ same_counting_from_initial_states [Inc].
Proof.
  split; [vm_compute; reflexivity|]. split; [vm_compute; reflexivity|].
  unfold same_counting_from_initial_states. vm_compute. discriminate.
Qed.

(** On a zero counter the two schemes part ways: [DecRef] stays at 0 and
    destroys again, [DecrementStrong] wraps and destroys nothing. *)
Lemma counting_differs_at_zero :
  intrusive_trace [Dec] Intrusive.initial = [Destroyed] ∧
  core_trace [Dec] 0
    (mkHeap {[ 0%nat := mkControlBlock 0 1 (PtrControlBlock 100) [] ]} 1 [])
  = [Value SIZE_MAX].
Proof. split; vm_compute; reflexivity. Qed.

(** C5 (amended).  Started from equal counter values, the intrusive counter
    and the strong counter of a control block (whose payload owns no
    handles) show the same counter value after every step and destroy the
    managed object at the same step, for every sequence of increments and
    decrements that stays within the object's lifetime. *)
Theorem counting_agrees_within_lifetime ops :
  ∀ (c : Intrusive.SimpleCounter) h b cb,
    blocks h !! b = Some cb → payload_members cb = [] →
    ref_count_ cb = Intrusive.count_ c →
    0 ≤ Intrusive.count_ c < SIZE_MOD →
    within_lifetime ops (Intrusive.count_ c) = true →
    core_trace ops b h = intrusive_trace ops c.
Proof.
  induction ops as [|o ops IH]; intros c h b cb Hcb Hp Href Hrange Hlife;
    [reflexivity|].
  destruct c as [v]. cbn [Intrusive.count_] in *.
  destruct o; cbn [within_lifetime] in Hlife.
  - (* Inc *)
    cbn [core_trace intrusive_trace core_step intrusive_step fst snd].
    rewrite (bind_Ok _ _ _ _ _ (IncrementStrong_Some _ _ _ Hcb)).
    match goal with |- context [mbind _ _ ?h1] =>
      assert (Hcb1 : blocks h1 !! b = Some (set_ref_count (wrap (ref_count_ cb + 1)) cb))
        by apply lookup_insert_eq;
      rewrite (bind_Ok _ _ _ _ _ (GetCount_Some _ _ _ Hcb1))
    end.
    cbn. rewrite Href in *. f_equal.
    apply (IH (Intrusive.mkSimpleCounter (wrap (v + 1))) _ _ _ Hcb1 Hp).
    + reflexivity.
    + apply wrap_range.
    + exact Hlife.
  - (* Dec *)
    apply andb_true_iff in Hlife as [Hpos Hlife]. apply Z.ltb_lt in Hpos.
    cbn [core_trace intrusive_trace core_step intrusive_step].
    rewrite (DecrementStrong_Some _ _ _ Hcb Hp).
    unfold heap_after_DecrementStrong, Intrusive.RefCounted_DecRef, Intrusive.DecRef.
    cbn [Intrusive.count_]. rewrite Href.
    destruct (Z.ltb_spec 0 v); [|lia]. cbn [fst snd].
    rewrite wrap_pred_eq_0 by lia. rewrite wrap_small by lia.
    destruct (Z.eqb_spec v 1) as [H1|H1].
    + destruct ops; [|discriminate].
      subst v. change (1 - 1 =? 0) with true. cbn [intrusive_trace].
      destruct (weak_count_ cb =? 0);
        unfold teardowns; cbn [log]; rewrite ?occurrences_snoc;
        rewrite decide_True by reflexivity; rewrite ?decide_False by discriminate;
        rewrite (proj2 (Nat.ltb_lt _ _)) by lia; reflexivity.
    + destruct (Z.eqb_spec (v - 1) 0); [lia|].
      unfold teardowns; cbn [log]. rewrite Nat.ltb_irrefl.
      match goal with |- context [mbind _ _ ?h1] =>
        assert (Hcb1 : blocks h1 !! b = Some (set_ref_count (v - 1) cb))
          by apply lookup_insert_eq;
        rewrite (bind_Ok _ _ _ _ _ (GetCount_Some _ _ _ Hcb1))
      end.
      cbn. f_equal.
      apply (IH (Intrusive.mkSimpleCounter (v - 1)) _ _ _ Hcb1 Hp).
      * reflexivity.
      * cbn. lia.
      * exact Hlife.
Qed.

Lemma counting_agrees_within_lifetime_witness :
  core_trace [Inc; Dec; Dec] 0 (heap_with_new_block 100)
  = intrusive_trace [Inc; Dec; Dec] (Intrusive.mkSimpleCounter 1).
Proof.
  apply (counting_agrees_within_lifetime [Inc; Dec; Dec]
           (Intrusive.mkSimpleCounter 1) (heap_with_new_block 100) 0%nat
           (mkControlBlock 1 0 (PtrControlBlock 100) [])).
  - apply lookup_singleton_eq.
  - reflexivity.
  - reflexivity.
  - vm_compute. split; [discriminate|reflexivity].
  - vm_compute. reflexivity.
Defined.

(** ** A payload that holds a weak handle to itself *)

(** The state before the shared handle goes out of scope: strong count 1,
    weak count 1, and the only weak handle is a member of the payload. *)
Example self_observing_before_scope_exit node :
  (s ← SharedPtr_from_ptr node;
   w ← WeakPtr_from_shared s;
   if_block (control_block_ s) (λ b, payload_adopt b (HWeak w))) (heap init)
  = Ok tt (mkHeap {[ 0%nat := mkControlBlock 1 1 (PtrControlBlock node)
                                [HWeak (mkWeakPtr node (Some 0%nat))] ]} 1 []).
Proof. vm_compute. reflexivity. Qed.

(** Whatever the rest of the heap: the last [DecrementStrong] on a block
    whose payload holds the last weak handle to that block ends in an access
    to the block after its release. *)
Lemma DecrementStrong_self_observed h b k p :
  blocks h !! b = Some (mkControlBlock 1 1 k [HWeak (mkWeakPtr p (Some b))]) →
  DecrementStrong b h =
    Fault (UseAfterFree b)
          (mkHeap (delete b (blocks h)) (next_block h)
                  ((log h ++ [EvOnZeroReferences b]) ++ [EvDeleteThis b])).
Proof.
  intros Hcb.
  unfold DecrementStrong. cbn [DecrementStrong_within].
  unfold OnZeroReferences, destroy_member, WeakPtr_dtor, DecrementWeak,
    for_each, if_block, load, store, emit, delete_this.
  unfold mbind, M_bind, mret, M_ret.
  repeat first
    [ rewrite Hcb
    | rewrite lookup_insert_eq
    | rewrite lookup_delete_eq
    | progress change (wrap (1 - 1)) with 0
    | progress cbn ].
  rewrite ?insert_insert_eq, ?delete_insert_eq. reflexivity.
Qed.

(** C2.  When the payload owns a [WeakPtr] to its own block and the last
    shared handle goes away, the [DecrementWeak] that runs inside the
    teardown hook brings both counters to 0 and releases the block; the
    interrupted [DecrementStrong] then reads [weak_count_] of the released
    block. *)
Theorem self_observing_payload_use_after_free node :
  self_observing_scope node (heap init)
  = Fault (UseAfterFree 0)
          (mkHeap ∅ 1 [EvOnZeroReferences 0%nat; EvDeleteThis 0%nat]).
Proof. vm_compute. reflexivity. Qed.

(** * Further properties of the handle operations *)

Lemma heap_eta h : mkHeap (blocks h) (next_block h) (log h) = h.
Proof. destruct h; reflexivity. Qed.

Lemma set_ref_count_same cb : set_ref_count (ref_count_ cb) cb = cb.
Proof. destruct cb; reflexivity. Qed.

Lemma set_weak_count_same cb : set_weak_count (weak_count_ cb) cb = cb.
Proof. destruct cb; reflexivity. Qed.

(** [DecrementStrong] that does not reach zero only stores the new count,
    whatever the payload owns. *)
Lemma DecrementStrong_above_zero b h cb :
  blocks h !! b = Some cb → wrap (ref_count_ cb - 1) ≠ 0 →
  DecrementStrong b h =
    Ok tt (mkHeap (<[b := set_ref_count (wrap (ref_count_ cb - 1)) cb]> (blocks h))
                  (next_block h) (log h)).
Proof.
  intros Hcb Hnz. unfold DecrementStrong. cbn [DecrementStrong_within].
  rewrite (bind_Ok _ _ _ _ _ (load_Some _ _ _ Hcb)). cbv zeta.
  rewrite (bind_Ok _ _ _ _ _ (store_Some _ _ _ _ Hcb)).
  destruct (Z.eqb_spec (wrap (ref_count_ cb - 1)) 0); [contradiction|reflexivity].
Qed.

(** X1.  The aliasing constructor on a handle that holds block [b] (strong
    count between 1 and [SIZE_MAX - 1]) returns the handle made of the given
    pointer and [b], raises the strong count of [b] by one and leaves every
    other block alone; copy construction is the case where the pointer is the
    source's own.  Destroying the new handle gives back exactly the heap from
    before: the decrement goes to the original block, not to a separate one. *)
Theorem alias_then_destroy_restores_heap other ptr h b cb :
  control_block_ other = Some b → blocks h !! b = Some cb →
  0 < ref_count_ cb < SIZE_MAX →
  SharedPtr_copy other h = SharedPtr_alias other (data_ptr_ other) h ∧
  ∃ h1, SharedPtr_alias other ptr h = Ok (mkSharedPtr ptr (Some b)) h1 ∧
        GetCount b h1 = Ok (ref_count_ cb + 1) h1 ∧
        (∀ b', b' ≠ b → blocks h1 !! b' = blocks h !! b') ∧
        SharedPtr_dtor (mkSharedPtr ptr (Some b)) h1 = Ok tt h.
Proof.
  intros Hb Hcb Hrange. split; [reflexivity|].
  unfold SharedPtr_alias. rewrite Hb. cbn [if_block].
  rewrite (bind_Ok _ _ _ _ _ (IncrementStrong_Some _ _ _ Hcb)).
  unfold SIZE_MAX in Hrange. rewrite wrap_small by lia.
  set (h1 := mkHeap (<[b := set_ref_count (ref_count_ cb + 1) cb]> (blocks h))
                    (next_block h) (log h)).
  exists h1. split; [reflexivity|].
  assert (Hcb1 : blocks h1 !! b = Some (set_ref_count (ref_count_ cb + 1) cb))
    by apply lookup_insert_eq.
  split; [|split].
  - rewrite (GetCount_Some _ _ _ Hcb1). reflexivity.
  - intros b' Hne. cbn [blocks]. apply lookup_insert_ne. congruence.
  - unfold SharedPtr_dtor. cbn [control_block_ if_block].
    rewrite (DecrementStrong_above_zero _ _ _ Hcb1); cbn [ref_count_ set_ref_count].
    + replace (ref_count_ cb + 1 - 1) with (ref_count_ cb) by lia.
      rewrite wrap_small by lia. unfold h1. cbn [blocks next_block log].
      rewrite insert_insert_eq.
      change (set_ref_count (ref_count_ cb) (set_ref_count (ref_count_ cb + 1) cb))
        with (set_ref_count (ref_count_ cb) cb).
      rewrite set_ref_count_same, insert_id by exact Hcb.
      rewrite heap_eta. reflexivity.
    + replace (ref_count_ cb + 1 - 1) with (ref_count_ cb) by lia.
      rewrite wrap_small by lia. lia.
Qed.

Lemma alias_then_destroy_restores_heap_witness :
  ∃ h1, SharedPtr_alias (mkSharedPtr 100 (Some 0%nat)) 108 (heap_with_new_block 100)
          = Ok (mkSharedPtr 108 (Some 0%nat)) h1 ∧
        GetCount 0 h1 = Ok 2 h1 ∧
        SharedPtr_dtor (mkSharedPtr 108 (Some 0%nat)) h1
          = Ok tt (heap_with_new_block 100).
Proof.
  destruct (alias_then_destroy_restores_heap
              (mkSharedPtr 100 (Some 0%nat)) 108 (heap_with_new_block 100) 0%nat
              (mkControlBlock 1 0 (PtrControlBlock 100) []))
    as (_ & h1 & Ha & Hc & _ & Hd).
  - reflexivity.
  - apply lookup_singleton_eq.
  - vm_compute. split; reflexivity.
  - exists h1. split; [exact Ha|]. split; [exact Hc|exact Hd].
Defined.

Lemma counts_Some h b r w :
  counts h b = Some (r, w) ↔
  ∃ cb, blocks h !! b = Some cb ∧ ref_count_ cb = r ∧ weak_count_ cb = w.
Proof.
  unfold counts. destruct (blocks h !! b) as [cb|]; cbn; split.
  - intros [= <- <-]. eauto.
  - intros (cb' & [= <-] & <- & <-). reflexivity.
  - discriminate.
  - intros (cb' & [=] & _).
Qed.

(** [IncrementStrong] leaves every handle object and every other block as
    it is. *)
Lemma IncrementStrong_state b s r w :
  counts (heap s) b = Some (r, w) →
  ∃ s', on_heap (IncrementStrong b) s = Ok tt s' ∧
        counts (heap s') b = Some (wrap (r + 1), w) ∧
        (∀ b', b' ≠ b → blocks (heap s') !! b' = blocks (heap s) !! b') ∧
        log (heap s') = log (heap s) ∧
        (∀ p y, holds p y s → holds p y s').
Proof.
  intros Hc. apply counts_Some in Hc as (cb & Hcb & <- & <-).
  destruct s as [h hs]. cbn [heap] in Hcb.
  eexists. split.
  { apply on_heap_Ok. apply (IncrementStrong_Some _ _ _ Hcb). }
  split; [unfold counts; cbn; rewrite lookup_insert_eq; reflexivity|].
  split; [intros b' Hb'; cbn; apply lookup_insert_ne; congruence|].
  split; [reflexivity|].
  intros p y Hp.
  apply (holds_frame_members p y (mkState h hs)); [exact Hp|].
  intros b' i _. unfold members_of; cbn. destruct (decide (b' = b)) as [->|Hne].
  - rewrite lookup_insert_eq, Hcb. reflexivity.
  - rewrite lookup_insert_ne by congruence. reflexivity.
Qed.

(** X2.  Copy assignment between two different handle objects, in the client
    program or inside payloads.  When both hold the same block (strong count
    other than 1) the decrement and the increment cancel, whatever the
    payload owns: no count of any block changes and no event happens.  When
    they hold different blocks and the destination's old block manages a
    payload that owns no handles, that block goes through one
    [DecrementStrong], the source's block gains one strong reference, the
    counts of every other block are unchanged, and the destination ends up
    with the source's pair. *)
Theorem copy_assign_effect this other x y s :
  other ≠ this → holds this x s → holds other y s →
  (∀ b, control_block_ y = Some b → is_Some (blocks (heap s) !! b)) →
  (∀ b cb, control_block_ x = Some b → control_block_ y = Some b →
           blocks (heap s) !! b = Some cb → 0 ≤ ref_count_ cb < SIZE_MOD →
           ref_count_ cb ≠ 1 →
           ∃ s', SharedPtr_copy_assign this other s = Ok tt s' ∧
                 holds this y s' ∧ holds other y s' ∧
                 log (heap s') = log (heap s) ∧
                 ∀ b', counts (heap s') b' = counts (heap s) b') ∧
  (control_block_ x ≠ control_block_ y →
   owns_plain_block (control_block_ x) (heap s) →
   ∃ s', SharedPtr_copy_assign this other s = Ok tt s' ∧
         holds this y s' ∧ holds other y s' ∧
         (∀ b cb, control_block_ x = Some b → blocks (heap s) !! b = Some cb →
                  blocks (heap s') !! b = block_after_release cb) ∧
         (∀ b cb, control_block_ y = Some b → blocks (heap s) !! b = Some cb →
                  counts (heap s') b = Some (wrap (ref_count_ cb + 1), weak_count_ cb)) ∧
         (∀ b, control_block_ x ≠ Some b → control_block_ y ≠ Some b →
               counts (heap s') b = counts (heap s) b)).
Proof.
  intros Hne Hx Hy Hother. split.
  - intros b cb Hthis Hoth Hcb Hrange Hne1.
    assert (Hnz : wrap (ref_count_ cb - 1) ≠ 0).
    { intros H0. apply Z.eqb_eq in H0. rewrite wrap_pred_eq_0 in H0 by exact Hrange.
      apply Z.eqb_eq in H0. contradiction. }
    pose proof (DecrementStrong_above_zero _ _ _ Hcb Hnz) as Hrun.
    set (h1 := mkHeap _ _ _) in Hrun.
    assert (Hmem : ∀ b', members_of b' h1 = members_of b' (heap s)).
    { intros b'. unfold members_of, h1; cbn. destruct (decide (b' = b)) as [->|Hb'].
      - rewrite lookup_insert_eq, Hcb. reflexivity.
      - rewrite lookup_insert_ne by congruence. reflexivity. }
    assert (Hkeep : ∀ p z, holds p z s → holds p z (mkState h1 (handles s))).
    { intros p z Hp. apply holds_frame_members; [exact Hp|]. intros; apply Hmem. }
    destruct (write_shared_holds this y x _ (Hkeep _ _ Hx))
      as (s2 & Hw2 & Hh2 & _ & Hl2 & Hc2 & _ & Hq2).
    assert (Hcount2 : counts (heap s2) b
                      = Some (wrap (ref_count_ cb - 1), weak_count_ cb)).
    { rewrite Hc2. unfold counts, h1; cbn. rewrite lookup_insert_eq. reflexivity. }
    destruct (IncrementStrong_state b s2 _ _ Hcount2)
      as (s3 & Hinc & Hc3 & Hb3 & Hl3 & Hk3).
    exists s3. split; [|split; [|split; [|split]]].
    + unfold SharedPtr_copy_assign, copy_assign_rest. rewrite decide_False by exact Hne.
      rewrite (sm_bind_Ok _ _ _ _ _ Hx). rewrite Hthis. cbn [if_block].
      destruct s as [h hs]. cbn [heap handles] in *.
      rewrite (sm_bind_Ok _ _ _ _ _ (on_heap_Ok _ _ _ _ _ Hrun)).
      rewrite (sm_bind_Ok _ _ _ _ _ (Hkeep _ _ Hy)).
      rewrite SharedPtr_eta.
      rewrite (sm_bind_Ok _ _ _ _ _ Hw2).
      rewrite Hoth. cbn [if_block]. exact Hinc.
    + apply Hk3, Hh2.
    + apply Hk3, Hq2; [exact Hne | apply Hkeep, Hy].
    + rewrite Hl3, Hl2. reflexivity.
    + intros b'. destruct (decide (b' = b)) as [->|Hb'].
      * rewrite Hc3. unfold counts. rewrite Hcb. cbn. f_equal. f_equal.
        destruct (Z.eq_dec (ref_count_ cb) 0) as [H0|H0].
        -- rewrite H0, wrap_pred_zero, wrap_succ_max. reflexivity.
        -- rewrite (wrap_small (ref_count_ cb - 1)) by lia.
           replace (ref_count_ cb - 1 + 1) with (ref_count_ cb) by lia.
           apply wrap_small. exact Hrange.
      * unfold counts at 1. rewrite (Hb3 b' Hb'). fold (counts (heap s2) b').
        rewrite Hc2. unfold counts, h1; cbn.
        rewrite lookup_insert_ne by congruence. reflexivity.
  - intros Hdiff Hown.
    destruct (release_keeps_handles x s Hown)
      as (h1 & Hrun & Hnext & Hrest & Hdec & Hkeep).
    destruct (write_shared_holds this y x _ (Hkeep _ _ Hx))
      as (s2 & Hw2 & Hh2 & _ & _ & Hc2 & Hb2 & Hq2).
    assert (Hstart : SharedPtr_copy_assign this other s
                     = on_heap (if_block (control_block_ y) IncrementStrong) s2).
    { unfold SharedPtr_copy_assign, copy_assign_rest. rewrite decide_False by exact Hne.
      rewrite (sm_bind_Ok _ _ _ _ _ Hx).
      rewrite (sm_bind_Ok _ _ _ _ _ Hrun).
      rewrite (sm_bind_Ok _ _ _ _ _ (Hkeep _ _ Hy)).
      rewrite SharedPtr_eta.
      rewrite (sm_bind_Ok _ _ _ _ _ Hw2). reflexivity. }
    assert (Hold2 : ∀ b cb, control_block_ x = Some b → blocks (heap s) !! b = Some cb →
                      blocks (heap s2) !! b = block_after_release cb).
    { intros b cb Hb Hcb.
      rewrite Hb2 by (intros i; exact (holds_not_in_plain _ _ _ _ b i Hx Hown Hb)).
      apply (Hdec b cb Hb Hcb). }
    assert (Hrest2 : ∀ b, control_block_ x ≠ Some b →
                       counts (heap s2) b = counts (heap s) b).
    { intros b Hb. rewrite Hc2. unfold counts; cbn. rewrite (Hrest b Hb). reflexivity. }
    rewrite Hstart.
    destruct (control_block_ y) as [b2|] eqn:Hyb; cbn [if_block].
    + destruct (Hother b2 eq_refl) as [cb2 Hcb2].
      assert (Hx2 : control_block_ x ≠ Some b2) by congruence.
      assert (Hcount2 : counts (heap s2) b2 = Some (ref_count_ cb2, weak_count_ cb2)).
      { rewrite (Hrest2 b2 Hx2). unfold counts. rewrite Hcb2. reflexivity. }
      destruct (IncrementStrong_state b2 s2 _ _ Hcount2)
        as (s3 & Hinc & Hc3 & Hb3 & _ & Hk3).
      exists s3. split; [exact Hinc|]. split; [apply Hk3, Hh2|].
      split; [apply Hk3, Hq2; [exact Hne | apply Hkeep, Hy]|].
      split; [|split].
      * intros b cb Hb Hcb. rewrite Hb3 by congruence. apply (Hold2 b cb Hb Hcb).
      * intros b cb [= <-] Hcb. assert (cb = cb2) as -> by congruence. exact Hc3.
      * intros b Hb1 Hb2'. unfold counts at 1. rewrite Hb3 by congruence.
        apply (Hrest2 b Hb1).
    + exists s2. split; [destruct s2; reflexivity|]. split; [exact Hh2|].
      split; [apply Hq2; [exact Hne | apply Hkeep, Hy]|].
      split; [exact Hold2|]. split.
      * intros b cb [=].
      * intros b Hb1 _. apply (Hrest2 b Hb1).
Qed.

Lemma copy_assign_effect_witness :
  ∃ s', SharedPtr_copy_assign (Client 1) (Client 2)
          (mkState
             (mkHeap (<[1%nat := mkControlBlock 1 0 (PtrControlBlock 200) []]>
                        {[ 0%nat := mkControlBlock 1 0 (PtrControlBlock 100) [] ]}) 2 [])
             (<[2 := HShared (mkSharedPtr 200 (Some 1%nat))]>
                {[ 1 := HShared (mkSharedPtr 100 (Some 0%nat)) ]}))
        = Ok tt s' ∧
        holds (Client 1) (mkSharedPtr 200 (Some 1%nat)) s' ∧
        blocks (heap s') !! 0%nat = None ∧
        counts (heap s') 1 = Some (2, 0).
Proof.
  destruct (proj2 (copy_assign_effect (Client 1) (Client 2)
              (mkSharedPtr 100 (Some 0%nat)) (mkSharedPtr 200 (Some 1%nat))
              (mkState
                 (mkHeap (<[1%nat := mkControlBlock 1 0 (PtrControlBlock 200) []]>
                            {[ 0%nat := mkControlBlock 1 0 (PtrControlBlock 100) [] ]}) 2 [])
                 (<[2 := HShared (mkSharedPtr 200 (Some 1%nat))]>
                    {[ 1 := HShared (mkSharedPtr 100 (Some 0%nat)) ]}))
              ltac:(discriminate) eq_refl eq_refl
              ltac:(intros b [= <-]; eexists; reflexivity)))
    as (s' & Hrun & Hthis & _ & Hold & Hnew & _).
  - discriminate.
  - intros b [= <-]. split; [cbn; lia|].
    eexists. split; [reflexivity|reflexivity].
  - exists s'. split; [exact Hrun|]. split; [exact Hthis|]. split.
    + rewrite (Hold 0%nat (mkControlBlock 1 0 (PtrControlBlock 100) []) eq_refl eq_refl).
      vm_compute. reflexivity.
    + rewrite (Hnew 1%nat (mkControlBlock 1 0 (PtrControlBlock 200) []) eq_refl eq_refl).
      vm_compute. reflexivity.
Defined.

(** X3.  A handle made by [MakeShared] or from a raw pointer, on a heap whose
    next block identity is free, reports [UseCount] 1; destroying it runs the
    teardown hook of its block and then releases the block, so that the
    blocks are those from before the construction. *)
Theorem construct_then_destroy h :
  blocks h !! next_block h = None →
  (∀ storage, ∃ h1,
      MakeShared storage h = Ok (mkSharedPtr storage (Some (next_block h))) h1 ∧
      SharedPtr_UseCount (mkSharedPtr storage (Some (next_block h))) h1 = Ok 1 h1 ∧
      SharedPtr_dtor (mkSharedPtr storage (Some (next_block h))) h1
        = Ok tt (mkHeap (blocks h) (S (next_block h))
                        (log h ++ [EvOnZeroReferences (next_block h);
                                   EvDeleteThis (next_block h)]))) ∧
  (∀ ptr, ∃ h1,
      SharedPtr_from_ptr ptr h = Ok (mkSharedPtr ptr (Some (next_block h))) h1 ∧
      SharedPtr_UseCount (mkSharedPtr ptr (Some (next_block h))) h1 = Ok 1 h1 ∧
      SharedPtr_dtor (mkSharedPtr ptr (Some (next_block h))) h1
        = Ok tt (mkHeap (blocks h) (S (next_block h))
                        (log h ++ [EvOnZeroReferences (next_block h);
                                   EvDeleteThis (next_block h)]))).
Proof.
  intros Hfree.
  set (b := next_block h).
  set (h_end := mkHeap (blocks h) (S b) (log h ++ [EvOnZeroReferences b; EvDeleteThis b])).
  assert (Hgen : ∀ k p,
            let h1 := mkHeap (<[b := mkControlBlock 1 0 k []]> (blocks h)) (S b) (log h) in
            SharedPtr_UseCount (mkSharedPtr p (Some b)) h1 = Ok 1 h1 ∧
            SharedPtr_dtor (mkSharedPtr p (Some b)) h1 = Ok tt h_end).
  { intros k p h1.
    assert (Hcb1 : blocks h1 !! b = Some (mkControlBlock 1 0 k []))
      by apply lookup_insert_eq.
    split.
    - cbn [SharedPtr_UseCount control_block_]. apply (GetCount_Some _ _ _ Hcb1).
    - unfold SharedPtr_dtor. cbn [control_block_ if_block].
      rewrite (DecrementStrong_Some _ _ _ Hcb1 eq_refl).
      unfold heap_after_DecrementStrong, h_end, h1.
      cbn [ref_count_ weak_count_ blocks next_block log].
      change (wrap (1 - 1) =? 0) with true. cbn [Z.eqb].
      rewrite delete_insert_eq, delete_insert_eq, delete_id by exact Hfree.
      rewrite <- app_assoc. reflexivity. }
  split.
  - intros storage. eexists. split; [reflexivity|]. apply Hgen.
  - intros ptr. eexists. split; [reflexivity|]. apply Hgen.
Qed.

Lemma construct_then_destroy_witness :
  ∃ h1, MakeShared 500 (heap init) = Ok (mkSharedPtr 500 (Some 0%nat)) h1 ∧
        SharedPtr_dtor (mkSharedPtr 500 (Some 0%nat)) h1
          = Ok tt (mkHeap ∅ 1 [EvOnZeroReferences 0%nat; EvDeleteThis 0%nat]).
Proof.
  destruct (proj1 (construct_then_destroy (heap init) (lookup_empty _)) 500)
    as (h1 & Hm & _ & Hd).
  exists h1. split; [exact Hm|exact Hd].
Defined.

(** X4.  Two handles built from the same raw pointer do not share ownership:
    each gets a [PtrControlBlock] of its own around that pointer and reports
    [UseCount] 1, and destroying both runs the teardown hook of both blocks,
    that is, [delete] on the same pointer twice. *)
Theorem raw_pointer_twice_gives_two_owners ptr h :
  blocks h !! next_block h = None →
  ∃ h2,
    (s1 ← SharedPtr_from_ptr ptr; s2 ← SharedPtr_from_ptr ptr; mret (s1, s2)) h
      = Ok (mkSharedPtr ptr (Some (next_block h)),
            mkSharedPtr ptr (Some (S (next_block h)))) h2 ∧
    blocks h2 !! next_block h
      = Some (mkControlBlock 1 0 (PtrControlBlock ptr) []) ∧
    blocks h2 !! S (next_block h)
      = Some (mkControlBlock 1 0 (PtrControlBlock ptr) []) ∧
    SharedPtr_UseCount (mkSharedPtr ptr (Some (next_block h))) h2 = Ok 1 h2 ∧
    SharedPtr_UseCount (mkSharedPtr ptr (Some (S (next_block h)))) h2 = Ok 1 h2 ∧
    ∃ h4,
      (SharedPtr_dtor (mkSharedPtr ptr (Some (next_block h))) ;;
       SharedPtr_dtor (mkSharedPtr ptr (Some (S (next_block h))))) h2 = Ok tt h4 ∧
      log h4 = log h ++ [EvOnZeroReferences (next_block h);
                         EvDeleteThis (next_block h);
                         EvOnZeroReferences (S (next_block h));
                         EvDeleteThis (S (next_block h))].
Proof.
  intros Hfree.
  set (b2 := S (next_block h)). set (b1 := next_block h).
  set (cb := mkControlBlock 1 0 (PtrControlBlock ptr) []).
  set (h2 := mkHeap (<[b2 := cb]> (<[b1 := cb]> (blocks h))) (S b2) (log h)).
  assert (Hne : b1 ≠ b2) by (unfold b1, b2; lia).
  assert (H1 : blocks h2 !! b1 = Some cb).
  { cbn. rewrite lookup_insert_ne by congruence. apply lookup_insert_eq. }
  assert (H2 : blocks h2 !! b2 = Some cb) by apply lookup_insert_eq.
  exists h2. split; [reflexivity|]. split; [exact H1|]. split; [exact H2|].
  split; [apply (GetCount_Some _ _ _ H1)|]. split; [apply (GetCount_Some _ _ _ H2)|].
  unfold SharedPtr_dtor. cbn [control_block_ if_block].
  rewrite (bind_Ok _ _ _ _ _ (DecrementStrong_Some _ _ _ H1 eq_refl)).
  set (h3 := heap_after_DecrementStrong b1 cb h2).
  assert (H2' : blocks h3 !! b2 = Some cb).
  { unfold h3, heap_after_DecrementStrong. cbn.
    change (wrap (1 - 1) =? 0) with true. cbn.
    rewrite lookup_delete_ne, lookup_insert_ne by congruence. exact H2. }
  rewrite (DecrementStrong_Some _ _ _ H2' eq_refl).
  eexists. split; [reflexivity|].
  unfold h3, heap_after_DecrementStrong. cbn.
  change (wrap (1 - 1) =? 0) with true. cbn.
  rewrite <- !app_assoc. reflexivity.
Qed.

Lemma raw_pointer_twice_gives_two_owners_witness :
  ∃ h2, (s1 ← SharedPtr_from_ptr 100; s2 ← SharedPtr_from_ptr 100; mret (s1, s2))
          (heap init)
        = Ok (mkSharedPtr 100 (Some 0%nat), mkSharedPtr 100 (Some 1%nat)) h2 ∧
        SharedPtr_UseCount (mkSharedPtr 100 (Some 0%nat)) h2 = Ok 1 h2.
Proof.
  destruct (raw_pointer_twice_gives_two_owners 100 (heap init) (lookup_empty _))
    as (h2 & Hc & _ & _ & Hu & _).
  exists h2. split; [exact Hc|exact Hu].
Defined.

(** * Further properties of programs over handles *)

(** X5.  Programs whose payloads own no handles: in every state reached by
    handle operations on the client's handle objects, a shared handle that
    holds a block holds a live one: the block is allocated, [UseCount] is
    the number of shared handles holding it (at least 1), and neither the
    teardown hook nor the release of that block has happened. *)
Theorem shared_handle_keeps_payload_alive s a this b :
  reachable s → handles s !! a = Some (HShared this) →
  control_block_ this = Some b →
  (1 ≤ holders b s)%nat ∧
  SharedPtr_UseCount this (heap s) = Ok (Z.of_nat (holders b s)) (heap s) ∧
  teardowns b (heap s) = 0%nat ∧
  releases b (heap s) = 0%nat.
Proof.
  intros Hr Ha Hb. pose proof (reachable_consistent s Hr) as Hc.
  assert (Hpos : (0 < holders b s)%nat).
  { eapply census_pos; [exact Ha|]. cbn. rewrite Hb.
    apply bool_decide_eq_true. reflexivity. }
  destruct (block_inv_allocated _ _ _ _ (proj2 Hc b))
    as (cb & Hcb & _ & Href & _ & _ & Ht & Hrel); [lia|].
  split; [lia|]. split; [|split].
  - unfold SharedPtr_UseCount. rewrite Hb, (GetCount_Some _ _ _ Hcb), Href.
    reflexivity.
  - rewrite Ht, decide_False by lia. reflexivity.
  - exact Hrel.
Qed.

Lemma shared_handle_keeps_payload_alive_witness :
  ∃ s, run [OpMakeShared 1 500; OpCopy 2 1; OpDemote 3 1] init = Some s ∧
       SharedPtr_UseCount (mkSharedPtr 500 (Some 0%nat)) (heap s) = Ok 2 (heap s).
Proof.
  eexists. split; [vm_compute; reflexivity|].
  match goal with |- SharedPtr_UseCount _ (heap ?s) = _ =>
    destruct (shared_handle_keeps_payload_alive s 2 (mkSharedPtr 500 (Some 0%nat)) 0%nat)
      as (_ & Hu & _)
  end.
  - exists [OpMakeShared 1 500; OpCopy 2 1; OpDemote 3 1]. vm_compute. reflexivity.
  - vm_compute. reflexivity.
  - reflexivity.
  - rewrite Hu. vm_compute. reflexivity.
Defined.

(** X6.  Programs whose payloads own no handles: in every state reached by
    handle operations on the client's handle objects, the block a weak
    handle observes is still allocated, and [Expired] returns true exactly
    when no shared handle holds that block (or no block is observed), which
    is exactly when [Lock] returns an empty handle; for an observed block
    this means its payload has been torn down. *)
Theorem Expired_iff_no_owner s a this :
  reachable s → handles s !! a = Some (HWeak this) →
  (∀ b, observe_cb_ this = Some b →
        is_Some (blocks (heap s) !! b) ∧ releases b (heap s) = 0%nat) ∧
  ∃ e, Expired this (heap s) = Ok e (heap s) ∧
       (e = true ↔ ∀ b, observe_cb_ this = Some b → holders b s = 0%nat) ∧
       (e = true ↔ Lock this (heap s) = Ok SharedPtr_default (heap s)) ∧
       (e = true → ∀ b, observe_cb_ this = Some b → teardowns b (heap s) = 1%nat).
Proof.
  intros Hr Ha. pose proof (reachable_consistent s Hr) as Hc.
  destruct this as [p [b|]]; cbn [observe_cb_].
  - assert (Hpos : (0 < observers b s)%nat).
    { eapply census_pos; [exact Ha|]. cbn. apply bool_decide_eq_true. reflexivity. }
    destruct (block_inv_allocated _ _ _ _ (proj2 Hc b))
      as (cb & Hcb & _ & Href & _ & _ & Ht & Hrel); [lia|].
    split.
    { intros b' [= <-]. split; [eexists; exact Hcb|exact Hrel]. }
    exists (ref_count_ cb =? 0).
    split; [|split; [|split]].
    + unfold Expired, WeakPtr_UseCount. cbn [observe_cb_].
      rewrite (bind_Ok _ _ _ _ _ (GetCount_Some _ _ _ Hcb)). reflexivity.
    + rewrite Z.eqb_eq, Href. split.
      * intros H0 b' [= <-]. lia.
      * intros H0. rewrite (H0 b eq_refl). reflexivity.
    + unfold Lock. cbn [observe_cb_ observe_data_ptr_].
      rewrite (bind_Ok _ _ _ _ _ (GetCount_Some _ _ _ Hcb)).
      rewrite Z.eqb_eq. destruct (Z.ltb_spec 0 (ref_count_ cb)) as [Hlt|Hle].
      * rewrite (bind_Ok _ _ _ _ _ (IncrementStrong_Some _ _ _ Hcb)).
        split; [lia|]. intros [= ?].
      * split; [reflexivity|]. intros _. lia.
    + rewrite Z.eqb_eq. intros H0 b' [= <-].
      rewrite Ht, decide_True by lia. reflexivity.
  - split; [intros b [=]|].
    exists true. split; [reflexivity|]. split; [|split].
    + split; [intros _ b [=]|reflexivity].
    + split; reflexivity.
    + intros _ b [=].
Qed.

Lemma Expired_iff_no_owner_witness :
  ∃ s, run [OpFromPtr 1 100; OpDemote 2 1; OpDestroy 1] init = Some s ∧
       Expired (mkWeakPtr 100 (Some 0%nat)) (heap s) = Ok true (heap s).
Proof.
  eexists. split; [vm_compute; reflexivity|].
  match goal with |- Expired _ (heap ?s) = _ =>
    destruct (Expired_iff_no_owner s 2 (mkWeakPtr 100 (Some 0%nat)))
      as (_ & e & He & Hiff & _)
  end.
  - exists [OpFromPtr 1 100; OpDemote 2 1; OpDestroy 1]. vm_compute. reflexivity.
  - vm_compute. reflexivity.
  - rewrite He. f_equal. apply Hiff. intros b [= <-]. vm_compute. reflexivity.
Defined.

(** X7.  Programs whose payloads own no handles: a program of handle
    operations on the client's handle objects that has destroyed all its
    handles has leaked nothing and freed nothing twice: no block is allocated any
    more, and for every block ever allocated the teardown hook has run
    exactly once and the block has been released exactly once. *)
Theorem no_handles_no_blocks s :
  reachable s → handles s = ∅ →
  blocks (heap s) = ∅ ∧
  ∀ b, (b < next_block (heap s))%nat →
       teardowns b (heap s) = 1%nat ∧ releases b (heap s) = 1%nat.
Proof.
  intros Hr Hnone. pose proof (reachable_consistent s Hr) as Hc.
  assert (Hinv : ∀ b, block_inv (heap s) b 0 0).
  { intros b. pose proof (proj2 Hc b) as Hb.
    unfold holders, observers in Hb. rewrite Hnone, !census_empty in Hb. exact Hb. }
  split.
  - apply map_eq. intros b. rewrite lookup_empty.
    specialize (Hinv b). unfold block_inv in Hinv.
    destruct (blocks (heap s) !! b); [lia|reflexivity].
  - intros b Hb. specialize (Hinv b). unfold block_inv in Hinv.
    destruct (blocks (heap s) !! b); [lia|].
    destruct Hinv as (_ & _ & Ht & Hrel).
    rewrite decide_True in Ht, Hrel by exact Hb. split; assumption.
Qed.

Lemma no_handles_no_blocks_witness :
  ∃ s, run [OpMakeShared 1 500; OpDemote 2 1; OpCopy 3 1;
            OpDestroy 1; OpWeakDestroy 2; OpDestroy 3] init = Some s ∧
       blocks (heap s) = ∅ ∧ releases 0 (heap s) = 1%nat.
Proof.
  eexists. split; [vm_compute; reflexivity|].
  match goal with |- blocks (heap ?s) = _ ∧ _ =>
    destruct (no_handles_no_blocks s) as (Hb & Hall)
  end.
  - exists [OpMakeShared 1 500; OpDemote 2 1; OpCopy 3 1;
            OpDestroy 1; OpWeakDestroy 2; OpDestroy 3].
    vm_compute. reflexivity.
  - vm_compute. reflexivity.
  - split; [exact Hb|]. apply Hall. vm_compute. lia.
Defined.

(** X8.  Programs whose payloads own no handles: from a state reached by
    handle operations on the client's handle objects, no handle operation
    reads or writes a released block or a destroyed handle object (the only
    operation that is stopped is one that names a handle object that does not
    exist), and an operation that names existing handles of the right kind
    (and a free address for the handle it creates) always completes, normally
    or by raising [BadWeakPtr]. *)
Theorem handle_operations_are_memory_safe s o :
  reachable s →
  (∀ f s', exec o s = Fault f s' → f = NoSuchObject ∧ well_formed o s = false) ∧
  (well_formed o s = true →
     ∃ s', continue (exec o s) = Some s' ∧ reachable s').
Proof.
  intros Hr. split.
  - intros f s' Hex.
    pose proof (exec_consistent o s (reachable_consistent s Hr)) as Hp.
    rewrite Hex in Hp. destruct Hp as (Hf & _ & Hwf). split; assumption.
  - apply exec_progress. exact Hr.
Qed.

Lemma handle_operations_are_memory_safe_witness :
  ∃ s', continue (exec (OpLock 3 2)
                    (mkState (mkHeap {[ 0%nat := mkControlBlock 0 1 (PtrControlBlock 100) [] ]}
                                     1 [EvOnZeroReferences 0%nat])
                             {[ 2 := HWeak (mkWeakPtr 100 (Some 0%nat)) ]}))
        = Some s'.
Proof.
  destruct (handle_operations_are_memory_safe
              (mkState (mkHeap {[ 0%nat := mkControlBlock 0 1 (PtrControlBlock 100) [] ]}
                               1 [EvOnZeroReferences 0%nat])
                       {[ 2 := HWeak (mkWeakPtr 100 (Some 0%nat)) ]})
              (OpLock 3 2)) as (_ & Hp).
  - exists [OpFromPtr 1 100; OpDemote 2 1; OpDestroy 1]. vm_compute. reflexivity.
  - destruct Hp as (s' & Hs & _); [vm_compute; reflexivity|].
    exists s'. exact Hs.
Defined.

(** * What the weak handle operations leave alone *)

Lemma strong_side_refl h : strong_side_unchanged h h.
Proof. split; [reflexivity|]. intros b cb Hcb. exists cb. split; [exact Hcb|reflexivity]. Qed.

Lemma strong_side_trans h1 h2 h3 :
  strong_side_unchanged h1 h2 → strong_side_unchanged h2 h3 →
  strong_side_unchanged h1 h3.
Proof.
  intros [Ht12 Hb12] [Ht23 Hb23]. split.
  - intros b. rewrite Ht23. apply Ht12.
  - intros b cb3 Hcb3. destruct (Hb23 b cb3 Hcb3) as (cb2 & Hcb2 & Heq23).
    destruct (Hb12 b cb2 Hcb2) as (cb1 & Hcb1 & Heq12).
    exists cb1. split; [exact Hcb1|congruence].
Qed.

Lemma weak_only_ret {A} (a : A) : weak_only (mret a).
Proof. intros h. apply strong_side_refl. Qed.

Lemma weak_only_bind {A B} (m : M A) (f : A → M B) :
  weak_only m → (∀ a, weak_only (f a)) → weak_only (m ≫= f).
Proof.
  intros Hm Hf h. specialize (Hm h). unfold mbind, M_bind.
  destruct (m h) as [a h1|e h1|x h1]; cbn in *; [|exact Hm|exact Hm].
  eapply strong_side_trans; [exact Hm|apply Hf].
Qed.

Lemma weak_only_if_block block (method : nat → M unit) :
  (∀ b, weak_only (method b)) → weak_only (if_block block method).
Proof. intros H. destruct block; [apply H|apply weak_only_ret]. Qed.

Lemma weak_only_IncrementWeak b : weak_only (IncrementWeak b).
Proof.
  intros h. destruct (blocks h !! b) as [cb|] eqn:Hcb.
  - rewrite (IncrementWeak_Some _ _ _ Hcb). cbn. split; [reflexivity|].
    intros b' cb' Hcb'. cbn in Hcb'.
    destruct (decide (b = b')) as [<-|Hne].
    + rewrite lookup_insert_eq in Hcb'. injection Hcb' as <-.
      exists cb. split; [exact Hcb|reflexivity].
    + rewrite lookup_insert_ne in Hcb' by exact Hne.
      exists cb'. split; [exact Hcb'|reflexivity].
  - unfold IncrementWeak, mbind, M_bind, load. rewrite Hcb. apply strong_side_refl.
Qed.

Lemma weak_only_DecrementWeak b : weak_only (DecrementWeak b).
Proof.
  intros h. destruct (blocks h !! b) as [cb|] eqn:Hcb.
  - rewrite (DecrementWeak_Some _ _ _ Hcb). cbn [heap_left].
    unfold heap_after_DecrementWeak.
    destruct ((wrap (weak_count_ cb - 1) =? 0) && (ref_count_ cb =? 0)).
    + split.
      * intros b'. unfold teardowns. cbn [log]. rewrite occurrences_snoc.
        rewrite decide_False by discriminate. lia.
      * intros b' cb' Hcb'. cbn in Hcb'.
        destruct (decide (b = b')) as [<-|Hne].
        -- rewrite lookup_delete_eq in Hcb'. discriminate.
        -- rewrite lookup_delete_ne, lookup_insert_ne in Hcb' by exact Hne.
           exists cb'. split; [exact Hcb'|reflexivity].
    + split; [reflexivity|].
      intros b' cb' Hcb'. cbn in Hcb'.
      destruct (decide (b = b')) as [<-|Hne].
      * rewrite lookup_insert_eq in Hcb'. injection Hcb' as <-.
        exists cb. split; [exact Hcb|reflexivity].
      * rewrite lookup_insert_ne in Hcb' by exact Hne.
        exists cb'. split; [exact Hcb'|reflexivity].
  - unfold DecrementWeak, mbind, M_bind, load. rewrite Hcb. apply strong_side_refl.
Qed.

(** X9.  Constructing, copying, assigning, resetting and destroying weak
    handles never runs a teardown hook and never changes the strong count of
    a block, whatever the heap and however the operation ends. *)
Theorem weak_handles_leave_strong_side_alone
    (this other : WeakPtr) (shared : SharedPtr) (same : bool) :
  weak_only (WeakPtr_from_shared shared) ∧
  weak_only (WeakPtr_copy other) ∧
  weak_only (WeakPtr_copy_assign same this other) ∧
  weak_only (WeakPtr_move_assign same this other) ∧
  weak_only (WeakPtr_Reset this) ∧
  weak_only (WeakPtr_dtor this).
Proof.
  pose proof weak_only_IncrementWeak as Hi.
  pose proof weak_only_DecrementWeak as Hd.
  split; [|split; [|split; [|split; [|split]]]].
  - apply weak_only_bind; [apply weak_only_if_block, Hi|intros; apply weak_only_ret].
  - apply weak_only_bind; [apply weak_only_if_block, Hi|intros; apply weak_only_ret].
  - unfold WeakPtr_copy_assign. destruct same; [apply weak_only_ret|].
    apply weak_only_bind; [apply weak_only_if_block, Hd|intros].
    apply weak_only_bind; [apply weak_only_if_block, Hi|intros; apply weak_only_ret].
  - unfold WeakPtr_move_assign. destruct same; [apply weak_only_ret|].
    apply weak_only_bind; [apply weak_only_if_block, Hd|intros; apply weak_only_ret].
  - apply weak_only_bind; [apply weak_only_if_block, Hd|intros; apply weak_only_ret].
  - apply weak_only_if_block, Hd.
Qed.

(** X10.  Demoting a shared handle, or copying a weak handle, on a block that
    is in use (one of its counts is not 0; weak count below [SIZE_MAX])
    raises the weak count by one and nothing else; destroying the new weak
    handle gives back exactly the heap from before. *)
Theorem observe_then_forget_restores_heap ptr h b cb :
  blocks h !! b = Some cb → 0 ≤ weak_count_ cb < SIZE_MAX →
  ref_count_ cb ≠ 0 ∨ weak_count_ cb ≠ 0 →
  ∃ h1,
    WeakPtr_from_shared (mkSharedPtr ptr (Some b)) h = Ok (mkWeakPtr ptr (Some b)) h1 ∧
    WeakPtr_copy (mkWeakPtr ptr (Some b)) h = Ok (mkWeakPtr ptr (Some b)) h1 ∧
    blocks h1 = <[b := set_weak_count (weak_count_ cb + 1) cb]> (blocks h) ∧
    log h1 = log h ∧
    WeakPtr_dtor (mkWeakPtr ptr (Some b)) h1 = Ok tt h.
Proof.
  intros Hcb Hrange Hused. unfold SIZE_MAX in Hrange.
  set (h1 := mkHeap (<[b := set_weak_count (weak_count_ cb + 1) cb]> (blocks h))
                    (next_block h) (log h)).
  assert (Hinc : IncrementWeak b h = Ok tt h1).
  { rewrite (IncrementWeak_Some _ _ _ Hcb), wrap_small by lia. reflexivity. }
  exists h1. split; [|split; [|split; [|split]]].
  - unfold WeakPtr_from_shared. cbn [control_block_ data_ptr_ if_block].
    rewrite (bind_Ok _ _ _ _ _ Hinc). reflexivity.
  - unfold WeakPtr_copy. cbn [observe_cb_ observe_data_ptr_ if_block].
    rewrite (bind_Ok _ _ _ _ _ Hinc). reflexivity.
  - reflexivity.
  - reflexivity.
  - assert (Hcb1 : blocks h1 !! b = Some (set_weak_count (weak_count_ cb + 1) cb))
      by apply lookup_insert_eq.
    unfold WeakPtr_dtor. cbn [observe_cb_ if_block].
    rewrite (DecrementWeak_Some _ _ _ Hcb1). unfold heap_after_DecrementWeak.
    cbn [weak_count_ ref_count_ set_weak_count].
    replace (weak_count_ cb + 1 - 1) with (weak_count_ cb) by lia.
    rewrite wrap_small by lia.
    assert (Hkeep : (weak_count_ cb =? 0) && (ref_count_ cb =? 0) = false).
    { destruct (Z.eqb_spec (weak_count_ cb) 0), (Z.eqb_spec (ref_count_ cb) 0);
        try reflexivity. lia. }
    rewrite Hkeep. unfold h1. cbn [blocks next_block log].
    rewrite insert_insert_eq.
    change (set_weak_count (weak_count_ cb) (set_weak_count _ cb))
      with (set_weak_count (weak_count_ cb) cb).
    rewrite set_weak_count_same, insert_id by exact Hcb.
    rewrite heap_eta. reflexivity.
Qed.

Lemma observe_then_forget_restores_heap_witness :
  ∃ h1, WeakPtr_from_shared (mkSharedPtr 100 (Some 0%nat)) (heap_with_new_block 100)
          = Ok (mkWeakPtr 100 (Some 0%nat)) h1 ∧
        WeakPtr_dtor (mkWeakPtr 100 (Some 0%nat)) h1 = Ok tt (heap_with_new_block 100).
Proof.
  destruct (observe_then_forget_restores_heap 100 (heap_with_new_block 100) 0%nat
              (mkControlBlock 1 0 (PtrControlBlock 100) []))
    as (h1 & Hd & _ & _ & _ & Hf).
  - apply lookup_singleton_eq.
  - vm_compute. split; [discriminate|reflexivity].
  - left. discriminate.
  - exists h1. split; [exact Hd|exact Hf].
Defined.

Lemma release_weak_block block h :
  (∀ b, block = Some b → is_Some (blocks h !! b)) →
  ∃ h', if_block block DecrementWeak h = Ok tt h' ∧
        next_block h' = next_block h ∧
        (∀ b, teardowns b h' = teardowns b h) ∧
        (∀ b, block ≠ Some b →
              blocks h' !! b = blocks h !! b ∧ releases b h' = releases b h) ∧
        (∀ b cb, block = Some b → blocks h !! b = Some cb →
                 blocks h' !! b = block_after_weak_release cb ∧
                 releases b h' =
                   (releases b h +
                    (match block_after_weak_release cb with Some _ => 0 | None => 1 end))%nat).
Proof.
  intros Halloc. destruct block as [b0|]; cbn [if_block].
  - destruct (Halloc b0 eq_refl) as [cb Hcb].
    exists (heap_after_DecrementWeak b0 cb h).
    split; [apply (DecrementWeak_Some _ _ _ Hcb)|].
    unfold heap_after_DecrementWeak.
    destruct ((wrap (weak_count_ cb - 1) =? 0) && (ref_count_ cb =? 0)) eqn:Hgone.
    + split; [reflexivity|]. split; [|split].
      * intros b. unfold teardowns. cbn [log]. rewrite occurrences_snoc.
        rewrite decide_False by discriminate. lia.
      * intros b Hne. assert (b0 ≠ b) by congruence. split.
        -- cbn [blocks]. rewrite lookup_delete_ne, lookup_insert_ne by assumption.
           reflexivity.
        -- unfold releases. cbn [log]. rewrite occurrences_snoc.
           rewrite decide_False by congruence. lia.
      * intros b cb' [= <-] Hcb'. assert (cb' = cb) as -> by congruence.
        unfold block_after_weak_release. rewrite Hgone. split.
        -- cbn [blocks]. apply lookup_delete_eq.
        -- unfold releases. cbn [log]. rewrite occurrences_snoc.
           rewrite decide_True by reflexivity. reflexivity.
    + split; [reflexivity|]. split; [reflexivity|]. split.
      * intros b Hne. assert (b0 ≠ b) by congruence. split; [|reflexivity].
        cbn [blocks]. rewrite lookup_insert_ne by assumption. reflexivity.
      * intros b cb' [= <-] Hcb'. assert (cb' = cb) as -> by congruence.
        unfold block_after_weak_release. rewrite Hgone. split.
        -- cbn [blocks]. apply lookup_insert_eq.
        -- unfold releases. cbn [log]. lia.
  - exists h. split; [reflexivity|]. split; [reflexivity|]. split; [reflexivity|].
    split; [intros; split; reflexivity|]. intros b cb [=].
Qed.

(** X11.  The destructor, [Reset] and move assignment of a weak handle whose
    block is allocated all give up the handle's block through one
    [DecrementWeak]: the weak count drops by one, and the block is released,
    without any teardown, exactly when both counts are then 0; no other
    block is touched.  [Reset] leaves the handle empty, move assignment
    takes over the source's pair and empties the source, and self move
    assignment changes nothing. *)
Theorem weak_handle_release this other h :
  (∀ b, observe_cb_ this = Some b → is_Some (blocks h !! b)) →
  WeakPtr_move_assign true this this h = Ok (this, this) h ∧
  ∃ h', WeakPtr_dtor this h = Ok tt h' ∧
        WeakPtr_Reset this h = Ok WeakPtr_default h' ∧
        WeakPtr_move_assign false this other h = Ok (other, WeakPtr_default) h' ∧
        (∀ b, teardowns b h' = teardowns b h) ∧
        (∀ b, observe_cb_ this ≠ Some b →
              blocks h' !! b = blocks h !! b ∧ releases b h' = releases b h) ∧
        (∀ b cb, observe_cb_ this = Some b → blocks h !! b = Some cb →
                 blocks h' !! b = block_after_weak_release cb ∧
                 releases b h' =
                   (releases b h +
                    (match block_after_weak_release cb with Some _ => 0 | None => 1 end))%nat).
Proof.
  intros Halloc. split; [reflexivity|].
  destruct (release_weak_block _ _ Halloc) as (h' & Hrun & _ & Ht & Hkeep & Hdec).
  exists h'. split; [exact Hrun|]. split; [|split; [|split; [|split]]].
  - unfold WeakPtr_Reset. rewrite (bind_Ok _ _ _ _ _ Hrun). reflexivity.
  - unfold WeakPtr_move_assign. rewrite (bind_Ok _ _ _ _ _ Hrun).
    destruct other; reflexivity.
  - exact Ht.
  - exact Hkeep.
  - exact Hdec.
Qed.

Lemma weak_handle_release_witness :
  ∃ h', WeakPtr_Reset (mkWeakPtr 100 (Some 0%nat))
          (mkHeap {[ 0%nat := mkControlBlock 0 1 (PtrControlBlock 100) [] ]} 1
                  [EvOnZeroReferences 0%nat])
        = Ok WeakPtr_default h' ∧
        blocks h' !! 0%nat = None ∧ releases 0 h' = 1%nat.
Proof.
  destruct (weak_handle_release (mkWeakPtr 100 (Some 0%nat)) WeakPtr_default
              (mkHeap {[ 0%nat := mkControlBlock 0 1 (PtrControlBlock 100) [] ]} 1
                      [EvOnZeroReferences 0%nat]))
    as (_ & h' & _ & Hreset & _ & _ & _ & Hdec).
  - intros b [= <-]. eexists. apply lookup_singleton_eq.
  - exists h'. split; [exact Hreset|].
    apply (Hdec 0%nat _ eq_refl (lookup_singleton_eq _ _)).
Defined.

(** * Events are never retracted *)

Lemma log_grows_refl h : log_grows h h.
Proof. unfold log_grows. reflexivity. Qed.

Lemma log_grows_trans h1 h2 h3 : log_grows h1 h2 → log_grows h2 h3 → log_grows h1 h3.
Proof. unfold log_grows. intros H12 H23. etransitivity; eassumption. Qed.

Lemma log_grows_snoc h bs n e : log_grows h (mkHeap bs n (log h ++ [e])).
Proof. unfold log_grows. cbn. apply prefix_app_r. reflexivity. Qed.

Lemma appends_ret {A} (a : A) : appends_only (mret a).
Proof. intros h. apply log_grows_refl. Qed.

Lemma appends_throw {A} e : appends_only (@throw A e).
Proof. intros h. apply log_grows_refl. Qed.

Lemma appends_bind {A B} (m : M A) (f : A → M B) :
  appends_only m → (∀ a, appends_only (f a)) → appends_only (m ≫= f).
Proof.
  intros Hm Hf h. specialize (Hm h). unfold mbind, M_bind.
  destruct (m h) as [a h1|e h1|x h1]; cbn in *; [|exact Hm|exact Hm].
  eapply log_grows_trans; [exact Hm|apply Hf].
Qed.

Lemma appends_load b : appends_only (load b).
Proof. intros h. unfold load. destruct (blocks h !! b); apply log_grows_refl. Qed.

Lemma appends_store b cb : appends_only (store b cb).
Proof.
  intros h. unfold store, log_grows. destruct (blocks h !! b); cbn; reflexivity.
Qed.

Lemma appends_emit e : appends_only (emit e).
Proof. intros h. apply log_grows_snoc. Qed.

Lemma appends_delete_this b : appends_only (delete_this b).
Proof.
  intros h. unfold delete_this.
  destruct (blocks h !! b); [apply log_grows_snoc|apply log_grows_refl].
Qed.

Lemma appends_new_block k : appends_only (new_block k).
Proof. intros h. unfold log_grows. cbn. reflexivity. Qed.

Lemma appends_if_block block (method : nat → M unit) :
  (∀ b, appends_only (method b)) → appends_only (if_block block method).
Proof. intros H. destruct block; [apply H|apply appends_ret]. Qed.

Lemma appends_for_each {A} (f : A → M unit) l :
  (∀ x, appends_only (f x)) → appends_only (for_each f l).
Proof.
  intros Hf. induction l as [|x l IH]; cbn [for_each]; [apply appends_ret|].
  apply appends_bind; [apply Hf|intros _; exact IH].
Qed.

(** Decomposes a heap computation into its primitive steps. *)
Ltac appends :=
  repeat first
    [ apply appends_ret
    | apply appends_throw
    | apply appends_load
    | apply appends_store
    | apply appends_emit
    | apply appends_delete_this
    | apply appends_new_block
    | apply appends_bind; [|intros ?]
    | apply appends_if_block; intros ?
    | apply appends_for_each; intros ?
    | match goal with
      | |- appends_only (if ?c then _ else _) => destruct c
      | |- appends_only (match ?c with Some _ => _ | None => _ end) => destruct c
      end ].

Lemma appends_GetCount b : appends_only (GetCount b).
Proof. unfold GetCount. appends. Qed.

Lemma appends_IncrementStrong b : appends_only (IncrementStrong b).
Proof. unfold IncrementStrong. appends. Qed.

Lemma appends_IncrementWeak b : appends_only (IncrementWeak b).
Proof. unfold IncrementWeak. appends. Qed.

Lemma appends_DecrementWeak b : appends_only (DecrementWeak b).
Proof. unfold DecrementWeak. appends. Qed.

Lemma appends_DecrementStrong_within depth :
  ∀ b, appends_only (DecrementStrong_within depth b).
Proof.
  induction depth as [|depth IH]; intros b; cbn [DecrementStrong_within].
  - intros h. apply log_grows_refl.
  - unfold OnZeroReferences, destroy_member, WeakPtr_dtor.
    pose proof appends_DecrementWeak.
    appends; auto.
    destruct x; appends; auto.
Qed.

Lemma appends_DecrementStrong b : appends_only (DecrementStrong b).
Proof. intros h. apply appends_DecrementStrong_within. Qed.

Lemma appends_methods :
  (∀ p, appends_only (SharedPtr_from_ptr p)) ∧
  (∀ p, appends_only (MakeShared p)) ∧
  (∀ o, appends_only (SharedPtr_copy o)) ∧
  (∀ o p, appends_only (SharedPtr_alias o p)) ∧
  (∀ w, appends_only (SharedPtr_promote w)) ∧
  (∀ t, appends_only (SharedPtr_dtor t)) ∧
  (∀ o, appends_only (WeakPtr_from_shared o)) ∧
  (∀ o, appends_only (WeakPtr_copy o)) ∧
  (∀ c t o, appends_only (WeakPtr_copy_assign c t o)) ∧
  (∀ c t o, appends_only (WeakPtr_move_assign c t o)) ∧
  (∀ t, appends_only (WeakPtr_Reset t)) ∧
  (∀ t, appends_only (WeakPtr_dtor t)) ∧
  (∀ t, appends_only (Lock t)).
Proof.
  pose proof appends_GetCount. pose proof appends_IncrementStrong.
  pose proof appends_IncrementWeak. pose proof appends_DecrementWeak.
  pose proof appends_DecrementStrong.
  repeat match goal with |- _ ∧ _ => split end; intros;
    unfold SharedPtr_from_ptr, MakeShared, SharedPtr_copy, SharedPtr_alias,
      SharedPtr_promote, SharedPtr_dtor, WeakPtr_from_shared,
      WeakPtr_copy, WeakPtr_copy_assign, WeakPtr_move_assign, WeakPtr_Reset,
      WeakPtr_dtor, Lock;
    appends; auto.
Qed.

Lemma by_ref_ret {A} (a : A) : appends_only_by_ref (mret a).
Proof. intros s. apply log_grows_refl. Qed.

Lemma by_ref_bind {A B} (m : SM A) (f : A → SM B) :
  appends_only_by_ref m → (∀ a, appends_only_by_ref (f a)) →
  appends_only_by_ref (m ≫= f).
Proof.
  intros Hm Hf s. specialize (Hm s). unfold mbind, SM_bind.
  destruct (m s) as [a s1|e s1|x s1]; cbn in *; [|exact Hm|exact Hm].
  eapply log_grows_trans; [exact Hm|apply Hf].
Qed.

Lemma by_ref_on_heap {A} (m : M A) :
  appends_only m → appends_only_by_ref (on_heap m).
Proof.
  intros Hm s. specialize (Hm (heap s)). unfold on_heap.
  destruct (m (heap s)); exact Hm.
Qed.

Lemma by_ref_read p : appends_only_by_ref (read_shared p).
Proof.
  intros s. unfold read_shared. repeat case_match; apply log_grows_refl.
Qed.

Lemma by_ref_write p x : appends_only_by_ref (write_shared p x).
Proof.
  intros s. unfold write_shared.
  repeat case_match; cbn; unfold log_grows; cbn; reflexivity.
Qed.

(** Decomposes an operation by reference into its steps. *)
Ltac by_ref :=
  repeat first
    [ apply by_ref_ret
    | apply by_ref_read
    | apply by_ref_write
    | apply by_ref_on_heap
    | apply by_ref_bind; [|intros ?]
    | match goal with
      | |- appends_only_by_ref (if ?c then _ else _) => destruct c
      end ].

Lemma appends_by_ref :
  (∀ t o, appends_only_by_ref (SharedPtr_copy_assign t o)) ∧
  (∀ t o, appends_only_by_ref (SharedPtr_move_assign t o)) ∧
  (∀ t, appends_only_by_ref (SharedPtr_Reset t)) ∧
  (∀ t p, appends_only_by_ref (SharedPtr_Reset_ptr t p)).
Proof.
  pose proof appends_IncrementStrong. pose proof appends_DecrementStrong.
  repeat match goal with |- _ ∧ _ => split end; intros;
    unfold SharedPtr_copy_assign, SharedPtr_move_assign, SharedPtr_Reset,
      SharedPtr_Reset_ptr;
    by_ref; appends; auto.
Qed.

Lemma commit_heap {A} s (m : M A) upd :
  heap (state_left (commit s m upd)) = heap_left (m (heap s)).
Proof. unfold commit. destruct (m (heap s)); reflexivity. Qed.

Lemma exec_log_grows o s : log_grows (heap s) (heap (state_left (exec o s))).
Proof.
  destruct appends_methods
    as (H1 & H2 & H3 & H4 & H5 & H10 & H11 & H12 & H13 & H14
        & H15 & H16 & H17).
  destruct appends_by_ref as (H6 & H7 & H8 & H9).
  destruct o; unfold exec, ill_formed; repeat case_match;
    rewrite ?commit_heap; cbn [state_left heap];
    first [ apply log_grows_refl | apply H1 | apply H2 | apply H3 | apply H4
          | apply H5 | apply H6 | apply H7 | apply H8 | apply H9 | apply H10
          | apply H11 | apply H12 | apply H13 | apply H14 | apply H15
          | apply H16 | apply H17 ].
Qed.

Lemma occurrences_prefix e l1 l2 :
  l1 `prefix_of` l2 → (occurrences e l1 ≤ occurrences e l2)%nat.
Proof.
  intros [k ->]. unfold occurrences. rewrite filter_app, length_app. lia.
Qed.

Lemma continue_state_left r s' : continue r = Some s' → state_left r = s'.
Proof. destruct r; cbn; congruence. Qed.

Lemma reachable_step s o s' :
  reachable s → continue (exec o s) = Some s' → reachable s'.
Proof.
  intros [ops Hrun] Hstep. exists (ops ++ [o]).
  rewrite run_app, Hrun. cbn. rewrite Hstep. reflexivity.
Qed.

(** X12.  A payload that has been torn down is never handed out again.  In
    programs over the client's handle objects whose payloads own no handles:
    once no shared handle holds an allocated block, no handle operation
    (copy, promotion, assignment, [Lock], ...) produces a shared handle on
    it. *)
Theorem torn_down_payload_is_never_handed_out s o s' b :
  reachable s → continue (exec o s) = Some s' →
  (b < next_block (heap s))%nat → holders b s = 0%nat → holders b s' = 0%nat.
Proof.
  intros Hr Hstep Hb H0.
  pose proof (exec_log_grows o s) as Hlog.
  rewrite (continue_state_left _ _ Hstep) in Hlog.
  assert (Ht : (teardowns b (heap s) ≤ teardowns b (heap s'))%nat)
    by (apply occurrences_prefix, Hlog).
  pose proof (proj2 (reachable_consistent s Hr) b) as Hinv.
  pose proof (reachable_consistent s' (reachable_step s o s' Hr Hstep)) as Hc'.
  assert (Hdone : teardowns b (heap s) = 1%nat).
  { unfold block_inv in Hinv. rewrite H0 in Hinv.
    destruct (blocks (heap s) !! b).
    - destruct Hinv as (_ & _ & _ & _ & _ & Hdone & _). exact Hdone.
    - destruct Hinv as (_ & _ & Hdone & _).
      rewrite decide_True in Hdone by exact Hb. exact Hdone. }
  destruct (Nat.eq_dec (holders b s') 0%nat) as [Hz|Hnz]; [exact Hz|].
  destruct (block_inv_allocated _ _ _ _ (proj2 Hc' b))
    as (cb & _ & _ & _ & _ & _ & Ht' & _); [lia|].
  rewrite decide_False in Ht' by exact Hnz. lia.
Qed.

Lemma torn_down_payload_is_never_handed_out_witness :
  ∃ s', continue (exec (OpLock 3 2)
                    (mkState (mkHeap {[ 0%nat := mkControlBlock 0 1 (PtrControlBlock 100) [] ]}
                                     1 [EvOnZeroReferences 0%nat])
                             {[ 2 := HWeak (mkWeakPtr 100 (Some 0%nat)) ]}))
        = Some s' ∧ holders 0 s' = 0%nat.
Proof.
  eexists. split; [vm_compute; reflexivity|].
  match goal with |- holders _ ?s' = _ =>
    refine (torn_down_payload_is_never_handed_out
              (mkState (mkHeap {[ 0%nat := mkControlBlock 0 1 (PtrControlBlock 100) [] ]}
                               1 [EvOnZeroReferences 0%nat])
                       {[ 2 := HWeak (mkWeakPtr 100 (Some 0%nat)) ]})
              (OpLock 3 2) s' 0%nat _ _ _ _)
  end.
  - exists [OpFromPtr 1 100; OpDemote 2 1; OpDestroy 1]. vm_compute. reflexivity.
  - vm_compute. reflexivity.
  - vm_compute. lia.
  - vm_compute. reflexivity.
Defined.

(** * Payloads that own shared handles *)

(** C1.  [head = head->next] on a list of two nodes, [head] being the only
    owner of the first node and the member [next] of the first node the only
    owner of the second.  Before the assignment both blocks have strong
    count 1 and both handle objects can be read.  Copy assignment first
    releases the block [head] holds: the count of block 0 goes from 1 to 0,
    the teardown of the first node destroys its member [next], which takes
    block 1 from 1 to 0, tears down the second node and releases both
    blocks.  The assignment then reads [other.data_ptr_], and [other] is the
    member that has just been destroyed. *)
Theorem list_advance_reads_destroyed_handle first second :
  two_node_list 1 2 first second init = Ok tt (two_nodes first second) ∧
  holds (Client 1) (mkSharedPtr first (Some 0%nat)) (two_nodes first second) ∧
  holds (Member 0 0) (mkSharedPtr second (Some 1%nat)) (two_nodes first second) ∧
  counts (heap (two_nodes first second)) 0 = Some (1, 0) ∧
  counts (heap (two_nodes first second)) 1 = Some (1, 0) ∧
  list_advance 1 (two_nodes first second)
  = Fault (UseAfterDestroy 0)
      (mkState (mkHeap ∅ 2 [EvOnZeroReferences 0%nat; EvOnZeroReferences 1%nat;
                            EvDeleteThis 1%nat; EvDeleteThis 0%nat])
               (handles (two_nodes first second))).
Proof. repeat split; vm_compute; reflexivity. Qed.

(** When a weak handle has kept the block of the second node, and the
    storage of the destroyed member still holds the value it had, the
    assignment counts the torn-down second node again, from 0 to 1, and the
    next release of [head] runs the teardown hook of block 1 a second
    time. *)
Lemma stale_source_is_counted_again first second :
  ∃ s1 s2,
    list_advance 1 (observed_two_nodes first second) = Fault (UseAfterDestroy 0) s1 ∧
    counts (heap s1) 1 = Some (0, 1) ∧
    teardowns 1 (heap s1) = 1%nat ∧
    (copy_assign_rest (Client 1) (mkSharedPtr second (Some 1%nat)) ;;
     SharedPtr_Reset (Client 1)) s1 = Ok tt s2 ∧
    teardowns 1 (heap s2) = 2%nat.
Proof.
  eexists. eexists.
  split; [vm_compute; reflexivity|].
  split; [vm_compute; reflexivity|].
  split; [vm_compute; reflexivity|].
  split; vm_compute; reflexivity.
Qed.

(** X24.  [head = std::move(head->next)] on the same list: move assignment
    releases the block of [head] before it reads [other], so the teardown of
    the first node destroys the member it is about to move from, and with it
    the second node. *)
Theorem list_pop_reads_destroyed_handle first second :
  list_pop 1 (two_nodes first second)
  = Fault (UseAfterDestroy 0)
      (mkState (mkHeap ∅ 2 [EvOnZeroReferences 0%nat; EvOnZeroReferences 1%nat;
                            EvDeleteThis 1%nat; EvDeleteThis 0%nat])
               (handles (two_nodes first second))).
Proof. vm_compute. reflexivity. Qed.

(** X25.  [Reset()] on a handle that is a member of the payload its own block
    manages, and the only owner of it (a weak handle of the client observes
    the block).  [Reset] leaves [control_block_] set while [DecrementStrong]
    runs: the count goes from 1 to 0, the teardown destroys the handle that
    is being reset, whose destructor decrements the same count again, from 0
    to [SIZE_MAX]; the block is kept for the weak handle, and [Reset] then
    writes to the destroyed handle.  [Reset(ptr)] with another pointer goes
    the same way. *)
Theorem Reset_of_self_owned_handle node :
  self_owning_node 1 2 node init = Ok tt (self_owned node) ∧
  holds (Member 0 0) (mkSharedPtr node (Some 0%nat)) (self_owned node) ∧
  SharedPtr_Reset (Member 0 0) (self_owned node)
  = Fault (UseAfterDestroy 0)
      (mkState (mkHeap {[0%nat := mkControlBlock SIZE_MAX 1 (PtrControlBlock node) []]}
                       1 [EvOnZeroReferences 0%nat])
               (handles (self_owned node))) ∧
  SharedPtr_Reset_ptr (Member 0 0) 300 (self_owned 100)
  = Fault (UseAfterDestroy 0)
      (mkState (mkHeap {[0%nat := mkControlBlock SIZE_MAX 1 (PtrControlBlock 100) []]}
                       1 [EvOnZeroReferences 0%nat])
               (handles (self_owned 100))).
Proof. repeat split; vm_compute; reflexivity. Qed.

(** * The intrusive pointer *)

Section IntrusiveObjects.
Import IntrusivePtr.

Lemma IM_bind_Some {A B} (m : IM A) (k : A → IM B) st a st' :
  m st = Some (a, st') → (x ← m; k x) st = k a st'.
Proof. intros H. unfold mbind, IM_bind. rewrite H. reflexivity. Qed.


Lemma store_eta st : mkStore (objects st) (destroyed st) = st.
Proof. destruct st; reflexivity. Qed.

Lemma IncRef_Some p st c :
  objects st !! p = Some c →
  IncRef p st =
    Some (tt, mkStore (<[p := Intrusive.mkSimpleCounter (wrap (Intrusive.count_ c + 1))]>
                         (objects st))
                      (destroyed st)).
Proof. intros H. unfold IncRef, with_counter. rewrite H. reflexivity. Qed.

Lemma RefCount_Some p st c :
  objects st !! p = Some c → RefCount p st = Some (Intrusive.count_ c, st).
Proof.
  intros H. unfold RefCount, with_counter. rewrite H. cbn.
  rewrite insert_id by exact H. rewrite store_eta. reflexivity.
Qed.

Lemma DecRef_Some p st c :
  objects st !! p = Some c → 0 ≤ Intrusive.count_ c < SIZE_MOD →
  DecRef p st =
    Some (tt, match object_after_DecRef c with
              | Some c' => mkStore (<[p := c']> (objects st)) (destroyed st)
              | None => mkStore (delete p (objects st)) (destroyed st ++ [p])
              end).
Proof.
  intros H Hc. unfold DecRef, object_after_DecRef.
  unfold mbind, IM_bind, with_counter. rewrite H.
  unfold Intrusive.RefCounted_DecRef, Intrusive.DecRef. cbn.
  destruct (0 <? Intrusive.count_ c) eqn:Hpos; cbn.
  - rewrite wrap_pred_eq_0 by exact Hc.
    apply Z.ltb_lt in Hpos.
    destruct (Intrusive.count_ c =? 1) eqn:H1.
    + apply Z.eqb_eq in H1.
      rewrite (proj2 (Z.leb_le _ _)) by lia.
      unfold Destroy; cbn. rewrite lookup_insert_eq.
      rewrite delete_insert_eq. reflexivity.
    + apply Z.eqb_neq in H1.
      rewrite (proj2 (Z.leb_gt _ _)) by lia.
      rewrite wrap_small by lia. reflexivity.
  - apply Z.ltb_ge in Hpos.
    rewrite (proj2 (Z.leb_le _ _)) by lia.
    unfold Destroy; cbn. rewrite lookup_insert_eq.
    rewrite delete_insert_eq. reflexivity.
Qed.

Lemma if_object_null method : if_object nullptr method = mret tt.
Proof. reflexivity. Qed.

Lemma if_object_nonnull p method : p ≠ nullptr → if_object p method = method p.
Proof.
  intros Hp. unfold if_object.
  destruct (p =? nullptr) eqn:E; [apply Z.eqb_eq in E; contradiction | reflexivity].
Qed.



Lemma MakeIntrusive_Some p st :
  p ≠ nullptr →
  MakeIntrusive p st =
    Some (mk p, mkStore (<[p := Intrusive.mkSimpleCounter 1]> (objects st)) (destroyed st)).
Proof.
  intros Hp. unfold MakeIntrusive, new_object, from_ptr.
  unfold mbind at 1, IM_bind at 1.
  rewrite if_object_nonnull by exact Hp.
  erewrite IM_bind_Some by (apply IncRef_Some; cbn; apply lookup_insert_eq).
  cbn. rewrite insert_insert_eq. reflexivity.
Qed.

(** X14.  [MakeIntrusive] followed by the destruction of the handle: the
    factory allocates an object whose counter starts at 0 and hands back a
    handle with use count 1; destroying that handle destroys the object,
    once, and leaves the store as it was before the allocation. *)
Theorem MakeIntrusive_then_destroy p st :
  p ≠ nullptr → IntrusivePtr.objects st !! p = None →
  ∃ st1,
    IntrusivePtr.MakeIntrusive p st = Some (IntrusivePtr.mk p, st1) ∧
    IntrusivePtr.UseCount (IntrusivePtr.mk p) st1 = Some (1, st1) ∧
    IntrusivePtr.dtor (IntrusivePtr.mk p) st1
      = Some (tt, IntrusivePtr.mkStore (IntrusivePtr.objects st)
                                       (IntrusivePtr.destroyed st ++ [p])).
Proof.
  intros Hp Hnone.
  set (st1 := mkStore (<[p := Intrusive.mkSimpleCounter 1]> (objects st)) (destroyed st)).
  assert (H1 : objects st1 !! p = Some (Intrusive.mkSimpleCounter 1))
    by (unfold st1; cbn; apply lookup_insert_eq).
  exists st1. split; [|split].
  - apply MakeIntrusive_Some, Hp.
  - unfold UseCount; cbn.
    destruct (p =? nullptr) eqn:E; [apply Z.eqb_eq in E; contradiction|].
    rewrite (RefCount_Some p st1 _ H1). reflexivity.
  - unfold dtor; cbn. rewrite if_object_nonnull by exact Hp.
    rewrite (DecRef_Some p st1 _ H1) by (cbn; pose proof SIZE_MOD_gt_1; lia).
    cbn. unfold st1; cbn. rewrite delete_insert_eq.
    rewrite delete_id by exact Hnone. reflexivity.
Qed.

Lemma MakeIntrusive_then_destroy_witness :
  ∃ st1,
    IntrusivePtr.MakeIntrusive 7 (IntrusivePtr.mkStore ∅ []) = Some (IntrusivePtr.mk 7, st1) ∧
    IntrusivePtr.UseCount (IntrusivePtr.mk 7) st1 = Some (1, st1) ∧
    IntrusivePtr.dtor (IntrusivePtr.mk 7) st1 = Some (tt, IntrusivePtr.mkStore ∅ [7]).
Proof.
  apply (MakeIntrusive_then_destroy 7 (mkStore ∅ [])).
  - discriminate.
  - reflexivity.
Defined.

(** X15.  Two handles built from the same raw pointer share the one counter
    embedded in the object (unlike two [SharedPtr]s built from one raw
    pointer, which get a control block each): both see the count two
    higher, and destroying both brings the counter back, destroying the
    object, once, only if no other reference was counted. *)
Theorem intrusive_raw_pointer_twice_shares_counter p st c :
  p ≠ nullptr → IntrusivePtr.objects st !! p = Some c →
  0 ≤ Intrusive.count_ c → Intrusive.count_ c + 2 < SIZE_MOD →
  ∃ st2,
    (a ← IntrusivePtr.from_ptr p; b ← IntrusivePtr.from_ptr p; mret (a, b)) st
      = Some ((IntrusivePtr.mk p, IntrusivePtr.mk p), st2) ∧
    IntrusivePtr.UseCount (IntrusivePtr.mk p) st2
      = Some (Intrusive.count_ c + 2, st2) ∧
    (IntrusivePtr.dtor (IntrusivePtr.mk p) ;; IntrusivePtr.dtor (IntrusivePtr.mk p)) st2
      = Some (tt, if Intrusive.count_ c =? 0
                  then IntrusivePtr.mkStore (delete p (IntrusivePtr.objects st))
                                            (IntrusivePtr.destroyed st ++ [p])
                  else st).
Proof.
  intros Hp Hc H0 Hmax.
  destruct c as [n]; cbn in H0, Hmax; cbn [Intrusive.count_].
  set (st1 := mkStore (<[p := Intrusive.mkSimpleCounter (n + 1)]> (objects st)) (destroyed st)).
  set (st2 := mkStore (<[p := Intrusive.mkSimpleCounter (n + 2)]> (objects st)) (destroyed st)).
  assert (H1 : objects st1 !! p = Some (Intrusive.mkSimpleCounter (n + 1)))
    by (unfold st1; cbn; apply lookup_insert_eq).
  assert (H2 : objects st2 !! p = Some (Intrusive.mkSimpleCounter (n + 2)))
    by (unfold st2; cbn; apply lookup_insert_eq).
  assert (Hf1 : from_ptr p st = Some (mk p, st1)).
  { unfold from_ptr. rewrite if_object_nonnull by exact Hp.
    erewrite IM_bind_Some by (apply (IncRef_Some p st _ Hc)).
    cbn. rewrite wrap_small by lia. reflexivity. }
  assert (Hf2 : from_ptr p st1 = Some (mk p, st2)).
  { unfold from_ptr. rewrite if_object_nonnull by exact Hp.
    erewrite IM_bind_Some by (apply (IncRef_Some p st1 _ H1)).
    cbn. rewrite wrap_small by lia. unfold st1, st2; cbn.
    rewrite insert_insert_eq.
    replace (n + 1 + 1) with (n + 2) by lia. reflexivity. }
  exists st2. split; [|split].
  - rewrite (IM_bind_Some _ _ _ _ _ Hf1), (IM_bind_Some _ _ _ _ _ Hf2). reflexivity.
  - unfold UseCount; cbn.
    destruct (p =? nullptr) eqn:E; [apply Z.eqb_eq in E; contradiction|].
    rewrite (RefCount_Some p st2 _ H2). reflexivity.
  - unfold dtor; cbn. rewrite if_object_nonnull by exact Hp.
    erewrite IM_bind_Some
      by (apply (DecRef_Some p st2 _ H2); cbn; lia).
    unfold object_after_DecRef; cbn.
    rewrite (proj2 (Z.leb_gt _ _)) by lia. cbn.
    rewrite insert_insert_eq.
    erewrite DecRef_Some; [| cbn; apply lookup_insert_eq | cbn; lia].
    unfold object_after_DecRef; cbn.
    replace (n + 2 - 1 - 1) with n by lia.
    replace (n + 2 - 1 <=? 1) with (n =? 0)
      by (destruct (Z.eqb_spec n 0); symmetry; [apply Z.leb_le | apply Z.leb_gt]; lia).
    destruct (n =? 0) eqn:En; cbn.
    + rewrite delete_insert_eq. reflexivity.
    + rewrite insert_insert_eq.
      rewrite insert_id by exact Hc. rewrite store_eta. reflexivity.
Qed.

Lemma intrusive_raw_pointer_twice_shares_counter_witness :
  ∃ st2,
    (a ← IntrusivePtr.from_ptr 7; b ← IntrusivePtr.from_ptr 7; mret (a, b))
      (IntrusivePtr.mkStore {[ 7 := Intrusive.initial ]} [])
      = Some ((IntrusivePtr.mk 7, IntrusivePtr.mk 7), st2) ∧
    IntrusivePtr.UseCount (IntrusivePtr.mk 7) st2 = Some (2, st2).
Proof.
  destruct (intrusive_raw_pointer_twice_shares_counter 7
              (IntrusivePtr.mkStore {[ 7 := Intrusive.initial ]} []) Intrusive.initial)
    as (st2 & Hrun & Hcount & _).
  - discriminate.
  - reflexivity.
  - vm_compute. discriminate.
  - vm_compute. reflexivity.
  - exists st2. split; [exact Hrun | exact Hcount].
Defined.

(** X16.  Copying a handle and destroying the copy is a round trip: the
    copy constructor does what construction from [Get()] does, the copy
    points to the same object and sees the count one higher, and its
    destruction restores the store.  Copying and destroying a null handle
    touches no object at all. *)
Theorem intrusive_copy_then_destroy_restores_store other st :
  (IntrusivePtr.data_ptr_ other = nullptr →
     IntrusivePtr.copy other st = Some (IntrusivePtr.default, st) ∧
     IntrusivePtr.dtor other st = Some (tt, st) ∧
     IntrusivePtr.UseCount other st = Some (0, st)) ∧
  (∀ c, IntrusivePtr.data_ptr_ other ≠ nullptr →
     IntrusivePtr.objects st !! IntrusivePtr.data_ptr_ other = Some c →
     0 < Intrusive.count_ c < SIZE_MAX →
     IntrusivePtr.copy other st = IntrusivePtr.from_ptr (IntrusivePtr.Get other) st ∧
     ∃ st1,
       IntrusivePtr.copy other st = Some (other, st1) ∧
       IntrusivePtr.UseCount other st1 = Some (Intrusive.count_ c + 1, st1) ∧
       (∀ q, q ≠ IntrusivePtr.data_ptr_ other →
          IntrusivePtr.objects st1 !! q = IntrusivePtr.objects st !! q) ∧
       IntrusivePtr.destroyed st1 = IntrusivePtr.destroyed st ∧
       IntrusivePtr.dtor other st1 = Some (tt, st)).
Proof.
  destruct other as [p]; cbn. split.
  - intros ->. repeat split; reflexivity.
  - intros c Hp Hc Hrange. split; [reflexivity|].
    set (st1 := mkStore (<[p := Intrusive.mkSimpleCounter (Intrusive.count_ c + 1)]>
                           (objects st)) (destroyed st)).
    assert (H1 : objects st1 !! p = Some (Intrusive.mkSimpleCounter (Intrusive.count_ c + 1)))
      by (unfold st1; cbn; apply lookup_insert_eq).
    unfold SIZE_MAX in Hrange.
    exists st1. split; [|split; [|split; [|split]]].
    + unfold copy; cbn. rewrite if_object_nonnull by exact Hp.
      erewrite IM_bind_Some by (apply (IncRef_Some p st c Hc)).
      rewrite wrap_small by lia. reflexivity.
    + unfold UseCount; cbn.
      destruct (p =? nullptr) eqn:E; [apply Z.eqb_eq in E; contradiction|].
      rewrite (RefCount_Some p st1 _ H1). reflexivity.
    + intros q Hq. unfold st1; cbn. rewrite lookup_insert_ne by congruence. reflexivity.
    + reflexivity.
    + unfold dtor; cbn. rewrite if_object_nonnull by exact Hp.
      rewrite (DecRef_Some p st1 _ H1) by (cbn; lia).
      unfold object_after_DecRef; cbn.
      rewrite (proj2 (Z.leb_gt _ _)) by lia.
      unfold st1; cbn. rewrite insert_insert_eq.
      replace (Intrusive.count_ c + 1 - 1) with (Intrusive.count_ c) by lia.
      replace (Intrusive.mkSimpleCounter (Intrusive.count_ c)) with c
        by (destruct c; reflexivity).
      rewrite insert_id by exact Hc. rewrite store_eta. reflexivity.
Qed.

Lemma intrusive_copy_then_destroy_restores_store_witness :
  ∃ st1,
    IntrusivePtr.copy (IntrusivePtr.mk 7)
      (IntrusivePtr.mkStore {[ 7 := Intrusive.mkSimpleCounter 1 ]} [])
      = Some (IntrusivePtr.mk 7, st1) ∧
    IntrusivePtr.dtor (IntrusivePtr.mk 7) st1
      = Some (tt, IntrusivePtr.mkStore {[ 7 := Intrusive.mkSimpleCounter 1 ]} []).
Proof.
  destruct (proj2 (intrusive_copy_then_destroy_restores_store (IntrusivePtr.mk 7)
                     (IntrusivePtr.mkStore {[ 7 := Intrusive.mkSimpleCounter 1 ]} []))
              (Intrusive.mkSimpleCounter 1))
    as (_ & st1 & Hcopy & _ & _ & _ & Hdtor).
  - discriminate.
  - reflexivity.
  - vm_compute. split; reflexivity.
  - exists st1. split; [exact Hcopy | exact Hdtor].
Defined.

End IntrusiveObjects.

(** * Intrusive handle objects by reference *)

Section IntrusiveByReference.
Import IntrusiveRef.

Lemma RM_bind_Done {A B} (m : RM A) (k : A → RM B) s a s' :
  m s = Done a s' → (x ← m; k x) s = k a s'.
Proof. intros H. unfold mbind, RM_bind. rewrite H. reflexivity. Qed.

Lemma RM_bind_Halt {A B} (m : RM A) (k : A → RM B) s f s' :
  m s = Halt f s' → (x ← m; k x) s = Halt f s'.
Proof. intros H. unfold mbind, RM_bind. rewrite H. reflexivity. Qed.

Lemma RM_bind_ext {A B} (m : RM A) (k1 k2 : A → RM B) s :
  (∀ a s', m s = Done a s' → k1 a s' = k2 a s') →
  (x ← m; k1 x) s = (x ← m; k2 x) s.
Proof.
  intros H. unfold mbind, RM_bind.
  destruct (m s) as [a s'|f s']; [apply H; reflexivity | reflexivity].
Qed.

Lemma on_object_Some {A} p (m : IntrusivePtr.IM A) s a st :
  m (store s) = Some (a, st) →
  on_object p m s = Done a (mkState st (members s) (handles s)).
Proof. intros H. unfold on_object. rewrite H. reflexivity. Qed.

Lemma intrusive_state_eta s : mkState (store s) (members s) (handles s) = s.
Proof. destruct s; reflexivity. Qed.

Lemma members_of_None p s : members s !! p = None → members_of p s = [].
Proof. intros H. unfold members_of. rewrite H. reflexivity. Qed.

(** [DecRef] of an object that owns no handles is the [DecRef] of the
    object store. *)
Lemma DecRef_plain p s :
  members s !! p = None →
  DecRef p s = on_object p (IntrusivePtr.DecRef p) s.
Proof.
  intros Hp. unfold DecRef. cbn [DecRef_within].
  unfold IntrusivePtr.DecRef, on_object.
  unfold mbind, RM_bind, IntrusivePtr.IM_bind, on_object.
  unfold IntrusivePtr.with_counter.
  destruct (IntrusivePtr.objects (store s) !! p) as [c|] eqn:Hc; [|reflexivity].
  cbn [fst snd].
  destruct (Intrusive.RefCounted_DecRef c) as [gone c'] eqn:Hd. cbn [fst snd].
  destruct gone; [|reflexivity].
  unfold Destroy, take_members, mbind, RM_bind.
  rewrite (members_of_None p) by exact Hp. cbn [for_each members store handles].
  rewrite delete_id by exact Hp.
  unfold mret, RM_ret, on_object, IntrusivePtr.Destroy. cbn [store members handles].
  cbn [IntrusivePtr.objects IntrusivePtr.destroyed].
  rewrite lookup_insert_eq. reflexivity.
Qed.

Lemma intrusive_if_object_null method : if_object nullptr method = mret tt.
Proof. reflexivity. Qed.

Lemma intrusive_if_object_nonnull p method :
  p ≠ nullptr → if_object p method = method p.
Proof.
  intros Hp. unfold if_object.
  destruct (p =? nullptr) eqn:E; [apply Z.eqb_eq in E; contradiction | reflexivity].
Qed.

(** The release of a reference to an object that owns no handles. *)
Lemma release_plain p s :
  (p ≠ nullptr → members s !! p = None) →
  if_object p DecRef s
  = on_object p (IntrusivePtr.if_object p IntrusivePtr.DecRef) s.
Proof.
  intros Hp. unfold if_object, IntrusivePtr.if_object.
  destruct (Z.eqb_spec p nullptr) as [->|Hnn].
  - unfold on_object. cbn. rewrite intrusive_state_eta. reflexivity.
  - apply DecRef_plain, Hp, Hnn.
Qed.

Lemma acquire_lift p s :
  if_object p IncRef s
  = on_object p (IntrusivePtr.if_object p IntrusivePtr.IncRef) s.
Proof.
  unfold if_object, IntrusivePtr.if_object.
  destruct (Z.eqb_spec p nullptr) as [->|Hnn].
  - unfold on_object. cbn. rewrite intrusive_state_eta. reflexivity.
  - reflexivity.
Qed.

(** ** Reading and writing handle objects *)

(** What a handle object holds does not depend on the object store. *)
Lemma intrusive_holds_store pl x s st' :
  holds pl x s → holds pl x (mkState st' (members s) (handles s)).
Proof.
  destruct s as [st ms hs].
  unfold holds, read, members_of. cbn [handles members].
  destruct pl as [a|p i].
  - destruct (hs !! a); [|discriminate]. intros [= ->]. reflexivity.
  - destruct (ms !! p); destruct (_ !! i); try discriminate;
      intros [= ->]; reflexivity.
Qed.

Lemma intrusive_holds_inv pl x s : holds pl x s → read pl s = Done x s.
Proof. exact id. Qed.

(** Writing a handle object that exists changes that object only. *)
Lemma write_holds pl x z s :
  holds pl z s →
  ∃ s', write pl x s = Done tt s' ∧ store s' = store s ∧
        holds pl x s' ∧
        (∀ pl' y, pl' ≠ pl → holds pl' y s → holds pl' y s') ∧
        (∀ p, members s !! p = None → members s' !! p = None).
Proof.
  destruct s as [st ms hs]. unfold holds, read, write. cbn [handles members store].
  destruct pl as [a|p i].
  - destruct (hs !! a) as [z'|] eqn:Ha; [|discriminate]. intros _.
    eexists. split; [reflexivity|]. cbn [store handles members].
    split; [reflexivity|]. split; [|split].
    + rewrite lookup_insert_eq. reflexivity.
    + intros [a'|p' i'] y Hne; cbn [handles members]; unfold members_of; cbn.
      * rewrite lookup_insert_ne by congruence.
        destruct (hs !! a'); [|discriminate]. intros [= ->]. reflexivity.
      * destruct (ms !! p'); destruct (_ !! i'); try discriminate;
          intros [= ->]; reflexivity.
    + intros p Hp. exact Hp.
  - unfold members_of. cbn [members].
    destruct (ms !! p) as [l|] eqn:Hl; [|rewrite lookup_nil; discriminate].
    destruct (l !! i) as [z'|] eqn:Hi; [|discriminate]. intros _.
    eexists. split; [reflexivity|]. cbn [store handles members].
    split; [reflexivity|]. split; [|split].
    + rewrite lookup_insert_eq.
      rewrite list_lookup_insert_eq by (eapply lookup_lt_Some; eassumption).
      reflexivity.
    + intros [a'|p' i'] y Hne; cbn [handles members].
      * destruct (hs !! a'); [|discriminate]. intros [= ->]. reflexivity.
      * destruct (decide (p' = p)) as [->|Hp].
        -- rewrite lookup_insert_eq, Hl.
           rewrite list_lookup_insert_ne by congruence.
           destruct (l !! i'); [|discriminate]. intros [= ->]. reflexivity.
        -- rewrite lookup_insert_ne by congruence.
           destruct (ms !! p'); destruct (_ !! i'); try discriminate;
             intros [= ->]; reflexivity.
    + intros q Hq. destruct (decide (q = p)) as [->|Hne]; [congruence|].
      rewrite lookup_insert_ne by congruence. exact Hq.
Qed.

(** A member of an object is no member of an object that owns no handles. *)
Lemma holds_not_in_plain_object pl y s p :
  holds pl y s → members s !! p = None → ∀ i, pl ≠ Member p i.
Proof.
  intros Hy Hp i ->. unfold holds, read, members_of in Hy. rewrite Hp in Hy.
  rewrite lookup_nil in Hy. discriminate.
Qed.

(** After a write the handle object is read back as written. *)
Lemma write_then_read {A} pl x (k : IntrusivePtr.t → RM A) s :
  (write pl x ;; y ← read pl; k y) s = (write pl x ;; k x) s.
Proof.
  unfold mbind at 1 3, RM_bind.
  destruct (write pl x s) as [[] s1|f s1] eqn:Hw; [|reflexivity].
  assert (Hr : read pl s1 = Done x s1); [|rewrite (RM_bind_Done _ _ _ _ _ Hr); reflexivity].
  destruct s as [st ms hs]. unfold write in Hw. unfold read.
  destruct pl as [a|p i]; cbn [handles members store] in *.
  - destruct (hs !! a); [|discriminate]. injection Hw as <-. cbn.
    rewrite lookup_insert_eq. reflexivity.
  - unfold members_of in *. cbn [members] in *.
    destruct (ms !! p) as [l|] eqn:Hl; [|rewrite lookup_nil in Hw; discriminate].
    destruct (l !! i) as [z|] eqn:Hi; [|discriminate].
    injection Hw as <-. cbn. rewrite lookup_insert_eq.
    rewrite list_lookup_insert_eq by (eapply lookup_lt_Some; eassumption).
    reflexivity.
Qed.

(** The common part of [Reset(new_ptr)] and of the assignments: the release
    of the object of [this], which owns no handles, and the write. *)
Lemma release_then_write this x z s st1 :
  holds this x s →
  (IntrusivePtr.data_ptr_ x ≠ nullptr → members s !! IntrusivePtr.data_ptr_ x = None) →
  IntrusivePtr.if_object (IntrusivePtr.data_ptr_ x) IntrusivePtr.DecRef (store s)
    = Some (tt, st1) →
  ∃ s', (∀ A (k : RM A),
           (if_object (IntrusivePtr.data_ptr_ x) DecRef ;; write this z ;; k) s = k s') ∧
        store s' = st1 ∧ holds this z s' ∧
        (∀ pl y, pl ≠ this → holds pl y s → holds pl y s') ∧
        (∀ p, members s !! p = None → members s' !! p = None).
Proof.
  intros Hx Hplain Hrun.
  destruct (write_holds this z x (mkState st1 (members s) (handles s))
              (intrusive_holds_store _ _ _ _ Hx))
    as (s2 & Hw & Hst & Hthis & Hframe & Hmem).
  exists s2. split; [|split; [exact Hst|split; [exact Hthis|split]]].
  - intros A k. unfold mbind, RM_bind. rewrite release_plain by exact Hplain.
    unfold on_object. rewrite Hrun, Hw. reflexivity.
  - intros pl y Hne Hy. apply Hframe; [exact Hne|].
    apply intrusive_holds_store, Hy.
  - intros p Hp. apply Hmem. exact Hp.
Qed.

(** X17.  [Reset(T* new_ptr)] on a handle object, in the client program or
    inside a pointee, whose own pointee owns no handles.  With the pointer
    the handle already holds it does nothing.  With another pointer it acts
    as the copy assignment from any other handle object that holds that
    pointer: the old object loses one reference (and is destroyed if that
    was the last one), the new object gains one, no other object and no
    other handle object is touched, and the handle holds the new pointer.
    [Reset()] is [Reset(nullptr)]. *)
Theorem intrusive_Reset_ptr_effect this x new_ptr s :
  IntrusiveRef.holds this x s →
  (IntrusivePtr.data_ptr_ x ≠ nullptr →
     IntrusiveRef.members s !! IntrusivePtr.data_ptr_ x = None) →
  (IntrusivePtr.data_ptr_ x = new_ptr →
     IntrusiveRef.Reset_ptr this new_ptr s = IntrusiveRef.Done tt s) ∧
  IntrusiveRef.Reset this s = IntrusiveRef.Reset_ptr this nullptr s ∧
  (∀ other,
     other ≠ this → IntrusiveRef.holds other (IntrusivePtr.mk new_ptr) s →
     IntrusivePtr.data_ptr_ x ≠ new_ptr →
     IntrusiveRef.Reset_ptr this new_ptr s = IntrusiveRef.copy_assign this other s) ∧
  (∀ c_old c_new,
     IntrusivePtr.data_ptr_ x ≠ new_ptr →
     IntrusivePtr.data_ptr_ x ≠ nullptr → new_ptr ≠ nullptr →
     IntrusivePtr.objects (IntrusiveRef.store s) !! IntrusivePtr.data_ptr_ x
       = Some c_old →
     0 ≤ Intrusive.count_ c_old < SIZE_MOD →
     IntrusivePtr.objects (IntrusiveRef.store s) !! new_ptr = Some c_new →
     ∃ s',
       IntrusiveRef.Reset_ptr this new_ptr s = IntrusiveRef.Done tt s' ∧
       IntrusiveRef.holds this (IntrusivePtr.mk new_ptr) s' ∧
       IntrusivePtr.objects (IntrusiveRef.store s') !! IntrusivePtr.data_ptr_ x
         = IntrusivePtr.object_after_DecRef c_old ∧
       IntrusivePtr.objects (IntrusiveRef.store s') !! new_ptr
         = Some (Intrusive.mkSimpleCounter (wrap (Intrusive.count_ c_new + 1))) ∧
       IntrusivePtr.destroyed (IntrusiveRef.store s')
         = IntrusivePtr.destroyed (IntrusiveRef.store s) ++
           (if Intrusive.count_ c_old <=? 1 then [IntrusivePtr.data_ptr_ x] else []) ∧
       (∀ q, q ≠ IntrusivePtr.data_ptr_ x → q ≠ new_ptr →
          IntrusivePtr.objects (IntrusiveRef.store s') !! q
            = IntrusivePtr.objects (IntrusiveRef.store s) !! q) ∧
       (∀ pl y, pl ≠ this → IntrusiveRef.holds pl y s → IntrusiveRef.holds pl y s')).
Proof.
  intros Hx Hplain. pose proof Hx as Hread. unfold holds in Hread.
  split; [|split; [|split]].
  - intros Heq. unfold Reset_ptr. rewrite (RM_bind_Done _ _ _ _ _ Hread).
    rewrite (proj2 (Z.eqb_eq _ _) Heq). reflexivity.
  - unfold IntrusiveRef.Reset, Reset_ptr. rewrite !(RM_bind_Done _ _ _ _ _ Hread).
    destruct (Z.eqb_spec (IntrusivePtr.data_ptr_ x) nullptr) as [E|Hnn]; [reflexivity|].
    rewrite intrusive_if_object_nonnull by exact Hnn.
    apply RM_bind_ext. intros [] s1 _.
    rewrite (write_then_read this (IntrusivePtr.mk nullptr)
               (λ x', if_object (IntrusivePtr.data_ptr_ x') IncRef) s1).
    unfold mbind, RM_bind.
    destruct (write this (IntrusivePtr.mk nullptr) s1) as [[] s2|f s2]; reflexivity.
  - intros other Hne Hother Hneq.
    unfold Reset_ptr, copy_assign. rewrite decide_False by exact Hne.
    rewrite !(RM_bind_Done _ _ _ _ _ Hread).
    rewrite (proj2 (Z.eqb_neq _ _) Hneq).
    unfold mbind at 1 4, RM_bind. rewrite release_plain by exact Hplain.
    unfold on_object.
    destruct (IntrusivePtr.if_object (IntrusivePtr.data_ptr_ x) IntrusivePtr.DecRef
                (store s)) as [[[] st1]|]; [|reflexivity].
    pose proof (intrusive_holds_store _ _ _ st1 Hother) as Ho. unfold holds in Ho.
    rewrite (RM_bind_Done _ _ _ _ _ Ho). reflexivity.
  - intros c_old c_new Hneq Hnn Hnew Hold Hrange Hcnew.
    pose proof (DecRef_Some _ _ c_old Hold Hrange) as Hdec.
    rewrite <- (if_object_nonnull _ IntrusivePtr.DecRef Hnn) in Hdec.
    destruct (release_then_write this x (IntrusivePtr.mk new_ptr) s _ Hx Hplain Hdec)
      as (s1 & Hrun & Hst & Hthis & Hframe & _).
    assert (Hcnew1 : IntrusivePtr.objects (store s1) !! new_ptr = Some c_new).
    { rewrite Hst. destruct (IntrusivePtr.object_after_DecRef c_old); cbn;
        [rewrite lookup_insert_ne by congruence
        |rewrite lookup_delete_ne by congruence]; exact Hcnew. }
    pose proof (IncRef_Some _ _ c_new Hcnew1) as Hinc.
    eexists. split; [|split].
    + unfold Reset_ptr. rewrite (RM_bind_Done _ _ _ _ _ Hread).
      rewrite (proj2 (Z.eqb_neq _ _) Hneq).
      rewrite Hrun.
      rewrite (RM_bind_Done _ _ _ _ _ Hthis). cbn [IntrusivePtr.data_ptr_].
      rewrite intrusive_if_object_nonnull by exact Hnew.
      unfold IncRef. apply on_object_Some. exact Hinc.
    + apply intrusive_holds_store, Hthis.
    + cbn [store]. rewrite Hst.
      unfold IntrusivePtr.object_after_DecRef.
      destruct (Intrusive.count_ c_old <=? 1); cbn.
      * rewrite lookup_insert_ne, lookup_delete_eq, lookup_insert_eq by congruence.
        repeat split.
        -- intros q Hq1 Hq2.
           rewrite lookup_insert_ne, lookup_delete_ne by congruence. reflexivity.
        -- intros pl y Hpl Hy. apply intrusive_holds_store, Hframe; assumption.
      * rewrite lookup_insert_ne, !lookup_insert_eq, app_nil_r by congruence.
        repeat split.
        -- intros q Hq1 Hq2. rewrite !lookup_insert_ne by congruence. reflexivity.
        -- intros pl y Hpl Hy. apply intrusive_holds_store, Hframe; assumption.
Qed.

Lemma intrusive_Reset_ptr_effect_witness :
  ∃ s',
    IntrusiveRef.Reset_ptr (IntrusiveRef.Member 5 0) 9
      (IntrusiveRef.mkState
         (IntrusivePtr.mkStore {[ 5 := Intrusive.mkSimpleCounter 1;
                                  7 := Intrusive.mkSimpleCounter 1;
                                  9 := Intrusive.mkSimpleCounter 1 ]} [])
         {[ 5 := [IntrusivePtr.mk 7] ]}
         {[ 1 := IntrusivePtr.mk 5; 2 := IntrusivePtr.mk 9 ]})
      = IntrusiveRef.Done tt s' ∧
    IntrusiveRef.holds (IntrusiveRef.Member 5 0) (IntrusivePtr.mk 9) s' ∧
    IntrusivePtr.objects (IntrusiveRef.store s') !! 7 = None ∧
    IntrusivePtr.objects (IntrusiveRef.store s') !! 9
      = Some (Intrusive.mkSimpleCounter 2) ∧
    IntrusivePtr.destroyed (IntrusiveRef.store s') = [7].
Proof.
  assert (Hx : IntrusiveRef.holds (IntrusiveRef.Member 5 0) (IntrusivePtr.mk 7)
                 (IntrusiveRef.mkState
                    (IntrusivePtr.mkStore {[ 5 := Intrusive.mkSimpleCounter 1;
                                             7 := Intrusive.mkSimpleCounter 1;
                                             9 := Intrusive.mkSimpleCounter 1 ]} [])
                    {[ 5 := [IntrusivePtr.mk 7] ]}
                    {[ 1 := IntrusivePtr.mk 5; 2 := IntrusivePtr.mk 9 ]}))
    by (vm_compute; reflexivity).
  destruct (proj2 (proj2 (proj2 (intrusive_Reset_ptr_effect _ _ 9 _ Hx
              ltac:(intros _; vm_compute; reflexivity))))
              (Intrusive.mkSimpleCounter 1) (Intrusive.mkSimpleCounter 1))
    as (s' & Hrun & Hthis & Hold & Hnew & Hlog & _).
  - discriminate.
  - discriminate.
  - discriminate.
  - vm_compute. reflexivity.
  - vm_compute. split; [discriminate | reflexivity].
  - vm_compute. reflexivity.
  - exists s'. split; [exact Hrun|]. split; [exact Hthis|].
    split; [exact Hold|]. split; [exact Hnew|exact Hlog].
Defined.

Lemma release_plain_Done p s st :
  (p ≠ nullptr → members s !! p = None) →
  IntrusivePtr.if_object p IntrusivePtr.DecRef (store s) = Some (tt, st) →
  if_object p DecRef s = Done tt (mkState st (members s) (handles s)).
Proof.
  intros Hp Hrun. rewrite release_plain by exact Hp.
  unfold on_object. rewrite Hrun. reflexivity.
Qed.

Lemma move_assign_plain this other x y s st1 :
  other ≠ this → holds this x s → holds other y s →
  (IntrusivePtr.data_ptr_ x ≠ nullptr → members s !! IntrusivePtr.data_ptr_ x = None) →
  IntrusivePtr.dtor x (store s) = Some (tt, st1) →
  ∃ s', move_assign this other s = Done tt s' ∧ store s' = st1 ∧
        holds this (IntrusivePtr.mk (IntrusivePtr.data_ptr_ y)) s' ∧
        holds other (IntrusivePtr.mk nullptr) s' ∧
        (∀ pl z, pl ≠ this → pl ≠ other → holds pl z s → holds pl z s').
Proof.
  intros Hne Hx Hy Hplain Hrun.
  pose proof (release_plain_Done _ s st1 Hplain Hrun) as Hrel.
  pose proof (intrusive_holds_store _ _ _ st1 Hx) as Hx1.
  pose proof (intrusive_holds_store _ _ _ st1 Hy) as Hy1.
  destruct (write_holds this (IntrusivePtr.mk (IntrusivePtr.data_ptr_ y)) x _ Hx1)
    as (s2 & Hw2 & Hst2 & Hthis2 & Hframe2 & _).
  pose proof (Hframe2 other y Hne Hy1) as Hy2.
  destruct (write_holds other (IntrusivePtr.mk nullptr) y _ Hy2)
    as (s3 & Hw3 & Hst3 & Hother3 & Hframe3 & _).
  exists s3. split; [|split; [|split; [|split]]].
  - unfold move_assign. rewrite decide_False by exact Hne.
    rewrite (RM_bind_Done _ _ _ _ _ Hx).
    rewrite (RM_bind_Done _ _ _ _ _ Hrel).
    rewrite (RM_bind_Done _ _ _ _ _ Hy1).
    rewrite (RM_bind_Done _ _ _ _ _ Hw2). exact Hw3.
  - rewrite Hst3, Hst2. reflexivity.
  - apply Hframe3; [congruence | exact Hthis2].
  - exact Hother3.
  - intros pl z Hp1 Hp2 Hz. apply Hframe3; [exact Hp2|].
    apply Hframe2; [exact Hp1|]. apply intrusive_holds_store, Hz.
Qed.

(** X18.  Move assignment between two distinct handle objects, in the client
    program or inside pointees, the pointee of the destination owning no
    handles: it releases the reference the destination held (destroying that
    object if it was the last one) and then takes over the source's pointer
    without counting: the object store changes as under the destructor of
    the destination's old value, the destination holds the source's pointer,
    the source is left null, and no other handle object changes.  Move
    assignment of a handle object to itself does nothing. *)
Theorem intrusive_move_assign_effect this other x y s :
  other ≠ this → IntrusiveRef.holds this x s → IntrusiveRef.holds other y s →
  (IntrusivePtr.data_ptr_ x ≠ nullptr →
     IntrusiveRef.members s !! IntrusivePtr.data_ptr_ x = None) →
  IntrusiveRef.move_assign this this s = IntrusiveRef.Done tt s ∧
  (IntrusivePtr.data_ptr_ x = nullptr →
     ∃ s', IntrusiveRef.move_assign this other s = IntrusiveRef.Done tt s' ∧
           IntrusiveRef.store s' = IntrusiveRef.store s ∧
           IntrusiveRef.holds this (IntrusivePtr.move y).1 s' ∧
           IntrusiveRef.holds other (IntrusivePtr.move y).2 s') ∧
  (∀ c_old,
     IntrusivePtr.data_ptr_ x ≠ nullptr →
     IntrusivePtr.objects (IntrusiveRef.store s) !! IntrusivePtr.data_ptr_ x
       = Some c_old →
     0 ≤ Intrusive.count_ c_old < SIZE_MOD →
     ∃ s',
       IntrusiveRef.move_assign this other s = IntrusiveRef.Done tt s' ∧
       IntrusivePtr.dtor x (IntrusiveRef.store s) = Some (tt, IntrusiveRef.store s') ∧
       IntrusiveRef.holds this (IntrusivePtr.move y).1 s' ∧
       IntrusiveRef.holds other (IntrusivePtr.move y).2 s' ∧
       IntrusivePtr.objects (IntrusiveRef.store s') !! IntrusivePtr.data_ptr_ x
         = IntrusivePtr.object_after_DecRef c_old ∧
       (∀ q, q ≠ IntrusivePtr.data_ptr_ x →
          IntrusivePtr.objects (IntrusiveRef.store s') !! q
            = IntrusivePtr.objects (IntrusiveRef.store s) !! q) ∧
       (∀ pl z, pl ≠ this → pl ≠ other →
          IntrusiveRef.holds pl z s → IntrusiveRef.holds pl z s')).
Proof.
  intros Hne Hx Hy Hplain. split; [|split].
  - unfold move_assign. rewrite decide_True by reflexivity. reflexivity.
  - intros Hnull.
    destruct (move_assign_plain this other x y s (store s) Hne Hx Hy Hplain)
      as (s' & Hrun & Hst & Hthis & Hother & _).
    { unfold IntrusivePtr.dtor. rewrite Hnull. reflexivity. }
    exists s'. repeat split; assumption.
  - intros c_old Hnn Hold Hrange.
    pose proof (DecRef_Some _ _ c_old Hold Hrange) as Hdec.
    rewrite <- (if_object_nonnull _ IntrusivePtr.DecRef Hnn) in Hdec.
    destruct (move_assign_plain this other x y s _ Hne Hx Hy Hplain Hdec)
      as (s' & Hrun & Hst & Hthis & Hother & Hframe).
    exists s'. split; [exact Hrun|]. split; [rewrite Hst; exact Hdec|].
    split; [exact Hthis|]. split; [exact Hother|].
    rewrite Hst. unfold IntrusivePtr.object_after_DecRef.
    destruct (Intrusive.count_ c_old <=? 1); cbn.
    + rewrite lookup_delete_eq. split; [reflexivity|]. split; [|exact Hframe].
      intros q Hq. rewrite lookup_delete_ne by congruence. reflexivity.
    + rewrite lookup_insert_eq. split; [reflexivity|]. split; [|exact Hframe].
      intros q Hq. rewrite lookup_insert_ne by congruence. reflexivity.
Qed.

Lemma intrusive_move_assign_effect_witness :
  ∃ s',
    IntrusiveRef.move_assign (IntrusiveRef.Client 1) (IntrusiveRef.Member 5 0)
      (IntrusiveRef.mkState
         (IntrusivePtr.mkStore {[ 5 := Intrusive.mkSimpleCounter 1;
                                  7 := Intrusive.mkSimpleCounter 2;
                                  9 := Intrusive.mkSimpleCounter 1 ]} [])
         {[ 5 := [IntrusivePtr.mk 9] ]}
         {[ 1 := IntrusivePtr.mk 7; 2 := IntrusivePtr.mk 5; 3 := IntrusivePtr.mk 7 ]})
      = IntrusiveRef.Done tt s' ∧
    IntrusiveRef.holds (IntrusiveRef.Client 1) (IntrusivePtr.mk 9) s' ∧
    IntrusiveRef.holds (IntrusiveRef.Member 5 0) (IntrusivePtr.mk nullptr) s' ∧
    IntrusivePtr.objects (IntrusiveRef.store s') !! 7 = Some (Intrusive.mkSimpleCounter 1) ∧
    IntrusivePtr.objects (IntrusiveRef.store s') !! 9 = Some (Intrusive.mkSimpleCounter 1).
Proof.
  assert (Hx : IntrusiveRef.holds (IntrusiveRef.Client 1) (IntrusivePtr.mk 7)
                 (IntrusiveRef.mkState
                    (IntrusivePtr.mkStore {[ 5 := Intrusive.mkSimpleCounter 1;
                                             7 := Intrusive.mkSimpleCounter 2;
                                             9 := Intrusive.mkSimpleCounter 1 ]} [])
                    {[ 5 := [IntrusivePtr.mk 9] ]}
                    {[ 1 := IntrusivePtr.mk 7; 2 := IntrusivePtr.mk 5;
                       3 := IntrusivePtr.mk 7 ]}))
    by (vm_compute; reflexivity).
  destruct (proj2 (proj2 (intrusive_move_assign_effect
              (IntrusiveRef.Client 1) (IntrusiveRef.Member 5 0) _ (IntrusivePtr.mk 9) _
              ltac:(discriminate) Hx ltac:(vm_compute; reflexivity)
              ltac:(intros _; vm_compute; reflexivity)))
              (Intrusive.mkSimpleCounter 2))
    as (s' & Hrun & _ & Hthis & Hother & Hold & Hrest & _).
  - discriminate.
  - vm_compute. reflexivity.
  - vm_compute. split; [discriminate | reflexivity].
  - exists s'. split; [exact Hrun|]. split; [exact Hthis|]. split; [exact Hother|].
    split; [exact Hold|]. rewrite Hrest by discriminate. vm_compute. reflexivity.
Defined.

(** X26.  A list of two nodes whose pointees own the handle to the next
    node, [head] being the only handle on the first node and its member
    [next] the only handle on the second.  Each of the three statements
    releases the first node before it is done with the second: the first
    node is deleted, its destructor destroys [next], and that deletes the
    second node.  [head = head->next] and [head = std::move(head->next)]
    then read the destroyed handle [next]; [head.Reset(head->next.Get())]
    then calls [IncRef] on the deleted second node. *)
Theorem intrusive_list_advance_uses_deleted_node :
  IntrusiveRef.two_node_list 100 200
    (IntrusiveRef.mkState (IntrusivePtr.mkStore ∅ []) ∅ ∅)
  = IntrusiveRef.Done tt (IntrusiveRef.two_nodes 100 200) ∧
  IntrusiveRef.holds (IntrusiveRef.Client 1) (IntrusivePtr.mk 100)
    (IntrusiveRef.two_nodes 100 200) ∧
  IntrusiveRef.holds (IntrusiveRef.Member 100 0) (IntrusivePtr.mk 200)
    (IntrusiveRef.two_nodes 100 200) ∧
  IntrusiveRef.copy_assign (IntrusiveRef.Client 1) (IntrusiveRef.Member 100 0)
    (IntrusiveRef.two_nodes 100 200)
  = IntrusiveRef.Halt (IntrusiveRef.DestroyedHandle 100)
      (IntrusiveRef.mkState (IntrusivePtr.mkStore ∅ [200; 100]) ∅
         (IntrusiveRef.handles (IntrusiveRef.two_nodes 100 200))) ∧
  IntrusiveRef.move_assign (IntrusiveRef.Client 1) (IntrusiveRef.Member 100 0)
    (IntrusiveRef.two_nodes 100 200)
  = IntrusiveRef.Halt (IntrusiveRef.DestroyedHandle 100)
      (IntrusiveRef.mkState (IntrusivePtr.mkStore ∅ [200; 100]) ∅
         (IntrusiveRef.handles (IntrusiveRef.two_nodes 100 200))) ∧
  IntrusiveRef.Reset_ptr (IntrusiveRef.Client 1) (IntrusivePtr.Get (IntrusivePtr.mk 200))
    (IntrusiveRef.two_nodes 100 200)
  = IntrusiveRef.Halt (IntrusiveRef.DeletedObject 200)
      (IntrusiveRef.mkState (IntrusivePtr.mkStore ∅ [200; 100]) ∅
         (<[1 := IntrusivePtr.mk 200]>
            (IntrusiveRef.handles (IntrusiveRef.two_nodes 100 200)))).
Proof. repeat split; vm_compute; reflexivity. Qed.

End IntrusiveByReference.

(** ** The chain of destructor calls ends *)

Section IntrusiveNesting.
Import IntrusiveRef.

Lemma intrusive_laden_members st ms hs st' hs' :
  laden (mkState st ms hs) = laden (mkState st' ms hs').
Proof. reflexivity. Qed.








Section Bound.
Context (depth : nat).
Hypothesis IH : ∀ p s, (laden s < depth)%nat →
  settles (laden s) (DecRef_within depth p s).




End Bound.


Section BoundIndependent.
Context (depth : nat).
Hypothesis IH : ∀ p s, (laden s < depth)%nat →
  DecRef_within (S depth) p s = DecRef_within depth p s.


End BoundIndependent.




End IntrusiveNesting.

(** * Programs over intrusive handles *)

Section IntrusivePrograms.
Import IntrusivePtr IntrusiveProgram.

(** ** Counting the handles on an object *)

Lemma sharers_empty p : sharers p ∅ = 0%nat.
Proof. unfold sharers. rewrite map_filter_empty. apply map_size_empty. Qed.

Lemma sharers_insert_fresh p hs a x :
  hs !! a = None →
  sharers p (<[a := x]> hs) =
    (sharers p hs + (if decide (data_ptr_ x = p) then 1 else 0))%nat.
Proof.
  intros Hnone. unfold sharers.
  destruct (decide (data_ptr_ x = p)) as [Hx|Hx].
  - rewrite map_filter_insert_True by exact Hx.
    rewrite map_size_insert_None; [lia|].
    apply map_lookup_filter_None. left. exact Hnone.
  - rewrite map_filter_insert_not'; [lia | exact Hx | congruence].
Qed.

Lemma sharers_delete p hs a x :
  hs !! a = Some x →
  sharers p hs =
    (sharers p (delete a hs) + (if decide (data_ptr_ x = p) then 1 else 0))%nat.
Proof.
  intros Hsome.
  rewrite <- (sharers_insert_fresh p (delete a hs) a x) by apply lookup_delete_eq.
  rewrite insert_delete_eq, insert_id by exact Hsome. reflexivity.
Qed.

Lemma sharers_replace p hs a x y :
  hs !! a = Some x →
  (sharers p (<[a := y]> hs) + (if decide (data_ptr_ x = p) then 1 else 0) =
   sharers p hs + (if decide (data_ptr_ y = p) then 1 else 0))%nat.
Proof.
  intros Hsome.
  rewrite <- insert_delete_eq.
  rewrite sharers_insert_fresh by apply lookup_delete_eq.
  rewrite (sharers_delete p hs a x Hsome). lia.
Qed.

Lemma sharers_le_size p hs : (sharers p hs ≤ size hs)%nat.
Proof. unfold sharers. apply map_subseteq_size, map_filter_subseteq. Qed.

Lemma sharers_pos p hs a x :
  hs !! a = Some x → data_ptr_ x = p → (0 < sharers p hs)%nat.
Proof.
  intros Hsome Hx. rewrite (sharers_delete p hs a x Hsome).
  rewrite decide_True by exact Hx. lia.
Qed.

Lemma sharers_two p hs a b x y :
  a ≠ b → hs !! a = Some x → hs !! b = Some y →
  data_ptr_ x = p → data_ptr_ y = p → (2 ≤ sharers p hs)%nat.
Proof.
  intros Hne Ha Hb Hx Hy.
  rewrite (sharers_delete p hs a x Ha), decide_True by exact Hx.
  rewrite (sharers_delete p (delete a hs) b y), decide_True;
    [lia | exact Hy | rewrite lookup_delete_ne by exact Hne; exact Hb].
Qed.

(** A handle that points elsewhere is not counted. *)
Lemma sharers_lt_size p hs a x :
  hs !! a = Some x → data_ptr_ x ≠ p → (sharers p hs < size hs)%nat.
Proof.
  intros Hsome Hx.
  rewrite (sharers_delete p hs a x Hsome), decide_False by exact Hx.
  pose proof (sharers_le_size p (delete a hs)).
  rewrite <- (insert_id hs a x Hsome) at 2. rewrite <- insert_delete_eq.
  rewrite map_size_insert_None by apply lookup_delete_eq. lia.
Qed.

Lemma intrusive_keys_in_range_size (hs : gmap Z IntrusivePtr.t) (n : Z) :
  (∀ a, is_Some (hs !! a) → 1 ≤ a ≤ n) → Z.of_nat (size hs) ≤ Z.max 0 n.
Proof.
  intros Hrange.
  assert (Hsub : dom hs ⊆ (list_to_set (seqZ 1 n) : gset Z)).
  { intros a Ha. apply elem_of_dom in Ha. apply Hrange in Ha.
    apply elem_of_list_to_set, elem_of_seqZ. lia. }
  apply subseteq_size in Hsub.
  rewrite size_dom in Hsub.
  rewrite size_list_to_set in Hsub by apply NoDup_seqZ.
  rewrite length_seqZ in Hsub. lia.
Qed.

Lemma intrusive_handles_bound (hs : gmap Z IntrusivePtr.t) :
  (∀ a x, hs !! a = Some x → addr_ok a = true) → Z.of_nat (size hs) < SIZE_MOD.
Proof.
  intros Hok.
  assert (H := intrusive_keys_in_range_size hs SIZE_MAX).
  pose proof SIZE_MOD_gt_1. unfold SIZE_MAX in *.
  rewrite Z.max_r in H by lia. enough (Z.of_nat (size hs) ≤ SIZE_MOD - 1) by lia.
  apply H.
  intros a [x Hx]. specialize (Hok a x Hx). apply addr_ok_range in Hok.
  unfold SIZE_MAX in Hok. exact Hok.
Qed.

Lemma intrusive_handles_bound_vacant (hs : gmap Z IntrusivePtr.t) a :
  (∀ a x, hs !! a = Some x → addr_ok a = true) →
  addr_ok a = true → hs !! a = None →
  Z.of_nat (size hs) + 1 < SIZE_MOD.
Proof.
  intros Hok Ha Hnone.
  assert (H : Z.of_nat (size (<[a := IntrusivePtr.default]> hs)) < SIZE_MOD).
  { apply intrusive_handles_bound. intros a' x Hx.
    destruct (decide (a = a')) as [<-|Hne]; [exact Ha|].
    rewrite lookup_insert_ne in Hx by exact Hne. eapply Hok, Hx. }
  rewrite map_size_insert_None in H by exact Hnone. lia.
Qed.

(** ** The store under [IncRef] and [DecRef] *)

Lemma destroys_snoc q st objs p :
  destroys q (mkStore objs (destroyed st ++ [p])) =
    (destroys q st + (if decide (p = q) then 1 else 0))%nat.
Proof.
  unfold destroys; cbn. rewrite filter_app, length_app. f_equal.
  rewrite filter_cons, filter_nil. destruct (decide (p = q)); reflexivity.
Qed.

(** [n] tells how many references each object has counted, [m] how often an
    object has been allocated at each address. *)
Lemma acquire_object st (n m : Z → nat) p :
  objects st !! nullptr = None →
  (∀ q, q ≠ nullptr → object_inv st q (n q) (m q)) →
  (p ≠ nullptr → (0 < n p)%nat ∧ Z.of_nat (n p) + 1 < SIZE_MOD) →
  ∃ st', if_object p IncRef st = Some (tt, st') ∧
    objects st' !! nullptr = None ∧
    (∀ q, q ≠ nullptr →
       object_inv st' q (n q + (if decide (p = q) then 1 else 0)) (m q)).
Proof.
  intros Hnull Hinv Hp.
  destruct (decide (p = nullptr)) as [->|Hnn].
  - exists st. rewrite if_object_null. split; [reflexivity|]. split; [exact Hnull|].
    intros q Hq. rewrite decide_False by congruence.
    rewrite Nat.add_0_r. apply Hinv, Hq.
  - destruct (Hp Hnn) as [Hpos Hmax].
    pose proof (Hinv p Hnn) as Hobj. unfold object_inv in Hobj.
    destruct (objects st !! p) as [c|] eqn:Hc; [|lia].
    destruct Hobj as (Hcount & _ & Hd).
    eexists. split; [|split].
    + rewrite if_object_nonnull by exact Hnn. apply (IncRef_Some p st c Hc).
    + cbn. rewrite lookup_insert_ne by exact Hnn. exact Hnull.
    + intros q Hq. unfold object_inv; cbn.
      destruct (decide (p = q)) as [<-|Hne].
      * rewrite lookup_insert_eq. cbn. rewrite wrap_small by lia.
        repeat split; [lia | lia | exact Hd].
      * rewrite lookup_insert_ne by exact Hne. rewrite Nat.add_0_r.
        apply (Hinv q Hq).
Qed.

Lemma release_object st (n m : Z → nat) p :
  objects st !! nullptr = None →
  (∀ q, q ≠ nullptr → object_inv st q (n q) (m q)) →
  (p ≠ nullptr → (0 < n p)%nat ∧ Z.of_nat (n p) < SIZE_MOD) →
  ∃ st', if_object p DecRef st = Some (tt, st') ∧
    objects st' !! nullptr = None ∧
    (∀ q, q ≠ nullptr →
       object_inv st' q (n q - (if decide (p = q) then 1 else 0)) (m q)).
Proof.
  intros Hnull Hinv Hp.
  destruct (decide (p = nullptr)) as [->|Hnn].
  - exists st. rewrite if_object_null. split; [reflexivity|]. split; [exact Hnull|].
    intros q Hq. rewrite decide_False by congruence.
    rewrite Nat.sub_0_r. apply Hinv, Hq.
  - destruct (Hp Hnn) as [Hpos Hmax].
    pose proof (Hinv p Hnn) as Hobj. unfold object_inv in Hobj.
    destruct (objects st !! p) as [c|] eqn:Hc; [|lia].
    destruct Hobj as (Hcount & _ & Hd).
    eexists. split; [|split].
    + rewrite if_object_nonnull by exact Hnn.
      apply (DecRef_Some p st c Hc). lia.
    + unfold object_after_DecRef. destruct (Intrusive.count_ c <=? 1); cbn.
      * rewrite lookup_delete_ne by exact Hnn. exact Hnull.
      * rewrite lookup_insert_ne by exact Hnn. exact Hnull.
    + intros q Hq. unfold object_after_DecRef.
      destruct (Intrusive.count_ c <=? 1) eqn:Hle.
      * apply Z.leb_le in Hle. unfold object_inv.
        rewrite destroys_snoc. cbn [objects].
        destruct (decide (p = q)) as [<-|Hne].
        -- rewrite lookup_delete_eq. split; lia.
        -- rewrite lookup_delete_ne by exact Hne.
           rewrite Nat.sub_0_r, Nat.add_0_r. apply (Hinv q Hq).
      * apply Z.leb_gt in Hle. unfold object_inv; cbn.
        destruct (decide (p = q)) as [<-|Hne].
        -- rewrite lookup_insert_eq. cbn. repeat split; [lia | lia | exact Hd].
        -- rewrite lookup_insert_ne by exact Hne.
           rewrite Nat.sub_0_r. apply (Hinv q Hq).
Qed.

(** ** The program invariant *)

Lemma allocations_snoc p ops o :
  allocations p (ops ++ [o]) = (allocations p ops + allocates p o)%nat.
Proof.
  unfold allocations. rewrite sum_list_with_app. cbn. lia.
Qed.

Lemma object_inv_eq st q n n' m m' :
  n = n' → m = m' → object_inv st q n m → object_inv st q n' m'.
Proof. intros -> ->. exact id. Qed.

Lemma intrusive_consistent_init : consistent [] init.
Proof.
  split; [|split; [|split]].
  - intros a x Hx. cbn in Hx. rewrite lookup_empty in Hx. discriminate.
  - reflexivity.
  - reflexivity.
  - intros p Hp. unfold object_inv; cbn. rewrite lookup_empty.
    rewrite sharers_empty. split; reflexivity.
Qed.

Lemma intrusive_addr_ok_insert (hs : gmap Z IntrusivePtr.t) a y :
  (∀ a x, hs !! a = Some x → addr_ok a = true) →
  (addr_ok a = true ∨ is_Some (hs !! a)) →
  ∀ a' x, <[a := y]> hs !! a' = Some x → addr_ok a' = true.
Proof.
  intros Hok Ha a' x Hx.
  destruct (decide (a = a')) as [<-|Hne].
  - destruct Ha as [Ha|[z Hz]]; [exact Ha | eapply Hok, Hz].
  - rewrite lookup_insert_ne in Hx by exact Hne. eapply Hok, Hx.
Qed.

Lemma intrusive_vacant_spec a s :
  vacant a s = true ↔ addr_ok a = true ∧ IntrusiveRef.handles s !! a = None.
Proof.
  unfold vacant. rewrite andb_true_iff, bool_decide_eq_true. reflexivity.
Qed.

Lemma intrusive_fresh_spec p s :
  fresh p s = true ↔ p ≠ nullptr ∧ objects (IntrusiveRef.store s) !! p = None.
Proof.
  unfold fresh. rewrite andb_true_iff, bool_decide_eq_true, negb_true_iff, Z.eqb_neq.
  reflexivity.
Qed.

Lemma named_Some st ms (hs : gmap Z IntrusivePtr.t) a x :
  hs !! a = Some x → named a (IntrusiveRef.mkState st ms hs) = true.
Proof. intros H. apply bool_decide_eq_true. cbn. rewrite H. eauto. Qed.

Lemma named_None st ms (hs : gmap Z IntrusivePtr.t) a :
  hs !! a = None → named a (IntrusiveRef.mkState st ms hs) = false.
Proof.
  intros H. apply bool_decide_eq_false. cbn. rewrite H. intros [? ?]. discriminate.
Qed.

Lemma named_spec a s : named a s = true → ∃ x, IntrusiveRef.handles s !! a = Some x.
Proof. intros H. apply bool_decide_eq_true in H. exact H. Qed.

Lemma t_eta (x : IntrusivePtr.t) : mk (data_ptr_ x) = x.
Proof. destruct x; reflexivity. Qed.

Ltac tally :=
  cbn [data_ptr_ allocates] in *;
  repeat case_decide; subst; try congruence; try lia.


(** ** The operations on the client's handle objects

    The pointees own no handles, so a release is the [DecRef] of the object
    store, and the handle objects are read and written in place. *)

Lemma intrusive_read_client st ms (hs : gmap Z IntrusivePtr.t) a x :
  hs !! a = Some x →
  IntrusiveRef.read (IntrusiveRef.Client a) (IntrusiveRef.mkState st ms hs)
  = IntrusiveRef.Done x (IntrusiveRef.mkState st ms hs).
Proof. intros H. unfold IntrusiveRef.read. cbn. rewrite H. reflexivity. Qed.

Lemma intrusive_write_client st ms (hs : gmap Z IntrusivePtr.t) a x z :
  hs !! a = Some z →
  IntrusiveRef.write (IntrusiveRef.Client a) x (IntrusiveRef.mkState st ms hs)
  = IntrusiveRef.Done tt (IntrusiveRef.mkState st ms (<[a := x]> hs)).
Proof. intros H. unfold IntrusiveRef.write. cbn. rewrite H. reflexivity. Qed.

Lemma release_client st hs p st1 :
  if_object p DecRef st = Some (tt, st1) →
  IntrusiveRef.if_object p IntrusiveRef.DecRef (IntrusiveRef.mkState st ∅ hs)
  = IntrusiveRef.Done tt (IntrusiveRef.mkState st1 ∅ hs).
Proof.
  intros H.
  apply (release_plain_Done p (IntrusiveRef.mkState st ∅ hs) st1); [|exact H].
  intros _. apply lookup_empty.
Qed.

Lemma acquire_client st ms hs p st1 :
  if_object p IncRef st = Some (tt, st1) →
  IntrusiveRef.if_object p IntrusiveRef.IncRef (IntrusiveRef.mkState st ms hs)
  = IntrusiveRef.Done tt (IntrusiveRef.mkState st1 ms hs).
Proof.
  intros H. rewrite acquire_lift. unfold IntrusiveRef.on_object. cbn.
  rewrite H. reflexivity.
Qed.

Ltac step H := rewrite (RM_bind_Done _ _ _ _ _ H).

Lemma copy_clients st ms hs dst src other st1 :
  hs !! src = Some other →
  if_object (data_ptr_ other) IncRef st = Some (tt, st1) →
  IntrusiveRef.copy dst (IntrusiveRef.Client src) (IntrusiveRef.mkState st ms hs)
  = IntrusiveRef.Done tt
      (IntrusiveRef.mkState st1 ms (<[dst := mk (data_ptr_ other)]> hs)).
Proof.
  intros Hsrc Hrun. unfold IntrusiveRef.copy.
  step (intrusive_read_client st ms hs src other Hsrc).
  unfold IntrusiveRef.declare at 1. unfold mbind at 1, IntrusiveRef.RM_bind.
  cbn [IntrusiveRef.store IntrusiveRef.members IntrusiveRef.handles].
  apply acquire_client. exact Hrun.
Qed.

Lemma from_ptr_clients st ms hs dst p st1 :
  if_object p IncRef st = Some (tt, st1) →
  IntrusiveRef.from_ptr dst p (IntrusiveRef.mkState st ms hs)
  = IntrusiveRef.Done tt (IntrusiveRef.mkState st1 ms (<[dst := mk p]> hs)).
Proof.
  intros Hrun. unfold IntrusiveRef.from_ptr.
  unfold IntrusiveRef.declare at 1. unfold mbind at 1, IntrusiveRef.RM_bind.
  cbn [IntrusiveRef.store IntrusiveRef.members IntrusiveRef.handles].
  apply acquire_client. exact Hrun.
Qed.

Lemma move_clients st ms hs dst src other :
  hs !! src = Some other → src ≠ dst →
  IntrusiveRef.move dst (IntrusiveRef.Client src) (IntrusiveRef.mkState st ms hs)
  = IntrusiveRef.Done tt
      (IntrusiveRef.mkState st ms
         (<[src := mk nullptr]> (<[dst := mk (data_ptr_ other)]> hs))).
Proof.
  intros Hsrc Hne. unfold IntrusiveRef.move.
  step (intrusive_read_client st ms hs src other Hsrc).
  unfold IntrusiveRef.declare at 1. unfold mbind at 1, IntrusiveRef.RM_bind.
  cbn [IntrusiveRef.store IntrusiveRef.members IntrusiveRef.handles].
  apply (intrusive_write_client _ _ _ _ _ other).
  rewrite lookup_insert_ne by congruence. exact Hsrc.
Qed.

Lemma copy_assign_clients st hs dst src this other st1 st2 :
  hs !! dst = Some this → hs !! src = Some other → dst ≠ src →
  if_object (data_ptr_ this) DecRef st = Some (tt, st1) →
  if_object (data_ptr_ other) IncRef st1 = Some (tt, st2) →
  IntrusiveRef.copy_assign (IntrusiveRef.Client dst) (IntrusiveRef.Client src)
    (IntrusiveRef.mkState st ∅ hs)
  = IntrusiveRef.Done tt
      (IntrusiveRef.mkState st2 ∅ (<[dst := mk (data_ptr_ other)]> hs)).
Proof.
  intros Hdst Hsrc Hne Hrun1 Hrun2. unfold IntrusiveRef.copy_assign.
  rewrite decide_False by congruence.
  step (intrusive_read_client st ∅ hs dst this Hdst).
  step (release_client st hs _ st1 Hrun1).
  step (intrusive_read_client st1 ∅ hs src other Hsrc).
  step (intrusive_write_client st1 ∅ hs dst (mk (data_ptr_ other)) this Hdst).
  step (intrusive_read_client st1 ∅ (<[dst := mk (data_ptr_ other)]> hs) dst _
          (lookup_insert_eq _ _ _)).
  apply acquire_client. exact Hrun2.
Qed.

Lemma move_assign_clients st hs dst src this other st1 :
  hs !! dst = Some this → hs !! src = Some other → dst ≠ src →
  if_object (data_ptr_ this) DecRef st = Some (tt, st1) →
  IntrusiveRef.move_assign (IntrusiveRef.Client dst) (IntrusiveRef.Client src)
    (IntrusiveRef.mkState st ∅ hs)
  = IntrusiveRef.Done tt
      (IntrusiveRef.mkState st1 ∅
         (<[src := mk nullptr]> (<[dst := mk (data_ptr_ other)]> hs))).
Proof.
  intros Hdst Hsrc Hne Hrun1. unfold IntrusiveRef.move_assign.
  rewrite decide_False by congruence.
  step (intrusive_read_client st ∅ hs dst this Hdst).
  step (release_client st hs _ st1 Hrun1).
  step (intrusive_read_client st1 ∅ hs src other Hsrc).
  step (intrusive_write_client st1 ∅ hs dst (mk (data_ptr_ other)) this Hdst).
  apply (intrusive_write_client _ _ _ _ _ other).
  rewrite lookup_insert_ne by congruence. exact Hsrc.
Qed.

Lemma Reset_clients st hs a this st1 :
  hs !! a = Some this →
  if_object (data_ptr_ this) DecRef st = Some (tt, st1) →
  IntrusiveRef.Reset (IntrusiveRef.Client a) (IntrusiveRef.mkState st ∅ hs)
  = IntrusiveRef.Done tt (IntrusiveRef.mkState st1 ∅ (<[a := mk nullptr]> hs)).
Proof.
  intros Ha Hrun1. unfold IntrusiveRef.Reset.
  step (intrusive_read_client st ∅ hs a this Ha).
  destruct (Z.eqb_spec (data_ptr_ this) nullptr) as [E|Hnn].
  - rewrite E in Hrun1. rewrite if_object_null in Hrun1. injection Hrun1 as <-.
    destruct this as [p]. cbn in E. subst p. rewrite insert_id by exact Ha.
    reflexivity.
  - pose proof (release_client st hs _ st1 Hrun1) as Hrel.
    rewrite intrusive_if_object_nonnull in Hrel by exact Hnn.
    step Hrel. apply (intrusive_write_client _ _ _ _ _ this). exact Ha.
Qed.

Lemma Reset_ptr_clients st hs a this new_ptr st1 st2 :
  hs !! a = Some this → data_ptr_ this ≠ new_ptr →
  if_object (data_ptr_ this) DecRef st = Some (tt, st1) →
  if_object new_ptr IncRef st1 = Some (tt, st2) →
  IntrusiveRef.Reset_ptr (IntrusiveRef.Client a) new_ptr (IntrusiveRef.mkState st ∅ hs)
  = IntrusiveRef.Done tt (IntrusiveRef.mkState st2 ∅ (<[a := mk new_ptr]> hs)).
Proof.
  intros Ha Hne Hrun1 Hrun2. unfold IntrusiveRef.Reset_ptr.
  step (intrusive_read_client st ∅ hs a this Ha).
  rewrite (proj2 (Z.eqb_neq _ _) Hne).
  step (release_client st hs _ st1 Hrun1).
  step (intrusive_write_client st1 ∅ hs a (mk new_ptr) this Ha).
  step (intrusive_read_client st1 ∅ (<[a := mk new_ptr]> hs) a _ (lookup_insert_eq _ _ _)).
  apply acquire_client. exact Hrun2.
Qed.

Lemma Reset_ptr_same_clients st ms hs a this :
  hs !! a = Some this →
  IntrusiveRef.Reset_ptr (IntrusiveRef.Client a) (data_ptr_ this)
    (IntrusiveRef.mkState st ms hs)
  = IntrusiveRef.Done tt (IntrusiveRef.mkState st ms hs).
Proof.
  intros Ha. unfold IntrusiveRef.Reset_ptr.
  step (intrusive_read_client st ms hs a this Ha). rewrite Z.eqb_refl. reflexivity.
Qed.

Lemma Swap_clients st ms hs a b this other :
  hs !! a = Some this → hs !! b = Some other →
  IntrusiveRef.Swap (IntrusiveRef.Client a) (IntrusiveRef.Client b)
    (IntrusiveRef.mkState st ms hs)
  = IntrusiveRef.Done tt
      (IntrusiveRef.mkState st ms
         (<[b := mk (data_ptr_ this)]> (<[a := mk (data_ptr_ other)]> hs))).
Proof.
  intros Ha Hb. unfold IntrusiveRef.Swap.
  step (intrusive_read_client st ms hs a this Ha).
  step (intrusive_read_client st ms hs b other Hb).
  step (intrusive_write_client st ms hs a (mk (data_ptr_ other)) this Ha).
  destruct (decide (a = b)) as [->|Hne].
  - apply (intrusive_write_client _ _ _ _ _ (mk (data_ptr_ other))). apply lookup_insert_eq.
  - apply (intrusive_write_client _ _ _ _ _ other).
    rewrite lookup_insert_ne by congruence. exact Hb.
Qed.

Lemma dtor_clients st hs a this st1 :
  hs !! a = Some this →
  if_object (data_ptr_ this) DecRef st = Some (tt, st1) →
  IntrusiveRef.dtor a (IntrusiveRef.mkState st ∅ hs)
  = IntrusiveRef.Done tt (IntrusiveRef.mkState st1 ∅ (delete a hs)).
Proof.
  intros Ha Hrun1. unfold IntrusiveRef.dtor.
  step (intrusive_read_client st ∅ hs a this Ha).
  step (release_client st hs _ st1 Hrun1).
  reflexivity.
Qed.

Lemma MakeIntrusive_clients st ms hs dst p :
  p ≠ nullptr →
  IntrusiveRef.MakeIntrusive dst p (IntrusiveRef.mkState st ms hs)
  = IntrusiveRef.Done tt
      (IntrusiveRef.mkState
         (mkStore (<[p := Intrusive.mkSimpleCounter 1]> (objects st)) (destroyed st))
         ms (<[dst := mk p]> hs)).
Proof.
  intros Hp. unfold IntrusiveRef.MakeIntrusive.
  unfold IntrusiveRef.on_object at 1, new_object. unfold mbind at 1, IntrusiveRef.RM_bind.
  cbn [IntrusiveRef.store IntrusiveRef.members IntrusiveRef.handles].
  apply from_ptr_clients. rewrite if_object_nonnull by exact Hp.
  erewrite IncRef_Some by (cbn; apply lookup_insert_eq).
  cbn. rewrite insert_insert_eq. reflexivity.
Qed.

Lemma intrusive_exec_step ops s o :
  consistent ops s →
  match exec o s with
  | IntrusiveRef.Done _ s' => consistent (ops ++ [o]) s'
  | IntrusiveRef.Halt _ _ => well_formed o s = false
  end.
Proof.
  destruct s as [st ms hs]. intros (Hok & Hnull & Hmem & Hinv).
  cbn [IntrusiveRef.store IntrusiveRef.handles IntrusiveRef.members] in Hok, Hnull, Hmem, Hinv.
  subst ms.
  pose proof (intrusive_handles_bound hs Hok) as Hsize.
  destruct o; cbn [exec well_formed].
  - (* OpDefault *)
    destruct (vacant dst _) eqn:Hv; [|reflexivity].
    apply intrusive_vacant_spec in Hv as [Ha Hnone]; cbn in Hnone.
    unfold IntrusiveRef.declare.
    split; [|split; [|split]];
      cbn [IntrusiveRef.store IntrusiveRef.handles IntrusiveRef.members].
    + apply intrusive_addr_ok_insert; [exact Hok | left; exact Ha].
    + exact Hnull.
    + reflexivity.
    + intros q Hq. eapply object_inv_eq; [| |apply (Hinv q Hq)].
      * rewrite sharers_insert_fresh by exact Hnone. unfold default. tally.
      * rewrite allocations_snoc. tally.
  - (* OpMake *)
    destruct (vacant dst _) eqn:Hv; cbn [andb]; [|reflexivity].
    destruct (fresh p _) eqn:Hf; [|reflexivity].
    apply intrusive_vacant_spec in Hv as [Ha Hnone]; cbn in Hnone.
    apply intrusive_fresh_spec in Hf as [Hp Hfresh]; cbn in Hfresh.
    rewrite MakeIntrusive_clients by exact Hp.
    split; [|split; [|split]];
      cbn [IntrusiveRef.store IntrusiveRef.handles IntrusiveRef.members].
    + apply intrusive_addr_ok_insert; [exact Hok | left; exact Ha].
    + cbn. rewrite lookup_insert_ne by exact Hp. exact Hnull.
    + reflexivity.
    + intros q Hq. rewrite sharers_insert_fresh, allocations_snoc by exact Hnone.
      pose proof (Hinv q Hq) as Hobj.
      unfold object_inv in *; cbn [objects data_ptr_ allocates].
      destruct (decide (p = q)) as [<-|Hne].
      * rewrite lookup_insert_eq. rewrite Hfresh in Hobj.
        destruct Hobj as [Hn Hd]. rewrite Hn. cbn. unfold destroys in *; cbn.
        repeat split; lia.
      * rewrite lookup_insert_ne by exact Hne. rewrite !Nat.add_0_r. exact Hobj.
  - (* OpCopy *)
    destruct (vacant dst _) eqn:Hv; cbn [andb]; [|reflexivity].
    apply intrusive_vacant_spec in Hv as [Ha Hnone]; cbn in Hnone.
    destruct (hs !! src) as [other|] eqn:Hsrc;
      [rewrite (named_Some st ∅ _ _ _ Hsrc) | rewrite (named_None st ∅ _ _ Hsrc); reflexivity].
    destruct (acquire_object st (λ q, sharers q hs) (λ q, allocations q ops)
                (data_ptr_ other) Hnull Hinv) as (st' & Hrun & Hnull' & Hinv').
    { intros _. split; [apply (sharers_pos _ hs src other Hsrc eq_refl)|].
      pose proof (sharers_le_size (data_ptr_ other) hs).
      pose proof (intrusive_handles_bound_vacant hs dst Hok Ha Hnone). lia. }
    rewrite (copy_clients _ _ _ _ _ _ _ Hsrc Hrun).
    split; [|split; [|split]];
      cbn [IntrusiveRef.store IntrusiveRef.handles IntrusiveRef.members].
    + apply intrusive_addr_ok_insert; [exact Hok | left; exact Ha].
    + exact Hnull'.
    + reflexivity.
    + intros q Hq. eapply object_inv_eq; [| |apply (Hinv' q Hq)].
      * rewrite sharers_insert_fresh by exact Hnone. tally.
      * rewrite allocations_snoc. tally.
  - (* OpFromGet *)
    destruct (vacant dst _) eqn:Hv; cbn [andb]; [|reflexivity].
    apply intrusive_vacant_spec in Hv as [Ha Hnone]; cbn in Hnone.
    destruct (hs !! src) as [other|] eqn:Hsrc;
      [rewrite (named_Some st ∅ _ _ _ Hsrc) | rewrite (named_None st ∅ _ _ Hsrc); reflexivity].
    destruct (acquire_object st (λ q, sharers q hs) (λ q, allocations q ops)
                (data_ptr_ other) Hnull Hinv) as (st' & Hrun & Hnull' & Hinv').
    { intros _. split; [apply (sharers_pos _ hs src other Hsrc eq_refl)|].
      pose proof (sharers_le_size (data_ptr_ other) hs).
      pose proof (intrusive_handles_bound_vacant hs dst Hok Ha Hnone). lia. }
    step (intrusive_read_client st ∅ hs src other Hsrc). unfold Get.
    rewrite (from_ptr_clients _ _ _ _ _ _ Hrun).
    split; [|split; [|split]];
      cbn [IntrusiveRef.store IntrusiveRef.handles IntrusiveRef.members].
    + apply intrusive_addr_ok_insert; [exact Hok | left; exact Ha].
    + exact Hnull'.
    + reflexivity.
    + intros q Hq. eapply object_inv_eq; [| |apply (Hinv' q Hq)].
      * rewrite sharers_insert_fresh by exact Hnone. tally.
      * rewrite allocations_snoc. tally.
  - (* OpMove *)
    destruct (vacant dst _) eqn:Hv; cbn [andb]; [|reflexivity].
    apply intrusive_vacant_spec in Hv as [Ha Hnone]; cbn in Hnone.
    destruct (hs !! src) as [other|] eqn:Hsrc;
      [rewrite (named_Some st ∅ _ _ _ Hsrc) | rewrite (named_None st ∅ _ _ Hsrc); reflexivity].
    assert (Hne : src ≠ dst) by congruence.
    rewrite (move_clients _ _ _ _ _ _ Hsrc Hne).
    split; [|split; [|split]];
      cbn [IntrusiveRef.store IntrusiveRef.handles IntrusiveRef.members].
    + apply intrusive_addr_ok_insert; [|right].
      * apply intrusive_addr_ok_insert; [exact Hok | left; exact Ha].
      * rewrite lookup_insert_ne by congruence. eauto.
    + exact Hnull.
    + reflexivity.
    + intros q Hq. eapply object_inv_eq; [| |apply (Hinv q Hq)].
      * pose proof (sharers_replace q (<[dst := mk (data_ptr_ other)]> hs) src other
                      (mk nullptr)) as H2.
        rewrite lookup_insert_ne in H2 by congruence. specialize (H2 Hsrc).
        rewrite (sharers_insert_fresh q hs dst _ Hnone) in H2. tally.
      * rewrite allocations_snoc. tally.
  - (* OpCopyAssign *)
    destruct (hs !! dst) as [this|] eqn:Hdst;
      [rewrite (named_Some st ∅ _ _ _ Hdst) | rewrite (named_None st ∅ _ _ Hdst); reflexivity].
    destruct (hs !! src) as [other|] eqn:Hsrc;
      [rewrite (named_Some st ∅ _ _ _ Hsrc) | rewrite (named_None st ∅ _ _ Hsrc); reflexivity].
    cbn [andb].
    destruct (decide (dst = src)) as [->|Hne].
    + unfold IntrusiveRef.copy_assign. rewrite decide_True by reflexivity.
      split; [exact Hok|]. split; [exact Hnull|]. split; [reflexivity|].
      intros q Hq. eapply object_inv_eq; [| |apply (Hinv q Hq)];
        [reflexivity | rewrite allocations_snoc; tally].
    + destruct (release_object st (λ q, sharers q hs) (λ q, allocations q ops)
                  (data_ptr_ this) Hnull Hinv) as (st1 & Hrun1 & Hnull1 & Hinv1).
      { intros _. split; [apply (sharers_pos _ hs dst this Hdst eq_refl)|].
        pose proof (sharers_le_size (data_ptr_ this) hs). lia. }
      destruct (acquire_object st1 _ _ (data_ptr_ other) Hnull1 Hinv1)
        as (st2 & Hrun2 & Hnull2 & Hinv2).
      { intros _. cbn beta.
        destruct (decide (data_ptr_ this = data_ptr_ other)) as [Heq|Hneq].
        - pose proof (sharers_two (data_ptr_ other) hs dst src this other Hne Hdst Hsrc Heq eq_refl).
          pose proof (sharers_le_size (data_ptr_ other) hs). lia.
        - pose proof (sharers_pos (data_ptr_ other) hs src other Hsrc eq_refl).
          pose proof (sharers_lt_size (data_ptr_ other) hs dst this Hdst Hneq). lia. }
      rewrite (copy_assign_clients _ _ _ _ _ _ _ _ Hdst Hsrc Hne Hrun1 Hrun2).
      split; [|split; [|split]];
        cbn [IntrusiveRef.store IntrusiveRef.handles IntrusiveRef.members].
      * apply intrusive_addr_ok_insert; [exact Hok | right; eauto].
      * exact Hnull2.
      * reflexivity.
      * intros q Hq. eapply object_inv_eq; [| |apply (Hinv2 q Hq)].
        -- pose proof (sharers_replace q hs dst this (mk (data_ptr_ other)) Hdst).
           pose proof (sharers_pos q hs dst this Hdst). tally.
        -- rewrite allocations_snoc. tally.
  - (* OpMoveAssign *)
    destruct (hs !! dst) as [this|] eqn:Hdst;
      [rewrite (named_Some st ∅ _ _ _ Hdst) | rewrite (named_None st ∅ _ _ Hdst); reflexivity].
    destruct (hs !! src) as [other|] eqn:Hsrc;
      [rewrite (named_Some st ∅ _ _ _ Hsrc) | rewrite (named_None st ∅ _ _ Hsrc); reflexivity].
    cbn [andb].
    destruct (decide (dst = src)) as [->|Hne].
    + unfold IntrusiveRef.move_assign. rewrite decide_True by reflexivity.
      split; [exact Hok|]. split; [exact Hnull|]. split; [reflexivity|].
      intros q Hq. eapply object_inv_eq; [| |apply (Hinv q Hq)];
        [reflexivity | rewrite allocations_snoc; tally].
    + destruct (release_object st (λ q, sharers q hs) (λ q, allocations q ops)
                  (data_ptr_ this) Hnull Hinv) as (st1 & Hrun1 & Hnull1 & Hinv1).
      { intros _. split; [apply (sharers_pos _ hs dst this Hdst eq_refl)|].
        pose proof (sharers_le_size (data_ptr_ this) hs). lia. }
      rewrite (move_assign_clients _ _ _ _ _ _ _ Hdst Hsrc Hne Hrun1).
      split; [|split; [|split]];
        cbn [IntrusiveRef.store IntrusiveRef.handles IntrusiveRef.members].
      * apply intrusive_addr_ok_insert; [|right].
        -- apply intrusive_addr_ok_insert; [exact Hok | right; eauto].
        -- rewrite lookup_insert_ne by congruence. eauto.
      * exact Hnull1.
      * reflexivity.
      * intros q Hq. eapply object_inv_eq; [| |apply (Hinv1 q Hq)].
        -- pose proof (sharers_replace q hs dst this (mk (data_ptr_ other)) Hdst).
           pose proof (sharers_replace q (<[dst := mk (data_ptr_ other)]> hs) src other
                         (mk nullptr)) as H2.
           rewrite lookup_insert_ne in H2 by congruence. specialize (H2 Hsrc).
           pose proof (sharers_pos q hs dst this Hdst).
           pose proof (sharers_pos q hs src other Hsrc).
           tally.
        -- rewrite allocations_snoc. tally.
  - (* OpReset *)
    destruct (hs !! a) as [this|] eqn:Ha;
      [rewrite (named_Some st ∅ _ _ _ Ha) | rewrite (named_None st ∅ _ _ Ha); reflexivity].
    destruct (release_object st (λ q, sharers q hs) (λ q, allocations q ops)
                (data_ptr_ this) Hnull Hinv) as (st1 & Hrun1 & Hnull1 & Hinv1).
    { intros _. split; [apply (sharers_pos _ hs a this Ha eq_refl)|].
      pose proof (sharers_le_size (data_ptr_ this) hs). lia. }
    rewrite (Reset_clients _ _ _ _ _ Ha Hrun1).
    split; [|split; [|split]];
      cbn [IntrusiveRef.store IntrusiveRef.handles IntrusiveRef.members].
    + apply intrusive_addr_ok_insert; [exact Hok | right; eauto].
    + exact Hnull1.
    + reflexivity.
    + intros q Hq. eapply object_inv_eq; [| |apply (Hinv1 q Hq)].
      * pose proof (sharers_replace q hs a this (mk nullptr) Ha).
        pose proof (sharers_pos q hs a this Ha). tally.
      * rewrite allocations_snoc. tally.
  - (* OpResetGet *)
    destruct (hs !! a) as [this|] eqn:Ha;
      [rewrite (named_Some st ∅ _ _ _ Ha) | rewrite (named_None st ∅ _ _ Ha); reflexivity].
    destruct (hs !! src) as [other|] eqn:Hsrc;
      [rewrite (named_Some st ∅ _ _ _ Hsrc) | rewrite (named_None st ∅ _ _ Hsrc); reflexivity].
    cbn [andb].
    step (intrusive_read_client st ∅ hs src other Hsrc). unfold Get.
    destruct (decide (data_ptr_ this = data_ptr_ other)) as [Heq|Hneq].
    + rewrite <- Heq. rewrite (Reset_ptr_same_clients _ _ _ _ _ Ha).
      split; [exact Hok|]. split; [exact Hnull|]. split; [reflexivity|].
      intros q Hq. eapply object_inv_eq; [| |apply (Hinv q Hq)];
        [reflexivity | rewrite allocations_snoc; tally].
    + destruct (release_object st (λ q, sharers q hs) (λ q, allocations q ops)
                  (data_ptr_ this) Hnull Hinv) as (st1 & Hrun1 & Hnull1 & Hinv1).
      { intros _. split; [apply (sharers_pos _ hs a this Ha eq_refl)|].
        pose proof (sharers_le_size (data_ptr_ this) hs). lia. }
      destruct (acquire_object st1 _ _ (data_ptr_ other) Hnull1 Hinv1)
        as (st2 & Hrun2 & Hnull2 & Hinv2).
      { intros _. cbn beta. rewrite decide_False by exact Hneq.
        pose proof (sharers_pos (data_ptr_ other) hs src other Hsrc eq_refl).
        pose proof (sharers_lt_size (data_ptr_ other) hs a this Ha Hneq). lia. }
      rewrite (Reset_ptr_clients _ _ _ _ _ _ _ Ha Hneq Hrun1 Hrun2).
      split; [|split; [|split]];
        cbn [IntrusiveRef.store IntrusiveRef.handles IntrusiveRef.members].
      * apply intrusive_addr_ok_insert; [exact Hok | right; eauto].
      * exact Hnull2.
      * reflexivity.
      * intros q Hq. eapply object_inv_eq; [| |apply (Hinv2 q Hq)].
        -- pose proof (sharers_replace q hs a this (mk (data_ptr_ other)) Ha).
           pose proof (sharers_pos q hs a this Ha). tally.
        -- rewrite allocations_snoc. tally.
  - (* OpSwap *)
    destruct (hs !! a) as [this|] eqn:Ha;
      [rewrite (named_Some st ∅ _ _ _ Ha) | rewrite (named_None st ∅ _ _ Ha); reflexivity].
    destruct (hs !! b) as [other|] eqn:Hb;
      [rewrite (named_Some st ∅ _ _ _ Hb) | rewrite (named_None st ∅ _ _ Hb); reflexivity].
    cbn [andb].
    rewrite (Swap_clients _ _ _ _ _ _ _ Ha Hb).
    split; [|split; [|split]];
      cbn [IntrusiveRef.store IntrusiveRef.handles IntrusiveRef.members].
    + apply intrusive_addr_ok_insert; [|right].
      * apply intrusive_addr_ok_insert; [exact Hok | right; eauto].
      * destruct (decide (a = b)) as [->|Hne];
          [rewrite lookup_insert_eq | rewrite lookup_insert_ne by congruence]; eauto.
    + exact Hnull.
    + reflexivity.
    + intros q Hq. eapply object_inv_eq; [| |apply (Hinv q Hq)].
      * destruct (decide (a = b)) as [->|Hne].
        -- rewrite insert_insert_eq.
           assert (this = other) by congruence. subst other.
           rewrite t_eta, insert_id by exact Ha. reflexivity.
        -- pose proof (sharers_replace q hs a this (mk (data_ptr_ other)) Ha).
           pose proof (sharers_replace q (<[a := mk (data_ptr_ other)]> hs) b other
                         (mk (data_ptr_ this))) as H2.
           rewrite lookup_insert_ne in H2 by congruence. specialize (H2 Hb).
           tally.
      * rewrite allocations_snoc. tally.
  - (* OpDestroy *)
    destruct (hs !! a) as [this|] eqn:Ha;
      [rewrite (named_Some st ∅ _ _ _ Ha) | rewrite (named_None st ∅ _ _ Ha); reflexivity].
    destruct (release_object st (λ q, sharers q hs) (λ q, allocations q ops)
                (data_ptr_ this) Hnull Hinv) as (st1 & Hrun1 & Hnull1 & Hinv1).
    { intros _. split; [apply (sharers_pos _ hs a this Ha eq_refl)|].
      pose proof (sharers_le_size (data_ptr_ this) hs). lia. }
    rewrite (dtor_clients _ _ _ _ _ Ha Hrun1).
    split; [|split; [|split]];
      cbn [IntrusiveRef.store IntrusiveRef.handles IntrusiveRef.members].
    + intros a' x Hx. apply lookup_delete_Some in Hx as [_ Hx]. eapply Hok, Hx.
    + exact Hnull1.
    + reflexivity.
    + intros q Hq. eapply object_inv_eq; [| |apply (Hinv1 q Hq)].
      * pose proof (sharers_delete q hs a this Ha). tally.
      * rewrite allocations_snoc. tally.
Qed.

Lemma intrusive_run_app l1 l2 s :
  run (l1 ++ l2) s =
    match run l1 s with
    | Some s' => run l2 s'
    | None => None
    end.
Proof.
  revert s. induction l1 as [|o l1 IH]; intros s; cbn; [reflexivity|].
  destruct (exec o s); [apply IH | reflexivity].
Qed.

Lemma intrusive_run_consistent ops s :
  run ops init = Some s → consistent ops s.
Proof.
  revert s. induction ops as [|o ops IH] using rev_ind; intros s Hrun.
  - cbn in Hrun. injection Hrun as <-. apply intrusive_consistent_init.
  - rewrite intrusive_run_app in Hrun.
    destruct (run ops init) as [s0|] eqn:Hs0; [|discriminate].
    cbn in Hrun. pose proof (intrusive_exec_step ops s0 o (IH s0 eq_refl)) as Hstep.
    destruct (exec o s0) as [[] s1|f s1]; [|discriminate].
    injection Hrun as <-. exact Hstep.
Qed.

Lemma intrusive_exec_ill_formed o s :
  well_formed o s = false → exec o s = IntrusiveRef.Halt IntrusiveRef.NoHandle s.
Proof. intros H. destruct o; cbn [exec well_formed] in *; rewrite H; reflexivity. Qed.

(** X19.  Programs whose pointees own no handles: in every state a program
    of operations on the client's handle objects reaches from the empty one,
    [UseCount] of a handle that points to an object is the number of handle
    objects that point to that object, which is at least one, and the object
    is alive: it has been destroyed once less often than objects were
    allocated at its address.  [UseCount] of a null handle is 0.  Neither
    call changes the store. *)
Theorem intrusive_use_count_is_number_of_handles ops s a x :
  IntrusiveProgram.run ops IntrusiveProgram.init = Some s →
  IntrusiveRef.handles s !! a = Some x →
  (IntrusivePtr.data_ptr_ x = nullptr →
     IntrusivePtr.UseCount x (IntrusiveRef.store s)
       = Some (0, IntrusiveRef.store s)) ∧
  (IntrusivePtr.data_ptr_ x ≠ nullptr →
     IntrusivePtr.UseCount x (IntrusiveRef.store s)
       = Some (Z.of_nat (IntrusiveProgram.sharers (IntrusivePtr.data_ptr_ x)
                           (IntrusiveRef.handles s)),
               IntrusiveRef.store s) ∧
     (1 ≤ IntrusiveProgram.sharers (IntrusivePtr.data_ptr_ x)
            (IntrusiveRef.handles s))%nat ∧
     S (IntrusiveProgram.destroys (IntrusivePtr.data_ptr_ x) (IntrusiveRef.store s))
       = IntrusiveProgram.allocations (IntrusivePtr.data_ptr_ x) ops).
Proof.
  intros Hrun Hx.
  destruct (intrusive_run_consistent ops s Hrun) as (_ & _ & _ & Hinv).
  split.
  - intros Hp. unfold UseCount. rewrite Hp. reflexivity.
  - intros Hp. specialize (Hinv _ Hp).
    pose proof (sharers_pos _ _ a x Hx eq_refl) as Hpos.
    unfold object_inv in Hinv.
    destruct (objects (IntrusiveRef.store s) !! data_ptr_ x) as [c|] eqn:Hc; [|lia].
    destruct Hinv as (Hcount & _ & Hd).
    split; [|split; [lia | exact Hd]].
    unfold UseCount.
    destruct (Z.eqb_spec (data_ptr_ x) nullptr) as [E|_]; [contradiction|].
    rewrite (RefCount_Some _ _ c Hc), Hcount. reflexivity.
Qed.

Lemma intrusive_use_count_is_number_of_handles_witness :
  ∃ s,
    IntrusiveProgram.run
      [IntrusiveProgram.OpMake 1 100; IntrusiveProgram.OpCopy 2 1;
       IntrusiveProgram.OpFromGet 3 2; IntrusiveProgram.OpReset 1]
      IntrusiveProgram.init = Some s ∧
    IntrusivePtr.UseCount (IntrusivePtr.mk 100) (IntrusiveRef.store s)
      = Some (2, IntrusiveRef.store s).
Proof.
  eexists. split; [vm_compute; reflexivity|].
  match goal with |- UseCount _ (IntrusiveRef.store ?s) = _ =>
    destruct (proj2 (intrusive_use_count_is_number_of_handles
                [IntrusiveProgram.OpMake 1 100; IntrusiveProgram.OpCopy 2 1;
                 IntrusiveProgram.OpFromGet 3 2; IntrusiveProgram.OpReset 1]
                s 2 (IntrusivePtr.mk 100) eq_refl eq_refl)) as (Hcount & _)
  end.
  - discriminate.
  - rewrite Hcount. vm_compute. reflexivity.
Defined.

(** X20.  Programs whose pointees own no handles: lifetime of the pointee
    under operations on the client's handle objects.  In every state a
    program reaches from the empty one, an object is alive exactly while
    some handle points to it; each object allocated at an address has been
    destroyed exactly once, except the one still alive; and once no handle
    object is left, no object is left either. *)
Theorem intrusive_object_lives_while_shared ops s p :
  IntrusiveProgram.run ops IntrusiveProgram.init = Some s → p ≠ nullptr →
  (is_Some (IntrusivePtr.objects (IntrusiveRef.store s) !! p) ↔
     (0 < IntrusiveProgram.sharers p (IntrusiveRef.handles s))%nat) ∧
  (IntrusiveProgram.destroys p (IntrusiveRef.store s) +
     match IntrusivePtr.objects (IntrusiveRef.store s) !! p with
     | Some _ => 1
     | None => 0
     end = IntrusiveProgram.allocations p ops)%nat ∧
  (IntrusiveRef.handles s = ∅ →
     IntrusivePtr.objects (IntrusiveRef.store s) = ∅ ∧
     IntrusiveProgram.destroys p (IntrusiveRef.store s)
       = IntrusiveProgram.allocations p ops).
Proof.
  intros Hrun Hp.
  destruct (intrusive_run_consistent ops s Hrun) as (_ & Hnull & _ & Hinv).
  pose proof (Hinv p Hp) as Hobj. unfold object_inv in Hobj.
  split; [|split].
  - destruct (objects (IntrusiveRef.store s) !! p) as [c|].
    + split; [intros _; lia | eauto].
    + destruct Hobj as [-> _]. split; [intros [? ?]; discriminate | lia].
  - destruct (objects (IntrusiveRef.store s) !! p) as [c|]; lia.
  - intros Hempty. split.
    + apply map_empty. intros q.
      destruct (decide (q = nullptr)) as [->|Hq]; [exact Hnull|].
      specialize (Hinv q Hq). unfold object_inv in Hinv.
      rewrite Hempty, sharers_empty in Hinv.
      destruct (objects (IntrusiveRef.store s) !! q); [lia | reflexivity].
    + rewrite Hempty, sharers_empty in Hobj.
      destruct (objects (IntrusiveRef.store s) !! p); [lia | apply Hobj].
Qed.

Lemma intrusive_object_lives_while_shared_witness :
  ∃ s,
    IntrusiveProgram.run
      [IntrusiveProgram.OpMake 1 100; IntrusiveProgram.OpCopy 2 1;
       IntrusiveProgram.OpDestroy 1; IntrusiveProgram.OpDestroy 2;
       IntrusiveProgram.OpMake 1 100; IntrusiveProgram.OpDestroy 1]
      IntrusiveProgram.init = Some s ∧
    IntrusivePtr.objects (IntrusiveRef.store s) = ∅ ∧
    IntrusiveProgram.destroys 100 (IntrusiveRef.store s) = 2%nat.
Proof.
  eexists. split; [vm_compute; reflexivity|].
  match goal with |- objects (IntrusiveRef.store ?s) = _ ∧ _ =>
    destruct (intrusive_object_lives_while_shared
                [IntrusiveProgram.OpMake 1 100; IntrusiveProgram.OpCopy 2 1;
                 IntrusiveProgram.OpDestroy 1; IntrusiveProgram.OpDestroy 2;
                 IntrusiveProgram.OpMake 1 100; IntrusiveProgram.OpDestroy 1]
                s 100 eq_refl) as (_ & _ & Hend)
  end.
  - discriminate.
  - destruct (Hend eq_refl) as [Hobjs Hd]. split; [exact Hobjs|].
    rewrite Hd. vm_compute. reflexivity.
Defined.

(** X21.  Programs whose pointees own no handles: operations on the client's
    handle objects never touch a deleted object or a destroyed handle.  In a
    state a program reaches from the empty one, the only operation that is
    stopped is one that names a handle object that does not exist (or an
    address that is taken); every other operation completes, and the program
    extended by it reaches the resulting state. *)
Theorem intrusive_operations_never_touch_deleted_objects ops s o :
  IntrusiveProgram.run ops IntrusiveProgram.init = Some s →
  (∀ f s', IntrusiveProgram.exec o s = IntrusiveRef.Halt f s' →
     f = IntrusiveRef.NoHandle ∧ IntrusiveProgram.well_formed o s = false) ∧
  (IntrusiveProgram.well_formed o s = true →
     ∃ s', IntrusiveProgram.exec o s = IntrusiveRef.Done tt s' ∧
           IntrusiveProgram.run (ops ++ [o]) IntrusiveProgram.init = Some s').
Proof.
  intros Hrun.
  pose proof (intrusive_exec_step ops s o (intrusive_run_consistent ops s Hrun)) as Hstep.
  split.
  - intros f s' Hexec. rewrite Hexec in Hstep. split; [|exact Hstep].
    rewrite (intrusive_exec_ill_formed o s Hstep) in Hexec. congruence.
  - intros Hwf.
    destruct (exec o s) as [[] s'|f s'] eqn:Hexec; [|congruence].
    exists s'. split; [reflexivity|].
    rewrite intrusive_run_app, Hrun. cbn. rewrite Hexec. reflexivity.
Qed.

Lemma intrusive_operations_never_touch_deleted_objects_witness :
  ∃ s', IntrusiveProgram.exec (IntrusiveProgram.OpCopyAssign 2 1)
          (IntrusiveRef.mkState
             (IntrusivePtr.mkStore {[ 100 := Intrusive.mkSimpleCounter 1;
                                      200 := Intrusive.mkSimpleCounter 1 ]} [])
             ∅
             {[ 1 := IntrusivePtr.mk 100; 2 := IntrusivePtr.mk 200 ]})
        = IntrusiveRef.Done tt s'.
Proof.
  assert (Hrun : IntrusiveProgram.run
                   [IntrusiveProgram.OpMake 1 100; IntrusiveProgram.OpMake 2 200]
                   IntrusiveProgram.init
                 = Some (IntrusiveRef.mkState
                           (IntrusivePtr.mkStore {[ 100 := Intrusive.mkSimpleCounter 1;
                                                    200 := Intrusive.mkSimpleCounter 1 ]} [])
                           ∅
                           {[ 1 := IntrusivePtr.mk 100; 2 := IntrusivePtr.mk 200 ]}))
    by (vm_compute; reflexivity).
  destruct (proj2 (intrusive_operations_never_touch_deleted_objects
                     _ _ (IntrusiveProgram.OpCopyAssign 2 1) Hrun))
    as (s' & Hexec & _).
  - vm_compute. reflexivity.
  - exists s'. exact Hexec.
Defined.

End IntrusivePrograms.
